(** * Exquisite Fingerings: grid geometry, pitch classes, chord matching,
      fingering synthesis and scoring

    A shallow embedding of the engine of the application (the hex grid of
    the Exquis controller, the pitch-class helpers, the chord matcher, the
    pattern extractor, the synthesizer and the scorer), followed by the
    properties established about it.

    Conventions of the embedding:
    - grid coordinates, pad indices, MIDI notes, finger numbers and pitch
      classes are JavaScript numbers that only ever hold integers: they are
      [Z]; the remainder operator [%] is [Z.rem] (sign of the dividend);
    - scores are JavaScript numbers obtained with [Math.sqrt] and division:
      they are real numbers [R] (the idealisation of binary64 arithmetic);
    - [undefined]/[null] are [None]; [a || b] picks [b] when [a] is falsy
      (absent or zero);
    - a [Set] of integers is a [gset Z]; a thrown [Error] is the [Throws]
      outcome. *)

From Stdlib Require Import ZArith Reals Lra Lia String Ascii List.
From stdpp Require Import base option list gmap sets sorting pretty.

Open Scope Z_scope.

(** ** Outcomes of functions that may throw *)

Inductive Error : Type :=
| InvalidPadIndex (padIndex : Z).

Inductive outcome (A : Type) : Type :=
| Returns (a : A)
| Throws (e : Error).

Arguments Returns {A} a.
Arguments Throws {A} e.

(** [arr[i]] on an array of numbers: [None] is [undefined]. *)
Definition js_index {A : Type} (arr : list A) (i : Z) : option A :=
  if i <? 0 then None else arr !! Z.to_nat i.

(** ** core/grid.js and devices/exquis/exquis-device.js *)

Module Grid.

Record GridPosition : Type := mkPos { row : Z; col : Z }.

(** The two layout modes of the hex grid ([currentGridMode]). *)
Inductive GridMode : Type := Intervals | Chromatic.

Definition ROW_COUNT : Z := 11.

Definition getRowLength (row : Z) : Z :=
  if Z.rem row 2 =? 0 then 6 else 5.

(** [ROW_START] of core/grid.js: the loop of the initialiser, pushing
    [starts[r - 1] + (r % 2 === 1 ? 4 : 3)] for [r = 1 .. ROW_COUNT - 1]. *)
Definition pushIntervalStart (starts : list Z) (r : Z) : list Z :=
  match js_index starts (r - 1) with
  | Some prev => starts ++ [prev + (if Z.rem r 2 =? 1 then 4 else 3)]
  | None => starts
  end.

Definition ROW_START_INTERVALS : list Z :=
  fold_left pushIntervalStart (seqZ 1 (ROW_COUNT - 1)) [0].

(** Modelled from the spec: one step of the running sum of the row lengths
    that makes the chromatic row starts (the table itself is not in the
    sources, see [ROW_START_CHROMATIC]). *)
Definition pushChromaticStart (starts : list Z) (r : Z) : list Z :=
  match js_index starts (r - 1) with
  | Some prev => starts ++ [prev + getRowLength (r - 1)]
  | None => starts
  end.

(** Modelled from the spec: [ROW_START_CHROMATIC] of
    devices/exquis/exquis-geometry.js, a module whose source is not
    available.  The specification gives the chromatic index as
    [cumulative_row_start[row] + col], the row starts being the running
    sums of the row lengths (0, 6, 11, 17, ...); the grid tests of the
    chromatic snapshot expect the same table. *)
Definition ROW_START_CHROMATIC : list Z :=
  fold_left pushChromaticStart (seqZ 1 (ROW_COUNT - 1)) [0].

(** [ExquisDevice._getRowStart] *)
Definition _getRowStart (currentGridMode : GridMode) : list Z :=
  match currentGridMode with
  | Chromatic => ROW_START_CHROMATIC
  | Intervals => ROW_START_INTERVALS
  end.

(** [getPadIndex]: [ROW_START[row] + col]; [None] is the [NaN] obtained
    when [row] has no entry in the table. *)
Definition getPadIndex (mode : GridMode) (row col : Z) : option Z :=
  (fun start => start + col) <$> js_index (_getRowStart mode) row.

(** The loop of [getRowCol], generic in the table; [n] counts the rows
    that remain to be scanned. *)
Fixpoint scanRows (starts : list Z) (padIndex : Z) (row : Z) (n : nat)
  : outcome GridPosition :=
  match n with
  | O => Throws (InvalidPadIndex padIndex)
  | S n' =>
      match js_index starts row with
      | Some start =>
          if (start <=? padIndex)
             && ((0 <=? padIndex - start)
                 && (padIndex - start <? getRowLength row))
          then Returns (mkPos row (padIndex - start))
          else scanRows starts padIndex (row + 1) n'
      | None => scanRows starts padIndex (row + 1) n'
      end
  end.

Definition getRowCol (mode : GridMode) (padIndex : Z) : outcome GridPosition :=
  scanRows (_getRowStart mode) padIndex 0 (Z.to_nat ROW_COUNT).

Definition getMidiNote (mode : GridMode) (row col : Z) (baseMidi : Z) : option Z :=
  (fun padIndex => baseMidi + padIndex) <$> getPadIndex mode row col.

(** [HEX_GEOMETRY.portrait]: horizontal and vertical spacing. *)
Definition HEX_W : Z := 38.
Definition HEX_H : Z := 33.

(** [getCellCenter(row, col, padding = 48)]: [w / 2] is the integer 19. *)
Definition getCellCenter (row col : Z) : Z * Z :=
  let padding := 48 in
  (col * HEX_W + (if Z.rem row 2 =? 0 then 0 else HEX_W / 2) + padding,
   (ROW_COUNT - 1 - row) * HEX_H + padding).

(** [getGridDistance]: distance of the centres over the pad width. *)
Definition getGridDistance (row1 col1 row2 col2 : Z) : R :=
  let '(x1, y1) := getCellCenter row1 col1 in
  let '(x2, y2) := getCellCenter row2 col2 in
  (sqrt (IZR ((x2 - x1) ^ 2 + (y2 - y1) ^ 2)) / IZR HEX_W)%R.

(** The invariant of [GridPosition] on the hex grid. *)
Definition validPosition (row col : Z) : Prop :=
  0 <= row < ROW_COUNT /\ 0 <= col < getRowLength row.

(** [padIndex] lies in the column range of [row]. *)
Definition inRow (starts : list Z) (padIndex row : Z) : Prop :=
  exists start, js_index starts row = Some start
                /\ start <= padIndex < start + getRowLength row.

(** [getNeighbors]: the six offsets of the parity of [row]. *)
Definition neighborOffsets (row : Z) : list (Z * Z) :=
  if Z.rem row 2 =? 0
  then [(0, -1); (0, 1); (1, -1); (1, 0); (-1, -1); (-1, 0)]
  else [(0, -1); (0, 1); (1, 0); (1, 1); (-1, 0); (-1, 1)].

(** [getNeighbors(row, col)]: the offsets that stay on the grid, in the
    order of the table. *)
Definition getNeighbors (row col : Z) : list GridPosition :=
  flat_map
    (fun offset =>
       let newRow := row + fst offset in
       let newCol := col + snd offset in
       if (0 <=? newRow) && (newRow <? ROW_COUNT)
          && (0 <=? newCol) && (newCol <? getRowLength newRow)
       then [mkPos newRow newCol] else [])
    (neighborOffsets row).

(** The positions of the grid, row by row. *)
Definition allPositions : list (Z * Z) :=
  flat_map (fun row => map (fun col => (row, col)) (seqZ 0 (getRowLength row)))
           (seqZ 0 ROW_COUNT).

(** The chord tones named by [GridRenderer._calculateInterval]. *)
Inductive ChordTone : Type :=
| ToneRoot | ToneNinth | ToneThird | ToneEleventh | ToneFifth
| ToneThirteenth | ToneSeventh | ToneDefault.

(** [_calculateInterval(pc, rootPC)] of the renderer. *)
Definition _calculateInterval (pc rootPC : Z) : ChordTone :=
  let semitones := Z.rem (pc - rootPC + 12) 12 in
  if semitones =? 0 then ToneRoot
  else if semitones =? 2 then ToneNinth
  else if (semitones =? 3) || (semitones =? 4) then ToneThird
  else if semitones =? 5 then ToneEleventh
  else if semitones =? 7 then ToneFifth
  else if semitones =? 9 then ToneThirteenth
  else if (semitones =? 10) || (semitones =? 11) then ToneSeventh
  else ToneDefault.

End Grid.

(** ** devices/launchpad-x/launchpad-x-device.js

    The square grid.  [ROW_COUNT] and [COL_COUNT] come from
    square-grid-geometry.js, whose source is not available; they are
    parameters here. *)

Module SquareGrid.

Definition getPadIndex (COL_COUNT : Z) (row col : Z) : Z :=
  row * COL_COUNT + col.

(** [getRowCol]: [Math.floor(padIndex / COL_COUNT)] and
    [padIndex % COL_COUNT], then the bounds check. *)
Definition getRowCol (ROW_COUNT COL_COUNT : Z) (padIndex : Z)
  : outcome Grid.GridPosition :=
  let row := padIndex / COL_COUNT in
  let col := Z.rem padIndex COL_COUNT in
  if (row <? 0) || (ROW_COUNT <=? row) || (col <? 0) || (COL_COUNT <=? col)
  then Throws (InvalidPadIndex padIndex)
  else Returns (Grid.mkPos row col).

(** [getMidiNote]: rows a fourth apart. *)
Definition getMidiNote (row col : Z) (baseMidi : Z) : Z :=
  baseMidi + row * 5 + col.

End SquareGrid.

(** ** core/music.js *)

Module Music.

(** [midiToPitchClass]: [((midiNote % 12) + 12) % 12]. *)
Definition midiToPitchClass (midiNote : Z) : Z :=
  Z.rem (Z.rem midiNote 12 + 12) 12.

(** The numbers that [parseCustomPitchClasses] can meet on input made of
    integer literals: integers, the infinities and [NaN]. *)
Inductive jsnum : Type :=
| NaN
| NegInf
| PosInf
| Num (z : Z).

#[export] Instance jsnum_eq_dec : EqDecision jsnum.
Proof. solve_decision. Defined.

Definition jsnum_encode (n : jsnum) : option (bool + Z) :=
  match n with
  | NaN => None
  | NegInf => Some (inl false)
  | PosInf => Some (inl true)
  | Num z => Some (inr z)
  end.

Definition jsnum_decode (c : option (bool + Z)) : jsnum :=
  match c with
  | None => NaN
  | Some (inl false) => NegInf
  | Some (inl true) => PosInf
  | Some (inr z) => Num z
  end.

#[export] Instance jsnum_countable : Countable jsnum.
Proof.
  apply (inj_countable' jsnum_encode jsnum_decode).
  intros []; reflexivity.
Defined.

(** [a % b] *)
Definition js_rem (a b : jsnum) : jsnum :=
  match a, b with
  | Num x, Num y => if y =? 0 then NaN else Num (Z.rem x y)
  | Num x, (NegInf | PosInf) => Num x
  | _, _ => NaN
  end.

(** [a + b] *)
Definition js_add (a b : jsnum) : jsnum :=
  match a, b with
  | NaN, _ | _, NaN => NaN
  | PosInf, NegInf | NegInf, PosInf => NaN
  | PosInf, _ | _, PosInf => PosInf
  | NegInf, _ | _, NegInf => NegInf
  | Num x, Num y => Num (x + y)
  end.

(** [Number.isNaN] *)
Definition isNaN (n : jsnum) : bool :=
  match n with NaN => true | _ => false end.

(** White space removed by [String.prototype.trim], among the
    characters of one byte: TAB, LF, VT, FF, CR, SPACE and NBSP. *)
Definition isWhiteSpace (c : ascii) : bool :=
  let n := Z.of_nat (nat_of_ascii c) in
  ((9 <=? n) && (n <=? 13)) || (n =? 32) || (n =? 160).

Fixpoint trimStart (s : list ascii) : list ascii :=
  match s with
  | c :: s' => if isWhiteSpace c then trimStart s' else s
  | [] => []
  end.

(** [s.trim()] *)
Definition trim (s : list ascii) : list ascii :=
  rev (trimStart (rev (trimStart s))).

(** [s.split(sep)] for a separator of one character: always at least one
    piece. *)
Fixpoint split (sep : ascii) (s : list ascii) : list (list ascii) :=
  match s with
  | [] => [[]]
  | c :: s' =>
      if Ascii.eqb c sep then [] :: split sep s'
      else match split sep s' with
           | piece :: pieces => (c :: piece) :: pieces
           | [] => [[c]]
           end
  end.

Definition digitValue (c : ascii) : option Z :=
  let n := Z.of_nat (nat_of_ascii c) in
  if (48 <=? n) && (n <=? 57) then Some (n - 48) else None.

(** The value of a non-empty run of decimal digits. *)
Fixpoint decimalDigits (acc : Z) (s : list ascii) : option Z :=
  match s with
  | [] => Some acc
  | c :: s' =>
      match digitValue c with
      | Some d => decimalDigits (10 * acc + d) s'
      | None => None
      end
  end.

Definition unsignedLiteral (s : list ascii) : jsnum :=
  if bool_decide (s = list_ascii_of_string "Infinity") then PosInf
  else match s with
       | [] => NaN
       | _ => match decimalDigits 0 s with
              | Some z => Num z
              | None => NaN
              end
       end.

Definition js_neg (n : jsnum) : jsnum :=
  match n with
  | NaN => NaN
  | NegInf => PosInf
  | PosInf => NegInf
  | Num z => Num (- z)
  end.

(** [Number(s)] on a string: the conversion [StringToNumber] of
    ECMAScript for the literals made of white space, an optional sign and
    either decimal digits or [Infinity]; the empty (or blank) string is
    [0], anything else is [NaN].  Literals with a fraction, an exponent or
    a radix prefix also denote numbers in JavaScript; they need
    non-integer or rounded values and are left out of this model, whose
    statements are made only on the literals listed here. *)
Definition Number (s : list ascii) : jsnum :=
  match trim s with
  | [] => Num 0
  | c :: body =>
      if Ascii.eqb c "+" then unsignedLiteral body
      else if Ascii.eqb c "-" then js_neg (unsignedLiteral body)
      else unsignedLiteral (c :: body)
  end.

(** [parseCustomPitchClasses]: the guard on an empty or blank string,
    then one [Number] per comma-separated piece, kept when it is not
    [NaN] and added as [((n % 12) + 12) % 12]. *)
Definition parseCustomPitchClasses (pcString : string) : gset jsnum :=
  let text := list_ascii_of_string pcString in
  match text, trim text with
  | [], _ | _, [] => ∅
  | _, _ =>
      fold_left
        (fun (pcs : gset jsnum) (s : list ascii) =>
           let n := Number (trim s) in
           if isNaN n then pcs
           else pcs ∪ {[ js_rem (js_add (js_rem n (Num 12)) (Num 12)) (Num 12) ]})
        (split "," text) ∅
  end.

(** The outcome of a lookup in the tables of this module. *)
Inductive MusicError : Type :=
| InvalidKey (key : string)
| InvalidSetType (setType : string).

(** [NOTE_TO_PC] *)
Definition NOTE_TO_PC : list (string * Z) :=
  [ ("C", 0); ("C#", 1); ("Db", 1);
    ("D", 2); ("D#", 3); ("Eb", 3);
    ("E", 4);
    ("F", 5); ("F#", 6); ("Gb", 6);
    ("G", 7); ("G#", 8); ("Ab", 8);
    ("A", 9); ("A#", 10); ("Bb", 10);
    ("B", 11) ]%string.

Inductive SetKind : Type := Scale | Chord.

Record PitchClassSetData : Type := mkSet {
  name : string;
  intervals : list Z;
  type : SetKind
}.

(** [PITCH_CLASS_SETS] *)
Definition PITCH_CLASS_SETS : list (string * PitchClassSetData) :=
  [ ("maj", mkSet "Major scale" [0; 2; 4; 5; 7; 9; 11] Scale);
    ("natmin", mkSet "Natural minor" [0; 2; 3; 5; 7; 8; 10] Scale);
    ("harmin", mkSet "Harmonic minor" [0; 2; 3; 5; 7; 8; 11] Scale);
    ("melmin", mkSet "Melodic minor" [0; 2; 3; 5; 7; 9; 11] Scale);
    ("dorian", mkSet "Dorian" [0; 2; 3; 5; 7; 9; 10] Scale);
    ("phrygian", mkSet "Phrygian" [0; 1; 3; 5; 7; 8; 10] Scale);
    ("lydian", mkSet "Lydian" [0; 2; 4; 6; 7; 9; 11] Scale);
    ("mixolydian", mkSet "Mixolydian" [0; 2; 4; 5; 7; 9; 10] Scale);
    ("locrian", mkSet "Locrian" [0; 1; 3; 5; 6; 8; 10] Scale);
    ("majpent", mkSet "Major pentatonic" [0; 2; 4; 7; 9] Scale);
    ("minpent", mkSet "Minor pentatonic" [0; 3; 5; 7; 10] Scale);
    ("majtriad", mkSet "Major triad" [0; 4; 7] Chord);
    ("mintriad", mkSet "Minor triad" [0; 3; 7] Chord);
    ("augtriad", mkSet "Augmented triad" [0; 4; 8] Chord);
    ("dimtriad", mkSet "Diminished triad" [0; 3; 6] Chord);
    ("maj7", mkSet "Major 7th" [0; 4; 7; 11] Chord);
    ("min7", mkSet "Minor 7th" [0; 3; 7; 10] Chord);
    ("dom7", mkSet "Dominant 7th" [0; 4; 7; 10] Chord);
    ("dim7", mkSet "Diminished 7th" [0; 3; 6; 9] Chord);
    ("hdim7", mkSet "Half-diminished 7th" [0; 3; 6; 10] Chord);
    ("maj9", mkSet "Major 9th" [0; 4; 7; 11; 14] Chord);
    ("min9", mkSet "Minor 9th" [0; 3; 7; 10; 14] Chord);
    ("dom9", mkSet "Dominant 9th" [0; 4; 7; 10; 14] Chord);
    ("chromatic", mkSet "Chromatic" [0; 1; 2; 3; 4; 5; 6; 7; 8; 9; 10; 11] Scale);
    ("wholeTone", mkSet "Whole tone" [0; 2; 4; 6; 8; 10] Scale) ]%string.

(** [table[key]] on the own properties of an object literal.  The
    properties that every object inherits ([constructor], [toString] and
    the like) are not part of this model: the statements about
    [getPitchClasses] are made for keys of the tables. *)
Definition ownProperty {V : Type} (table : list (string * V)) (key : string)
  : option V :=
  snd <$> find (fun e => String.eqb (fst e) key) table.

(** [getPitchClasses(key, setType)] *)
Definition getPitchClasses (key setType : string) : MusicError + gset Z :=
  match ownProperty NOTE_TO_PC key with
  | None => inl (InvalidKey key)
  | Some root =>
      match ownProperty PITCH_CLASS_SETS setType with
      | None => inl (InvalidSetType setType)
      | Some pcsData =>
          inr (fold_left (fun (pcs : gset Z) interval =>
                            pcs ∪ {[ Z.rem (root + interval) 12 ]})
                         (intervals pcsData) ∅)
      end
  end.

(** [ToInt32] on an integer: the residue modulo 2^32 in
    [-2^31, 2^31). *)
Definition toInt32 (n : Z) : Z :=
  (n + 2 ^ 31) mod 2 ^ 32 - 2 ^ 31.

(** [1 << pc]: the shift count is [pc] modulo 32. *)
Definition shiftOne (pc : Z) : Z :=
  toInt32 (Z.shiftl 1 (pc mod 32)).

(** [pcsToBinary(pcs)], on the array of the pitch classes (for a [Set], its
    elements in insertion order). *)
Definition pcsToBinary (pcsArray : list Z) : Z :=
  fold_left (fun binary pc => Z.lor (toInt32 binary) (shiftOne pc)) pcsArray 0.

(** [binaryToPcs(binary)] *)
Definition binaryToPcs (binary : Z) : gset Z :=
  fold_left
    (fun (pcs : gset Z) pc =>
       if negb (Z.land (toInt32 binary) (shiftOne pc) =? 0)
       then pcs ∪ {[ pc ]} else pcs)
    (seqZ 0 12) ∅.

(** [getInterval(pc1, pc2)] *)
Definition getInterval (pc1 pc2 : Z) : Z :=
  Z.rem (pc2 - pc1 + 12) 12.

(** [transposePcs(pcs, semitones)], on the elements of the set. *)
Definition transposePcs (pcs : list Z) (semitones : Z) : gset Z :=
  fold_left (fun (transposed : gset Z) pc =>
               transposed ∪ {[ Z.rem (pc + semitones + 12) 12 ]})
            pcs ∅.

(** [PC_TO_NOTE_SHARP] and [PC_TO_NOTE_FLAT] *)
Definition PC_TO_NOTE_SHARP : list string :=
  [ "C"; "C#"; "D"; "D#"; "E"; "F"; "F#"; "G"; "G#"; "A"; "A#"; "B" ]%string.

Definition PC_TO_NOTE_FLAT : list string :=
  [ "C"; "Db"; "D"; "Eb"; "E"; "F"; "Gb"; "G"; "Ab"; "A"; "Bb"; "B" ]%string.

(** [midiToNoteName(midiNote, useFlats)]: the template literal prints the
    name found in the table, or [undefined], followed by the octave in
    decimal. *)
Definition midiToNoteName (midiNote : Z) (useFlats : bool) : string :=
  let pc := Z.rem (Z.rem midiNote 12 + 12) 12 in
  let octave := midiNote / 12 - 1 in
  let noteName :=
    js_index (if useFlats then PC_TO_NOTE_FLAT else PC_TO_NOTE_SHARP) pc in
  String.append (default "undefined"%string noteName) (pretty octave).

End Music.

(** ** JavaScript idioms shared by the analysis modules *)

(** [x || d] on an optional real number: [d] when [x] is absent or zero. *)
Definition or_elseR (x : option R) (d : R) : R :=
  match x with
  | Some r => if Req_dec_T r 0 then d else r
  | None => d
  end.

(** [x || d] on an optional integer. *)
Definition or_elseZ (x : option Z) (d : Z) : Z :=
  match x with
  | Some z => if z =? 0 then d else z
  | None => d
  end.

(** [Array.prototype.sort(compare)], a stable sort; [after a b] holds when
    [compare(a, b) > 0], that is, when [a] has to come after [b]. *)
Section JsSort.
Context {A : Type} (after : A -> A -> bool).

Fixpoint sortInsert (x : A) (sorted : list A) : list A :=
  match sorted with
  | [] => [x]
  | y :: rest => if after x y then y :: sortInsert x rest else x :: sorted
  end.

Definition js_sort (l : list A) : list A := fold_right sortInsert [] l.
End JsSort.

(** [Math.round]: the nearest integer, halves going up. *)
Definition Math_round (x : R) : Z := Zfloor (x + / 2).

(** The hand of a handprint or of a fingering: ['left'] or ['right']. *)
Inductive Hand : Type := LeftHand | RightHand.

#[export] Instance Hand_eq_dec : EqDecision Hand.
Proof. solve_decision. Defined.

(** ** Handprints, as the capture workflow stores them *)

Module Handprint.

Record Position : Type := mkPosition {
  row : Z;
  col : Z;
  padIndex : Z;
  midiNote : option Z;
  finger : Z
}.

Record t : Type := mk {
  id : string;
  hand : Hand;
  comfortRating : option R;
  baseMidi : option Z;
  midiDevice : string;
  capturedAt : Z;
  positions : list Position;
  measurements : option (list (string * R))
}.

End Handprint.

(** ** analysis/chord-matcher.js *)

Module ChordMatcher.

(** One position of a fingering produced by the matcher. *)
Record Position : Type := mkPosition {
  row : Z;
  col : Z;
  padIndex : Z;
  midiNote : Z;
  finger : Z;
  pitchClass : Z
}.

(** A fingering object; [P] is what its [positions] field holds: the
    array itself, or a reference to it when objects live in a store. *)
Record Fingering (P : Type) : Type := mkFingering {
  handprintId : string;
  hand : Hand;
  comfortRating : option R;
  baseMidi : Z;
  midiDevice : string;
  capturedAt : Z;
  positions : P;
  score : Z;
  comfortScore : option Z;
  geometricScore : Z;
  ergonomicScore : Z
}.

Arguments mkFingering {P}.
Arguments handprintId {P}.
Arguments hand {P}.
Arguments comfortRating {P}.
Arguments baseMidi {P}.
Arguments midiDevice {P}.
Arguments capturedAt {P}.
Arguments positions {P}.
Arguments score {P}.
Arguments comfortScore {P}.
Arguments geometricScore {P}.
Arguments ergonomicScore {P}.

(** [generateSubsets]: the recursive [backtrack(start, current)].  [rest]
    is [arr] from index [start] on; the [for] loop over [i] and the call
    [backtrack(i + 1, ...)] both continue on the tail of [rest]. *)
Section GenerateSubsets.
Context {A : Type} (minSize maxSize : nat).

Definition keep (current : list A) : list (list A) :=
  if (minSize <=? length current)%nat && (length current <=? maxSize)%nat
  then [current] else [].

Fixpoint backtrackLoop (rest : list A) (current : list A) : list (list A) :=
  match rest with
  | [] => []
  | x :: rest' =>
      (keep (current ++ [x])
         ++ (if (length (current ++ [x]) =? maxSize)%nat then []
             else backtrackLoop rest' (current ++ [x])))
        ++ backtrackLoop rest' current
  end.

Definition backtrack (rest : list A) (current : list A) : list (list A) :=
  keep current
    ++ (if (length current =? maxSize)%nat then []
        else backtrackLoop rest current).

Definition generateSubsets (arr : list A) : list (list A) :=
  backtrack arr [].
End GenerateSubsets.

(** [pos.midiNote || (baseMidi + pos.padIndex)] *)
Definition noteOf (baseMidi : Z) (pos : Handprint.Position) : Z :=
  or_elseZ (Handprint.midiNote pos) (baseMidi + Handprint.padIndex pos).

(** The test of the inner loop: same size, and every pitch class of the
    subset in the target set. *)
Definition exactMatch (pitchSet targetSet : gset Z) : bool :=
  bool_decide (size pitchSet = size targetSet)
  && forallb (fun pc => bool_decide (pc ∈ targetSet)) (elements pitchSet).

Definition matchSubset (targetSet : gset Z) (baseMidi : Z)
    (handprint : Handprint.t) (subset : list Handprint.Position)
  : list (Fingering (list Position)) :=
  let pitchClasses :=
    map (fun pos => Music.midiToPitchClass (noteOf baseMidi pos)) subset in
  let pitchSet : gset Z := list_to_set pitchClasses in
  if exactMatch pitchSet targetSet then
    [ {| handprintId := Handprint.id handprint;
         hand := Handprint.hand handprint;
         comfortRating := Some (or_elseR (Handprint.comfortRating handprint) 50);
         baseMidi := or_elseZ (Handprint.baseMidi handprint) baseMidi;
         midiDevice := Handprint.midiDevice handprint;
         capturedAt := Handprint.capturedAt handprint;
         positions :=
           map (fun pos =>
                  {| row := Handprint.row pos;
                     col := Handprint.col pos;
                     padIndex := Handprint.padIndex pos;
                     midiNote := noteOf baseMidi pos;
                     finger := Handprint.finger pos;
                     pitchClass := Music.midiToPitchClass (noteOf baseMidi pos) |})
               subset;
         score := 0;
         comfortScore := None;
         geometricScore := 0;
         ergonomicScore := 0 |} ]
  else [].

(** [hand ? handprints.filter(hp => hp.hand === hand) : handprints] *)
Definition filterByHand (hand : option Hand) (handprints : list Handprint.t)
  : list Handprint.t :=
  match hand with
  | Some h => filter (fun hp => Handprint.hand hp = h) handprints
  | None => handprints
  end.

Definition findChordFingerings (targetPitchClasses : list Z)
    (handprints : list Handprint.t) (baseMidi : Z) (hand : option Hand)
  : list (Fingering (list Position)) :=
  let targetSet : gset Z := list_to_set targetPitchClasses in
  flat_map
    (fun handprint =>
       flat_map (matchSubset targetSet baseMidi handprint)
                (generateSubsets 3 5 (Handprint.positions handprint)))
    (filterByHand hand handprints).

Fixpoint consecutive (fingers : list Z) : bool :=
  match fingers with
  | a :: (b :: _) as rest => (b =? a + 1) && consecutive rest
  | _ => true
  end.

Definition sortedFingers (positions : list Position) : list Z :=
  js_sort (fun a b => 0 <? a - b) (map finger positions).

Definition usesConsecutiveFingers (positions : list Position) : bool :=
  consecutive (sortedFingers positions).

(** The distance computed in the body of the two loops. *)
Definition distance (p q : Position) : R :=
  sqrt (IZR ((col q - col p) * (col q - col p)
             + (row q - row p) * (row q - row p))).

(** [calculateSpan]: the loops over [i < j], threading [maxDistance]. *)
Fixpoint spanLoop (positions : list Position) (maxDistance : R) : R :=
  match positions with
  | [] => maxDistance
  | p :: rest =>
      spanLoop rest
        (fold_left (fun m q => Rmax m (distance p q)) rest maxDistance)
  end.

Definition calculateSpan (positions : list Position) : R :=
  spanLoop positions 0%R.

End ChordMatcher.

(** ** analysis/fingering-scorer.js *)

Module FingeringScorer.
Import ChordMatcher.

(** [scoreComfort]: [fingering.comfortRating || 50]. *)
Definition scoreComfort (comfortRating : option R) : R :=
  or_elseR comfortRating 50.

(** The branches on [span] of [scoreGeometry]. *)
Definition spanScore (span : R) : R :=
  if Rle_dec span 3 then 100
  else if Rle_dec span 5 then 100 - (span - 3) * 15
  else if Rle_dec span 7 then 70 - (span - 5) * 15
  else Rmax 0 (40 - (span - 7) * 10).

(** [maxRow - minRow] for [Math.max(...rows)] and [Math.min(...rows)]:
    on an empty array these are [-Infinity] and [Infinity], and their
    difference is [-Infinity]. *)
Inductive RowSpan : Type :=
| MinusInfinity
| Rows (n : Z).

Definition rowSpan (rows : list Z) : RowSpan :=
  match rows with
  | [] => MinusInfinity
  | r :: rest => Rows (fold_left Z.max rest r - fold_left Z.min rest r)
  end.

(** [rowSpan <= 2 ? 100 : Math.max(0, 100 - (rowSpan - 2) * 20)] *)
Definition compactnessScore (span : RowSpan) : Z :=
  match span with
  | MinusInfinity => 100
  | Rows n => if n <=? 2 then 100 else Z.max 0 (100 - (n - 2) * 20)
  end.

Definition scoreGeometry (positions : list Position) : R :=
  (spanScore (calculateSpan positions)
   + IZR (compactnessScore (rowSpan (map row positions)))) / 2.

Definition includes (fingers : list Z) (f : Z) : bool :=
  existsb (Z.eqb f) fingers.

(** [scoreErgonomics]; every value involved is an integer. *)
Definition scoreErgonomics (positions : list Position) : Z :=
  let score0 := 50 in
  let score1 :=
    if usesConsecutiveFingers positions then score0 + 30 else score0 in
  let fingerCount := Z.of_nat (length positions) in
  let score2 :=
    if (fingerCount =? 3) || (fingerCount =? 4) then score1 + 20
    else if fingerCount =? 5 then score1 + 10
    else score1 in
  let fingers := sortedFingers positions in
  let score3 :=
    if includes fingers 1 && includes fingers 5
       && negb (includes fingers 2) && negb (includes fingers 3)
       && negb (includes fingers 4)
    then score2 - 30 else score2 in
  let score4 :=
    if (Z.of_nat (length fingers) =? 2)
       && bool_decide (js_index fingers 0 = Some 1)
       && bool_decide (js_index fingers 1 = Some 5)
    then score3 - 20 else score3 in
  Z.max 0 (Z.min 100 score4).

(** The weighted sum of [scoreFingering], before rounding. *)
Definition totalScore (comfortRating : option R) (positions : list Position) : R :=
  scoreComfort comfortRating * (4 / 10)
  + scoreGeometry positions * (3 / 10)
  + IZR (scoreErgonomics positions) * (3 / 10).

(** The object spread of [scoreFingering]: a copy of [fingering] with the
    four score fields replaced; [positions] is the array that the field
    [fingering.positions] designates. *)
Definition withScores {P : Type} (fingering : Fingering P)
    (positions : list Position) : Fingering P :=
  {| handprintId := handprintId fingering;
     hand := hand fingering;
     comfortRating := comfortRating fingering;
     baseMidi := baseMidi fingering;
     midiDevice := midiDevice fingering;
     capturedAt := capturedAt fingering;
     ChordMatcher.positions := ChordMatcher.positions fingering;
     score := Math_round (totalScore (comfortRating fingering) positions);
     comfortScore := Some (Math_round (scoreComfort (comfortRating fingering)));
     geometricScore := Math_round (scoreGeometry positions);
     ergonomicScore := Math_round (IZR (scoreErgonomics positions)) |}.

(** [scoreFingering] on a fingering value. *)
Definition scoreFingering (fingering : Fingering (list Position))
  : Fingering (list Position) :=
  withScores fingering (ChordMatcher.positions fingering).

(** The comparator [(a, b) => b.score - a.score] is positive when [a]
    scores less than [b]. *)
Definition scoredAfter {P : Type} (a b : Fingering P) : bool :=
  0 <? score b - score a.

(** [rankFingerings] on fingering values. *)
Definition rankFingeringValues (fingerings : list (Fingering (list Position)))
  : list (Fingering (list Position)) :=
  js_sort scoredAfter (map scoreFingering fingerings).

(** *** The store of objects

    [rankFingerings] receives an array of references to fingering objects,
    each of which refers to its array of positions.  Arrays and objects
    are cells of a store; [map] and the object spread allocate, [sort]
    overwrites the array it is called on.  The arrays that the scoring
    helpers build with [map] for their own use never escape them and stay
    values. *)
Abbreviation loc := nat (only parsing).

Inductive cell : Type :=
| FingeringObject (fingering : Fingering loc)
| PositionArray (positions : list Position)
| FingeringArray (elements : list loc).

Abbreviation store := (gmap nat cell) (only parsing).

(** Computations on the store; [None] is the [TypeError] of a property
    read through a reference that does not hold the expected object. *)
Definition St (A : Type) : Type := store -> option (A * store).

Definition ret {A : Type} (a : A) : St A := fun h => Some (a, h).

Definition bind {A B : Type} (m : St A) (k : A -> St B) : St B :=
  fun h => match m h with
           | Some (a, h') => k a h'
           | None => None
           end.

Notation "x <- m ;; k" := (bind m (fun x => k))
  (at level 100, m at next level, right associativity).

Definition alloc (c : cell) : St loc :=
  fun h => let l := fresh (dom h) in Some (l, <[l := c]> h).

Definition write (l : loc) (c : cell) : St unit :=
  fun h => match h !! l with
           | Some _ => Some (tt, <[l := c]> h)
           | None => None
           end.

Definition readFingering (l : loc) : St (Fingering loc) :=
  fun h => match h !! l with
           | Some (FingeringObject f) => Some (f, h)
           | _ => None
           end.

Definition readPositions (l : loc) : St (list Position) :=
  fun h => match h !! l with
           | Some (PositionArray ps) => Some (ps, h)
           | _ => None
           end.

Definition readArray (l : loc) : St (list loc) :=
  fun h => match h !! l with
           | Some (FingeringArray ls) => Some (ls, h)
           | _ => None
           end.

(** [scoreFingering(f)] on a reference: reads the object and its
    positions, returns a reference to the new object. *)
Definition scoreFingeringRef (f : loc) : St loc :=
  fingering <- readFingering f ;;
  positions <- readPositions (ChordMatcher.positions fingering) ;;
  alloc (FingeringObject (withScores fingering positions)).

(** [elements.map(f => scoreFingering(f))], element by element. *)
Fixpoint mapScore (elements : list loc) : St (list loc) :=
  match elements with
  | [] => ret []
  | f :: rest =>
      f' <- scoreFingeringRef f ;;
      rest' <- mapScore rest ;;
      ret (f' :: rest')
  end.

(** Reads the objects behind the elements of an array. *)
Fixpoint readAll (elements : list loc) : St (list (loc * Fingering loc)) :=
  match elements with
  | [] => ret []
  | l :: rest =>
      f <- readFingering l ;;
      fs <- readAll rest ;;
      ret ((l, f) :: fs)
  end.

(** [arr.sort((a, b) => b.score - a.score)]: the array cell is
    overwritten with its elements in sorted order. *)
Definition sortByScore (arr : loc) : St loc :=
  elements <- readArray arr ;;
  objects <- readAll elements ;;
  _ <- write arr
         (FingeringArray
            (map fst (js_sort (fun a b => scoredAfter (snd a) (snd b)) objects))) ;;
  ret arr.

(** [rankFingerings(fingerings)] *)
Definition rankFingerings (fingerings : loc) : St loc :=
  elements <- readArray fingerings ;;
  scored <- mapScore elements ;;
  mapped <- alloc (FingeringArray scored) ;;
  sortByScore mapped.

(** An array of fingerings that the scorer can traverse. *)
Definition wellFormed (h : store) (fingerings : loc) : Prop :=
  exists elements,
    h !! fingerings = Some (FingeringArray elements)
    /\ Forall (fun l =>
                 exists f ps,
                   h !! l = Some (FingeringObject f)
                   /\ h !! ChordMatcher.positions f = Some (PositionArray ps))
              elements.

End FingeringScorer.

(** ** analysis/pattern-extractor.js *)

Module PatternExtractor.

Definition sumR (l : list R) : R := fold_left Rplus l 0%R.

(** [l.reduce((a, b) => a + b, 0) / l.length] *)
Definition mean (l : list R) : R := (sumR l / INR (length l))%R.

(** [l.reduce((sum, d) => sum + Math.pow(d - avg, 2), 0) / l.length] *)
Definition variance (l : list R) (avg : R) : R :=
  (fold_left (fun sum d => sum + (d - avg) ^ 2) l 0 / INR (length l))%R.

(** The span loops, as written three times in the sources, over any
    objects with a row and a column and any distance between them. *)
Section Span.
Context {A : Type} (distance : A -> A -> R).

Fixpoint spanLoop (positions : list A) (maxSpan : R) : R :=
  match positions with
  | [] => maxSpan
  | p :: rest =>
      spanLoop rest (fold_left (fun m q => Rmax m (distance p q)) rest maxSpan)
  end.
End Span.

Definition euclid (row1 col1 row2 col2 : Z) : R :=
  sqrt (IZR ((col2 - col1) * (col2 - col1) + (row2 - row1) * (row2 - row1))).

(** [calculateSpan] of this module, on objects with [row] and [col]. *)
Definition calculateSpan {A : Type} (rowOf colOf : A -> Z) (positions : list A) : R :=
  spanLoop (fun p q => euclid (rowOf p) (colOf p) (rowOf q) (colOf q)) positions 0%R.

(** Own properties of an object in enumeration order, for keys that are
    integers: array indices (here, the non-negative keys) ascending, then
    the other keys in insertion order. *)
Fixpoint objSet {V : Type} (k : Z) (v : V) (o : list (Z * V)) : list (Z * V) :=
  match o with
  | [] => [(k, v)]
  | (k', v') :: rest =>
      if k' =? k then (k, v) :: rest
      else if (0 <=? k) && ((k' <? 0) || (k <? k'))
              && negb (existsb (fun e => fst e =? k) rest)
           then (k, v) :: o
           else (k', v') :: objSet k v rest
  end.

Definition objGet {V : Type} (k : Z) (o : list (Z * V)) : option V :=
  snd <$> find (fun e => fst e =? k) o.

(** Own properties with string keys: insertion order. *)
Fixpoint pushAt (pair : string) (d : R) (o : list (string * list R))
  : list (string * list R) :=
  match o with
  | [] => [(pair, [d])]
  | (k, ds) :: rest =>
      if String.eqb k pair then (k, ds ++ [d]) :: rest
      else (k, ds) :: pushAt pair d rest
  end.

Record DistanceStats : Type := mkStats { avg : R; stdDev : R; samples : nat }.

Record RelativePosition : Type := mkRelative {
  rel_finger : Z;
  rowOffset : Z;
  colOffset : Z;
  rel_distance : R
}.

Record ChordShape : Type := mkShape {
  numFingers : nat;
  fingers : list Z;
  geometry : list RelativePosition;
  comfort : R
}.

Record Patterns : Type := mkPatterns {
  hand : option Hand;
  fingerDistances : list (string * DistanceStats);
  spanDistances : list R;
  fingerAssignments : gmap (Z * Z) (list (Z * Z));
  chordShapes : list ChordShape;
  avgComfort : R;
  avgSpan : R;
  spanStdDev : R
}.

(** [extractChordShape] *)
Definition extractChordShape (handprint : Handprint.t) : option ChordShape :=
  let positions := Handprint.positions handprint in
  if (length positions <? 3)%nat then None
  else
    let sorted :=
      js_sort (fun a b => 0 <? Handprint.finger a - Handprint.finger b) positions in
    match sorted with
    | [] => None
    | anchor :: _ =>
        Some {| numFingers := length positions;
                fingers := map Handprint.finger sorted;
                geometry :=
                  map (fun pos =>
                         {| rel_finger := Handprint.finger pos;
                            rowOffset := Handprint.row pos - Handprint.row anchor;
                            colOffset := Handprint.col pos - Handprint.col anchor;
                            rel_distance :=
                              sqrt (IZR ((Handprint.row pos - Handprint.row anchor) ^ 2
                                         + (Handprint.col pos - Handprint.col anchor) ^ 2)) |})
                      sorted;
                comfort := or_elseR (Handprint.comfortRating handprint) 50 |}
    end.

(** The accumulator of the loop over the handprints. *)
Record Acc : Type := mkAcc {
  totalComfort : R;
  acc_fingerDistances : list (string * list R);
  acc_spanDistances : list R;
  acc_fingerAssignments : gmap (Z * Z) (list (Z * Z));
  acc_chordShapes : list ChordShape
}.

Definition recordFinger (assignments : gmap (Z * Z) (list (Z * Z)))
    (pos : Handprint.Position) : gmap (Z * Z) (list (Z * Z)) :=
  let key := (Handprint.row pos, Handprint.col pos) in
  let counts := default [] (assignments !! key) in
  let finger := Handprint.finger pos in
  <[key := objSet finger (or_elseZ (objGet finger counts) 0 + 1) counts]> assignments.

Definition analyze (acc : Acc) (handprint : Handprint.t) : Acc :=
  {| totalComfort :=
       (totalComfort acc + or_elseR (Handprint.comfortRating handprint) 50)%R;
     acc_fingerDistances :=
       match Handprint.measurements handprint with
       | Some m => fold_left (fun o e => pushAt (fst e) (snd e) o) m
                             (acc_fingerDistances acc)
       | None => acc_fingerDistances acc
       end;
     acc_spanDistances :=
       acc_spanDistances acc
         ++ [calculateSpan Handprint.row Handprint.col (Handprint.positions handprint)];
     acc_fingerAssignments :=
       fold_left recordFinger (Handprint.positions handprint)
                 (acc_fingerAssignments acc);
     acc_chordShapes :=
       match extractChordShape handprint with
       | Some shape => acc_chordShapes acc ++ [shape]
       | None => acc_chordShapes acc
       end |}.

(** [extractPatterns]: [None] is the [null] returned when no handprint
    passes the filter. *)
Definition extractPatterns (handprints : list Handprint.t) (hand : option Hand)
  : option Patterns :=
  let filteredHandprints :=
    match hand with
    | Some h => filter (fun hp => Handprint.hand hp = h) handprints
    | None => handprints
    end in
  match filteredHandprints with
  | [] => None
  | _ =>
      let acc := fold_left analyze filteredHandprints
                           (mkAcc 0%R [] [] ∅ []) in
      let avgSpan := mean (acc_spanDistances acc) in
      Some {| hand := hand;
              fingerDistances :=
                map (fun e =>
                       (fst e,
                        {| avg := mean (snd e);
                           stdDev := sqrt (variance (snd e) (mean (snd e)));
                           samples := length (snd e) |}))
                    (acc_fingerDistances acc);
              spanDistances := acc_spanDistances acc;
              fingerAssignments := acc_fingerAssignments acc;
              chordShapes := acc_chordShapes acc;
              avgComfort :=
                (totalComfort acc / INR (length filteredHandprints))%R;
              avgSpan := avgSpan;
              spanStdDev := sqrt (variance (acc_spanDistances acc) avgSpan) |}
  end.

(** [suggestFingerForPosition]: [None] is [null]. *)
Definition suggestFingerForPosition (row col : Z) (patterns : Patterns) : option Z :=
  match fingerAssignments patterns !! (row, col) with
  | None => None
  | Some assignments =>
      fst (fold_left
             (fun (best : option Z * Z) (e : Z * Z) =>
                if snd best <? snd e then (Some (fst e), snd e) else best)
             assignments (None, 0))
  end.

(** [calculatePatternSimilarity], for patterns that are not [null]. *)
Definition calculatePatternSimilarity {A : Type} (rowOf colOf : A -> Z)
    (positions : list A) (patterns : Patterns) : R :=
  match chordShapes patterns with
  | [] => 50%R
  | shapes =>
      Rmin 100
        (fold_left
           (fun bestScore shape =>
              let score0 :=
                if (length positions =? numFingers shape)%nat then 20%R else 0%R in
              let candidateSpan := calculateSpan rowOf colOf positions in
              let spanDiff := Rabs (candidateSpan - avgSpan patterns) in
              let spanSimilarity := Rmax 0 (30 - spanDiff * 10) in
              Rmax bestScore (score0 + spanSimilarity + comfort shape / 2))
           shapes 0)%R
  end.

End PatternExtractor.

(** ** analysis/fingering-synthesizer.js *)

Module FingeringSynthesizer.

(** A pad found on the grid for a pitch class. *)
Record Pad : Type := mkPad {
  row : Z;
  col : Z;
  padIndex : Z;
  midiNote : Z;
  pc : Z
}.

(** A pad with its finger: [{ ...pad, finger, hand }]. *)
Record Position : Type := mkPosition {
  pad : Pad;
  finger : Z;
  hand : Hand
}.

Record Fingering : Type := mkFingering {
  f_hand : Hand;
  baseMidi : Z;
  positions : list Position;
  targetPitchClasses : list Z;
  score : option R
}.

(** The [Map] from pitch class to pads, in insertion order of the keys. *)
Definition PadMap : Type := list (Z * list Pad).

Fixpoint mapSet (k : Z) (v : list Pad) (m : PadMap) : PadMap :=
  match m with
  | [] => [(k, v)]
  | (k', v') :: rest =>
      if k' =? k then (k, v) :: rest else (k', v') :: mapSet k v rest
  end.

Definition mapHas (k : Z) (m : PadMap) : bool :=
  existsb (fun e => fst e =? k) m.

(** [m.get(k).push(p)] *)
Fixpoint mapPush (k : Z) (p : Pad) (m : PadMap) : PadMap :=
  match m with
  | [] => []
  | (k', v') :: rest =>
      if k' =? k then (k', v' ++ [p]) :: rest else (k', v') :: mapPush k p rest
  end.

(** The body of the two [for] loops over the grid. *)
Definition visit (mode : Grid.GridMode) (baseMidi : Z) (padsByPC : PadMap)
    (cell : Z * Z) : PadMap :=
  let '(row, col) := cell in
  match Grid.getPadIndex mode row col with
  | Some padIndex =>
      let midiNote := baseMidi + padIndex in
      let pc := Music.midiToPitchClass midiNote in
      if mapHas pc padsByPC
      then mapPush pc (mkPad row col padIndex midiNote pc) padsByPC
      else padsByPC
  | None => padsByPC
  end.

(** The cells visited: rows [0 .. maxRow], columns
    [0 .. (row % 2 === 0 ? 6 : 5) - 1], in this order. *)
Definition searchedCells (maxRow : Z) : list (Z * Z) :=
  flat_map
    (fun row => map (fun col => (row, col))
                    (seqZ 0 (if Z.rem row 2 =? 0 then 6 else 5)))
    (seqZ 0 (maxRow + 1)).

(** [generateCombos(index, current)], on the keys from [index] on. *)
Fixpoint generateCombos (entries : PadMap) (current : list Pad) : list (list Pad) :=
  match entries with
  | [] => [current]
  | (_, pads) :: rest =>
      flat_map (fun pad => generateCombos rest (current ++ [pad])) (take 3 pads)
  end.

(** [findPadCombinations(targetPitchClasses, baseMidi, maxRow = 5)]; the
    layout mode is the state of the grid module. *)
Definition findPadCombinations (mode : Grid.GridMode)
    (targetPitchClasses : list Z) (baseMidi : Z) : list (list Pad) :=
  let maxRow := 5 in
  let empty := fold_left (fun m pc => mapSet pc [] m) targetPitchClasses [] in
  let padsByPC := fold_left (visit mode baseMidi) (searchedCells maxRow) empty in
  generateCombos padsByPC [].

(** The comparator of [assignFingers]. *)
Definition padAfter (hand : Hand) (a b : Pad) : bool :=
  if negb (row a =? row b) then 0 <? row a - row b
  else match hand with
       | RightHand => 0 <? col a - col b
       | LeftHand => 0 <? col b - col a
       end.

(** [sortedPads.map((pad, index) => ...)], with the running [index]. *)
Fixpoint assignFrom (hand : Hand) (patterns : option PatternExtractor.Patterns)
    (index : Z) (sortedPads : list Pad) : list Position :=
  match sortedPads with
  | [] => []
  | p :: rest =>
      let suggested :=
        match patterns with
        | Some pt => PatternExtractor.suggestFingerForPosition (row p) (col p) pt
        | None => None
        end in
      mkPosition p (or_elseZ suggested (Z.min (index + 1) 5)) hand
      :: assignFrom hand patterns (index + 1) rest
  end.

Definition assignFingers (pads : list Pad) (hand : Hand)
    (patterns : option PatternExtractor.Patterns) : list Position :=
  match pads with
  | [] => []
  | _ => assignFrom hand patterns 0 (js_sort (padAfter hand) pads)
  end.

(** [calculateSpan] of this module, with [getGridDistance]. *)
Definition calculateSpan (positions : list Position) : R :=
  PatternExtractor.spanLoop
    (fun p q => Grid.getGridDistance (row (pad p)) (col (pad p))
                                     (row (pad q)) (col (pad q)))
    positions 0%R.

(** [scoreFingering(fingering, patterns)] of this module.  [None] is the
    [NaN] obtained from [avgRow = 0 / 0] when there is no position, which
    [Math.max] and [Math.min] hand on. *)
Definition scoreFingering (positions : list Position)
    (patterns : option PatternExtractor.Patterns) : option R :=
  let score0 :=
    match patterns with
    | Some pt =>
        ((50 + PatternExtractor.calculatePatternSimilarity
                 (fun p => row (pad p)) (fun p => col (pad p)) positions pt) / 2)%R
    | None => 50%R
    end in
  let span := calculateSpan positions in
  let score1 :=
    (if Rlt_dec span (15 / 10) then score0 + 10
     else if Rle_dec span 3 then score0 + 5
     else if Rlt_dec 4 span then score0 - 20
     else score0)%R in
  match positions with
  | [] => None
  | _ =>
      let rowSum := fold_left (fun sum p => sum + row (pad p)) positions 0 in
      let avgRow := (IZR rowSum / INR (length positions))%R in
      let score2 := (score1 + Rmax 0 (10 - avgRow * 2))%R in
      Some (Rmin 100 (Rmax 0 score2))
  end.

(** The comparator [(a, b) => b.score - a.score]: positive when both
    scores are numbers and [a] scores less. *)
Definition scoredAfter (a b : Fingering) : bool :=
  match score a, score b with
  | Some sa, Some sb => if Rlt_dec sa sb then true else false
  | _, _ => false
  end.

(** [arr.slice(0, n)] *)
Definition slice0 {A : Type} (arr : list A) (n : Z) : list A :=
  if n <? 0 then take (Z.to_nat (Z.of_nat (length arr) + n)) arr
  else take (Z.to_nat n) arr.

(** [synthesizeFingerings(targetPitchClasses, handprints, baseMidi, hand,
    maxSuggestions)]. *)
Definition synthesizeFingerings (mode : Grid.GridMode)
    (targetPitchClasses : list Z) (handprints : list Handprint.t)
    (baseMidi : Z) (hand : Hand) (maxSuggestions : Z) : list Fingering :=
  let patterns := PatternExtractor.extractPatterns handprints (Some hand) in
  let combinations := findPadCombinations mode targetPitchClasses baseMidi in
  match combinations with
  | [] => []
  | _ =>
      let fingerings :=
        map (fun combo =>
               let positions := assignFingers combo hand patterns in
               {| f_hand := hand;
                  baseMidi := baseMidi;
                  positions := positions;
                  targetPitchClasses := targetPitchClasses;
                  score := scoreFingering positions patterns |})
            combinations in
      slice0 (js_sort scoredAfter fingerings) maxSuggestions
  end.

End FingeringSynthesizer.

(** ** Notions used in the statements, and sample data *)

(** The pitch-class set of a fingering, from the MIDI notes stored in its
    positions. *)
Definition pitchClassSet
    (fingering : ChordMatcher.Fingering (list ChordMatcher.Position)) : gset Z :=
  list_to_set (map (fun p => Music.midiToPitchClass (ChordMatcher.midiNote p))
                   (ChordMatcher.positions fingering)).

(** The pitch-class set of a subset of the positions of a handprint, from
    the stored note or the note derived from the pad index. *)
Definition subsetPitchClasses (baseMidi : Z) (subset : list Handprint.Position)
  : gset Z :=
  list_to_set (map (fun pos => Music.midiToPitchClass (ChordMatcher.noteOf baseMidi pos))
                   subset).

(** A right-hand handprint on the pads 0, 4 and 7 of the intervals layout
    (C, E and G above [baseMidi = 48]), rated 80. *)
Definition triadHandprint : Handprint.t :=
  {| Handprint.id := "right_1";
     Handprint.hand := RightHand;
     Handprint.comfortRating := Some 80%R;
     Handprint.baseMidi := Some 48;
     Handprint.midiDevice := "Exquis";
     Handprint.capturedAt := 0;
     Handprint.positions :=
       [ Handprint.mkPosition 0 0 0 (Some 48) 1;
         Handprint.mkPosition 0 4 4 (Some 52) 2;
         Handprint.mkPosition 2 0 7 (Some 55) 3 ];
     Handprint.measurements := None |}.

(** Two pads at a distance of 5: column 0 of row 0 and column 4 of row 3
    (4 columns and 3 rows apart). *)
Definition wideFingering : list ChordMatcher.Position :=
  [ ChordMatcher.mkPosition 0 0 0 48 1 0;
    ChordMatcher.mkPosition 3 4 15 63 5 3 ].

(** A fingering on these two pads, rated 80, not scored yet. *)
Definition sampleFingering : ChordMatcher.Fingering (list ChordMatcher.Position) :=
  {| ChordMatcher.handprintId := "right_1";
     ChordMatcher.hand := RightHand;
     ChordMatcher.comfortRating := Some 80%R;
     ChordMatcher.baseMidi := 48;
     ChordMatcher.midiDevice := "Exquis";
     ChordMatcher.capturedAt := 0;
     ChordMatcher.positions := wideFingering;
     ChordMatcher.score := 0;
     ChordMatcher.comfortScore := None;
     ChordMatcher.geometricScore := 0;
     ChordMatcher.ergonomicScore := 0 |}.

(** [h'] has every cell of [h], with the same content. *)
Definition preserves (h h' : FingeringScorer.store) : Prop :=
  forall l c, h !! l = Some c -> h' !! l = Some c.

(** A store with one array (cell 0) of one fingering object (cell 1) whose
    positions are the array of cell 2. *)
Definition sampleStore : FingeringScorer.store :=
  <[ 0%nat := FingeringScorer.FingeringArray [1%nat] ]>
    (<[ 1%nat := FingeringScorer.FingeringObject
                   {| ChordMatcher.handprintId := "right_1";
                      ChordMatcher.hand := RightHand;
                      ChordMatcher.comfortRating := Some 80%R;
                      ChordMatcher.baseMidi := 48;
                      ChordMatcher.midiDevice := "Exquis";
                      ChordMatcher.capturedAt := 0;
                      ChordMatcher.positions := 2%nat;
                      ChordMatcher.score := 0;
                      ChordMatcher.comfortScore := None;
                      ChordMatcher.geometricScore := 0;
                      ChordMatcher.ergonomicScore := 0 |} ]>
       (<[ 2%nat := FingeringScorer.PositionArray wideFingering ]> ∅)).

(** The pads with pitch class [k] among the cells searched, in the order of
    the search. *)
Definition collect (mode : Grid.GridMode) (baseMidi : Z) (k : Z)
    (cells : list (Z * Z)) : list FingeringSynthesizer.Pad :=
  flat_map
    (fun cell =>
       match Grid.getPadIndex mode (fst cell) (snd cell) with
       | Some padIndex =>
           if Music.midiToPitchClass (baseMidi + padIndex) =? k
           then [FingeringSynthesizer.mkPad (fst cell) (snd cell) padIndex
                   (baseMidi + padIndex)
                   (Music.midiToPitchClass (baseMidi + padIndex))]
           else []
       | None => []
       end)
    cells.

(** The candidate that [synthesizeFingerings] builds from a combination
    when there are no patterns. *)
Definition patternFree (targetPitchClasses : list Z) (baseMidi : Z) (hand : Hand)
    (combo : list FingeringSynthesizer.Pad) : FingeringSynthesizer.Fingering :=
  let positions := FingeringSynthesizer.assignFingers combo hand None in
  {| FingeringSynthesizer.f_hand := hand;
     FingeringSynthesizer.baseMidi := baseMidi;
     FingeringSynthesizer.positions := positions;
     FingeringSynthesizer.targetPitchClasses := targetPitchClasses;
     FingeringSynthesizer.score := FingeringSynthesizer.scoreFingering positions None |}.

(** The cells that [mapScore] can traverse: a fingering object whose
    [positions] field refers to an array of positions. *)
Definition scorable (h : FingeringScorer.store) (l : FingeringScorer.loc) : Prop :=
  exists f ps, h !! l = Some (FingeringScorer.FingeringObject f)
               /\ h !! ChordMatcher.positions f = Some (FingeringScorer.PositionArray ps).

(** The keys of the map from pitch class to pads. *)
Definition keys (m : FingeringSynthesizer.PadMap) : list Z := map fst m.

(** [copy] is the scored copy of the fingering object behind [l]. *)
Definition scoredCopyOf (h : FingeringScorer.store) (l : FingeringScorer.loc)
    (copy : ChordMatcher.Fingering FingeringScorer.loc) : Prop :=
  exists o ps,
    h !! l = Some (FingeringScorer.FingeringObject o)
    /\ h !! ChordMatcher.positions o = Some (FingeringScorer.PositionArray ps)
    /\ copy = FingeringScorer.withScores o ps.

(** A pad as the search of [findPadCombinations] records it: a position of
    the rows 0 to 5, with its index in the mode, its note above [baseMidi]
    and the pitch class of this note. *)
Definition searchedPad (mode : Grid.GridMode) (baseMidi : Z)
    (p : FingeringSynthesizer.Pad) : Prop :=
  0 <= FingeringSynthesizer.row p <= 5
  /\ Grid.validPosition (FingeringSynthesizer.row p) (FingeringSynthesizer.col p)
  /\ Grid.getPadIndex mode (FingeringSynthesizer.row p) (FingeringSynthesizer.col p)
     = Some (FingeringSynthesizer.padIndex p)
  /\ FingeringSynthesizer.midiNote p = baseMidi + FingeringSynthesizer.padIndex p
  /\ FingeringSynthesizer.pc p
     = Music.midiToPitchClass (FingeringSynthesizer.midiNote p).

(** [a] is ranked no lower than [b]: both scores are numbers and that of
    [b] does not exceed that of [a]. *)
Definition scoreAtLeast (a b : FingeringSynthesizer.Fingering) : Prop :=
  match FingeringSynthesizer.score a, FingeringSynthesizer.score b with
  | Some sa, Some sb => (sb <= sa)%R
  | _, _ => False
  end.

(** The order [assignFingers] sorts the pads into: bottom row first and,
    within a row, left to right for the right hand and right to left for
    the left hand. *)
Definition padBefore (hand : Hand) (a b : FingeringSynthesizer.Pad) : Prop :=
  FingeringSynthesizer.row a < FingeringSynthesizer.row b
  \/ (FingeringSynthesizer.row a = FingeringSynthesizer.row b
      /\ match hand with
         | RightHand => FingeringSynthesizer.col a <= FingeringSynthesizer.col b
         | LeftHand => FingeringSynthesizer.col b <= FingeringSynthesizer.col a
         end).

(** The handprints [extractPatterns] analyses: those of the hand asked
    for, or all of them when no hand is given. *)
Definition filteredHandprints (handprints : list Handprint.t) (hand : option Hand)
  : list Handprint.t :=
  match hand with
  | Some h => filter (fun hp => Handprint.hand hp = h) handprints
  | None => handprints
  end.

(** Some handprint of the list has [finger] on the pad at [row], [col]. *)
Definition played (handprints : list Handprint.t) (row col finger : Z) : Prop :=
  exists hp pos,
    In hp handprints /\ In pos (Handprint.positions hp)
    /\ Handprint.row pos = row /\ Handprint.col pos = col
    /\ Handprint.finger pos = finger.

(** The state of [fingerAssignments] after the positions [done] have been
    recorded: a pad has an entry exactly when some position lies on it, and
    every count of an entry is positive and stands for a finger that some
    position has put on the pad. *)
Definition recorded (done : list Handprint.Position)
    (assignments : gmap (Z * Z) (list (Z * Z))) : Prop :=
  forall key,
    match assignments !! key with
    | None =>
        forall pos, In pos done -> (Handprint.row pos, Handprint.col pos) <> key
    | Some counts =>
        counts <> []
        /\ List.Forall
             (fun e => 1 <= snd e
                       /\ exists pos,
                           In pos done
                           /\ (Handprint.row pos, Handprint.col pos) = key
                           /\ Handprint.finger pos = fst e)
             counts
    end.


(** * Properties *)

Section GridScan.
Import Grid.

Variable starts : list Z.
Variable padIndex : Z.

Lemma scanRows_returns (n : nat) (row0 : Z) (p : GridPosition) :
  scanRows starts padIndex row0 n = Returns p ->
  row0 <= row p < row0 + Z.of_nat n
  /\ js_index starts (row p) = Some (padIndex - col p)
  /\ 0 <= col p < getRowLength (row p)
  /\ (forall r, row0 <= r < row p -> ~ inRow starts padIndex r).
Proof.
  revert row0. induction n as [|n IH]; intros row0; simpl; [discriminate|].
  destruct (js_index starts row0) as [start|] eqn:Hs.
  - destruct ((start <=? padIndex)
              && ((0 <=? padIndex - start)
                  && (padIndex - start <? getRowLength row0))) eqn:Hc.
    + intros [= <-]; simpl.
      apply andb_prop in Hc as [_ Hc]. apply andb_prop in Hc as [H0 H1].
      repeat split; try lia.
      rewrite Hs. f_equal. lia.
    + intros H. destruct (IH _ H) as (Hr & Hi & Hcol & Hmin).
      repeat split; try lia; try assumption.
      intros r Hr' (s & Hs' & Hin).
      destruct (Z.eq_dec r row0) as [->|Hne].
      * rewrite Hs in Hs'. injection Hs' as <-.
        apply andb_false_iff in Hc as [Hc|Hc];
          [|apply andb_false_iff in Hc as [Hc|Hc]]; lia.
      * apply (Hmin r); [lia|]. exists s. auto.
  - intros H. destruct (IH _ H) as (Hr & Hi & Hcol & Hmin).
    repeat split; try lia; try assumption.
    intros r Hr' (s & Hs' & Hin).
    destruct (Z.eq_dec r row0) as [->|Hne].
    + congruence.
    + apply (Hmin r); [lia|]. exists s. auto.
Qed.

Lemma scanRows_throws (n : nat) (row0 : Z) (e : Error) :
  scanRows starts padIndex row0 n = Throws e ->
  e = InvalidPadIndex padIndex
  /\ (forall r, row0 <= r < row0 + Z.of_nat n -> ~ inRow starts padIndex r).
Proof.
  revert row0. induction n as [|n IH]; intros row0; simpl.
  - intros [= <-]. split; [reflexivity|]. intros r Hr. lia.
  - destruct (js_index starts row0) as [start|] eqn:Hs.
    + destruct ((start <=? padIndex)
                && ((0 <=? padIndex - start)
                    && (padIndex - start <? getRowLength row0))) eqn:Hc;
        [discriminate|].
      intros H. destruct (IH _ H) as [He Hno]. split; [assumption|].
      intros r Hr (s & Hs' & Hin).
      destruct (Z.eq_dec r row0) as [->|Hne].
      * rewrite Hs in Hs'. injection Hs' as <-.
        apply andb_false_iff in Hc as [Hc|Hc];
          [|apply andb_false_iff in Hc as [Hc|Hc]]; lia.
      * apply (Hno r); [lia|]. exists s. auto.
    + intros H. destruct (IH _ H) as [He Hno]. split; [assumption|].
      intros r Hr (s & Hs' & Hin).
      destruct (Z.eq_dec r row0) as [->|Hne]; [congruence|].
      apply (Hno r); [lia|]. exists s. auto.
Qed.

End GridScan.

(** ** The hex grid in intervals and chromatic mode *)

Section GridFacts.
Import Grid.

Lemma ROW_START_INTERVALS_eq :
  ROW_START_INTERVALS = [0; 4; 7; 11; 14; 18; 21; 25; 28; 32; 35].
Proof. reflexivity. Qed.

Lemma ROW_START_CHROMATIC_eq :
  ROW_START_CHROMATIC = [0; 6; 11; 17; 22; 28; 33; 39; 44; 50; 55].
Proof. reflexivity. Qed.

Lemma row_cases (r : Z) :
  0 <= r < ROW_COUNT ->
  r = 0 \/ r = 1 \/ r = 2 \/ r = 3 \/ r = 4 \/ r = 5
  \/ r = 6 \/ r = 7 \/ r = 8 \/ r = 9 \/ r = 10.
Proof. unfold ROW_COUNT. lia. Qed.

Ltac each_row H :=
  apply row_cases in H;
  repeat (destruct H as [H|H]; [subst|]); [..|subst].

Lemma getRowLength_cases (r : Z) : getRowLength r = 6 \/ getRowLength r = 5.
Proof. unfold getRowLength. destruct (Z.rem r 2 =? 0); auto. Qed.

(** Every row of the grid has an entry in the table of the mode. *)
Lemma row_start_defined (mode : GridMode) (r : Z) :
  0 <= r < ROW_COUNT -> exists start, js_index (_getRowStart mode) r = Some start.
Proof.
  intros H. each_row H; destruct mode; vm_compute; eauto.
Qed.

Lemma getPadIndex_inRow (mode : GridMode) (r c idx : Z) :
  validPosition r c ->
  getPadIndex mode r c = Some idx ->
  inRow (_getRowStart mode) idx r.
Proof.
  intros [Hr Hc]. unfold getPadIndex.
  destruct (js_index (_getRowStart mode) r) as [start|] eqn:Hs; [|discriminate].
  simpl. intros [= <-]. exists start. split; [exact Hs|lia].
Qed.

Lemma inRow_getPadIndex (mode : GridMode) (r idx : Z) :
  0 <= r < ROW_COUNT ->
  inRow (_getRowStart mode) idx r ->
  exists c, validPosition r c /\ getPadIndex mode r c = Some idx.
Proof.
  intros Hr (start & Hs & Hin). exists (idx - start). split.
  - split; [assumption|lia].
  - unfold getPadIndex. rewrite Hs. simpl. f_equal. lia.
Qed.

(** [getRowCol] answers exactly on the indices that some row contains,
    with the lowest such row. *)
Lemma getRowCol_returns (mode : GridMode) (idx : Z) (p : GridPosition) :
  getRowCol mode idx = Returns p ->
  validPosition (row p) (col p)
  /\ getPadIndex mode (row p) (col p) = Some idx
  /\ (forall r, 0 <= r < row p -> ~ inRow (_getRowStart mode) idx r).
Proof.
  intros H. apply scanRows_returns in H as (Hr & Hi & Hc & Hmin).
  split; [|split].
  - split; [|assumption]. unfold ROW_COUNT in *. simpl in Hr. lia.
  - unfold getPadIndex. rewrite Hi. simpl. f_equal. lia.
  - assumption.
Qed.

Lemma getRowCol_throws (mode : GridMode) (idx : Z) (e : Error) :
  getRowCol mode idx = Throws e ->
  e = InvalidPadIndex idx
  /\ (forall r, 0 <= r < ROW_COUNT -> ~ inRow (_getRowStart mode) idx r).
Proof.
  intros H. apply scanRows_throws in H as [He Hno]. split; [assumption|].
  intros r Hr. apply Hno. unfold ROW_COUNT in *. simpl. lia.
Qed.

(** In intervals mode the rows cover the indices 0 to 40 and no other. *)
Lemma intervals_cover (idx : Z) :
  (exists r, 0 <= r < ROW_COUNT /\ inRow ROW_START_INTERVALS idx r)
  <-> 0 <= idx <= 40.
Proof.
  split.
  - intros (r & Hr & start & Hs & Hin).
    each_row Hr; vm_compute in Hs; injection Hs as <-;
      unfold getRowLength in Hin; simpl in Hin; lia.
  - intros H.
    assert (Hrow : exists r, 0 <= r < ROW_COUNT
              /\ default 0 (js_index ROW_START_INTERVALS r) <= idx
                 < default 0 (js_index ROW_START_INTERVALS r) + getRowLength r).
    { unfold ROW_COUNT.
      destruct (Z_le_gt_dec idx 5); [exists 0; split; [lia|]; change (0 <= idx < 0 + 6); lia|].
      destruct (Z_le_gt_dec idx 8); [exists 1; split; [lia|]; change (4 <= idx < 4 + 5); lia|].
      destruct (Z_le_gt_dec idx 12); [exists 2; split; [lia|]; change (7 <= idx < 7 + 6); lia|].
      destruct (Z_le_gt_dec idx 15); [exists 3; split; [lia|]; change (11 <= idx < 11 + 5); lia|].
      destruct (Z_le_gt_dec idx 19); [exists 4; split; [lia|]; change (14 <= idx < 14 + 6); lia|].
      destruct (Z_le_gt_dec idx 22); [exists 5; split; [lia|]; change (18 <= idx < 18 + 5); lia|].
      destruct (Z_le_gt_dec idx 26); [exists 6; split; [lia|]; change (21 <= idx < 21 + 6); lia|].
      destruct (Z_le_gt_dec idx 29); [exists 7; split; [lia|]; change (25 <= idx < 25 + 5); lia|].
      destruct (Z_le_gt_dec idx 33); [exists 8; split; [lia|]; change (28 <= idx < 28 + 6); lia|].
      destruct (Z_le_gt_dec idx 36); [exists 9; split; [lia|]; change (32 <= idx < 32 + 5); lia|].
      exists 10; split; [lia|]; change (35 <= idx < 35 + 6); lia. }
    destruct Hrow as (r & Hr & Hin). exists r. split; [assumption|].
    destruct (row_start_defined Intervals r Hr) as [start Hs]. simpl in Hs.
    exists start. rewrite Hs in Hin. simpl in Hin. auto.
Qed.

End GridFacts.

(** C6.  In intervals mode, for every valid position [(row, col)], the index
    [idx = getPadIndex(row, col)] is taken by [getRowCol] to a valid
    position [(row', col')] with [getPadIndex(row', col') = idx], and [row']
    is the lowest row that has a column with this index. *)
Theorem getRowCol_getPadIndex_intervals (row col : Z) :
  Grid.validPosition row col ->
  exists idx p,
    Grid.getPadIndex Grid.Intervals row col = Some idx
    /\ Grid.getRowCol Grid.Intervals idx = Returns p
    /\ Grid.validPosition (Grid.row p) (Grid.col p)
    /\ Grid.getPadIndex Grid.Intervals (Grid.row p) (Grid.col p) = Some idx
    /\ (forall r c,
           Grid.validPosition r c ->
           Grid.getPadIndex Grid.Intervals r c = Some idx ->
           Grid.row p <= r).
Proof.
  intros Hv.
  destruct (row_start_defined Grid.Intervals row (proj1 Hv)) as [start Hs].
  assert (Hidx : Grid.getPadIndex Grid.Intervals row col = Some (start + col)).
  { unfold Grid.getPadIndex. rewrite Hs. reflexivity. }
  exists (start + col).
  destruct (Grid.getRowCol Grid.Intervals (start + col)) as [p|e] eqn:Hrc.
  - exists p. apply getRowCol_returns in Hrc as (Hvp & Hback & Hmin).
    repeat split; try assumption; try apply Hvp.
    intros r c Hvr Hr.
    destruct (Z_le_gt_dec (Grid.row p) r) as [Hle|Hgt]; [assumption|].
    exfalso. apply (Hmin r); [destruct Hvr; lia|].
    eapply getPadIndex_inRow; eassumption.
  - exfalso. apply getRowCol_throws in Hrc as [_ Hno].
    apply (Hno row (proj1 Hv)).
    eapply getPadIndex_inRow; eassumption.
Qed.

Lemma getRowCol_getPadIndex_intervals_witness :
  Grid.validPosition 1 0
  /\ exists idx p,
      Grid.getPadIndex Grid.Intervals 1 0 = Some idx
      /\ Grid.getRowCol Grid.Intervals idx = Returns p
      /\ Grid.validPosition (Grid.row p) (Grid.col p)
      /\ Grid.getPadIndex Grid.Intervals (Grid.row p) (Grid.col p) = Some idx
      /\ (forall r c,
             Grid.validPosition r c ->
             Grid.getPadIndex Grid.Intervals r c = Some idx ->
             Grid.row p <= r).
Proof.
  assert (Hv : Grid.validPosition 1 0).
  { unfold Grid.validPosition, Grid.ROW_COUNT, Grid.getRowLength. simpl. lia. }
  split; [exact Hv|].
  exact (getRowCol_getPadIndex_intervals 1 0 Hv).
Defined.

(** The round trip of C6 need not give the position back: index 4 is both
    column 0 of row 1 and column 4 of row 0, and the scan stops at row 0. *)
Example getRowCol_overlap :
  Grid.getPadIndex Grid.Intervals 1 0 = Some 4
  /\ Grid.getRowCol Grid.Intervals 4 = Returns (Grid.mkPos 0 4).
Proof. split; reflexivity. Qed.

(** C7.  In chromatic mode with [baseMidi = 48], [getMidiNote(0, 0)] is 48
    and [getMidiNote(1, 0)] is 54: row 1 starts at pad index 6. *)
Theorem getMidiNote_chromatic_base48 :
  Grid.getMidiNote Grid.Chromatic 0 0 48 = Some 48
  /\ Grid.getMidiNote Grid.Chromatic 1 0 48 = Some 54
  /\ Grid.getPadIndex Grid.Chromatic 1 0 = Some 6.
Proof. repeat split; reflexivity. Qed.

(** C9.  In intervals mode, [getRowCol] returns a valid position exactly on
    the integers from 0 to 40 and throws [Invalid pad index] exactly on the
    others; the indices of the valid positions are exactly the integers from
    0 to 40, so the error is out of reach of [getPadIndex] on a valid
    position. *)
Theorem getRowCol_intervals_domain (idx : Z) :
  (0 <= idx <= 40 <->
   exists p, Grid.getRowCol Grid.Intervals idx = Returns p
             /\ Grid.validPosition (Grid.row p) (Grid.col p))
  /\ (~ 0 <= idx <= 40 <->
      Grid.getRowCol Grid.Intervals idx = Throws (InvalidPadIndex idx))
  /\ (0 <= idx <= 40 <->
      exists row col, Grid.validPosition row col
                      /\ Grid.getPadIndex Grid.Intervals row col = Some idx).
Proof.
  assert (Hret : forall p, Grid.getRowCol Grid.Intervals idx = Returns p ->
                           0 <= idx <= 40).
  { intros p Hp. apply getRowCol_returns in Hp as (Hv & Hback & _).
    apply intervals_cover. exists (Grid.row p). split; [apply Hv|].
    eapply (getPadIndex_inRow Grid.Intervals); eassumption. }
  assert (Hthr : forall e, Grid.getRowCol Grid.Intervals idx = Throws e ->
                           e = InvalidPadIndex idx /\ ~ 0 <= idx <= 40).
  { intros e He. apply getRowCol_throws in He as [-> Hno].
    split; [reflexivity|]. intros Hin. apply intervals_cover in Hin as (r & Hr & Hin).
    exact (Hno r Hr Hin). }
  split; [|split].
  - split.
    + intros Hin. destruct (Grid.getRowCol Grid.Intervals idx) as [p|e] eqn:Hrc.
      * exists p. split; [reflexivity|].
        apply getRowCol_returns in Hrc. apply Hrc.
      * exfalso. exact (proj2 (Hthr e eq_refl) Hin).
    + intros (p & Hp & _). exact (Hret p Hp).
  - split.
    + intros Hout. destruct (Grid.getRowCol Grid.Intervals idx) as [p|e] eqn:Hrc.
      * exfalso. exact (Hout (Hret p eq_refl)).
      * f_equal. exact (proj1 (Hthr e eq_refl)).
    + intros He. exact (proj2 (Hthr _ He)).
  - split.
    + intros Hin. apply intervals_cover in Hin as (r & Hr & Hin).
      destruct (inRow_getPadIndex Grid.Intervals r idx Hr Hin) as (c & Hv & Hc).
      exists r, c. auto.
    + intros (r & c & Hv & Hc). apply intervals_cover.
      exists r. split; [apply Hv|].
      eapply (getPadIndex_inRow Grid.Intervals); eassumption.
Qed.

Lemma getRowCol_intervals_domain_witness :
  (exists p, Grid.getRowCol Grid.Intervals 40 = Returns p
             /\ Grid.validPosition (Grid.row p) (Grid.col p))
  /\ Grid.getRowCol Grid.Intervals 41 = Throws (InvalidPadIndex 41)
  /\ Grid.getRowCol Grid.Intervals (-1) = Throws (InvalidPadIndex (-1)).
Proof.
  split; [|split].
  - apply (proj1 (getRowCol_intervals_domain 40)). lia.
  - apply (proj1 (proj2 (getRowCol_intervals_domain 41))). lia.
  - apply (proj1 (proj2 (getRowCol_intervals_domain (-1)))). lia.
Defined.

(** ** Pitch classes *)

Section MusicFacts.
Import Music.

(** [((n % 12) + 12) % 12] is the residue of [n] modulo 12, also for a
    negative [n]. *)
Lemma midiToPitchClass_mod (midiNote : Z) :
  midiToPitchClass midiNote = midiNote mod 12.
Proof.
  unfold midiToPitchClass.
  pose proof (Z.rem_bound_abs midiNote 12 ltac:(lia)) as Habs.
  pose proof (Z.quot_rem' midiNote 12) as Hqr.
  rewrite Z.rem_mod_nonneg by lia.
  replace (Z.rem midiNote 12 + 12) with (midiNote + (1 - midiNote ÷ 12) * 12) by lia.
  apply Z_mod_plus_full.
Qed.

Lemma midiToPitchClass_range (midiNote : Z) :
  0 <= midiToPitchClass midiNote < 12.
Proof. rewrite midiToPitchClass_mod. apply Z.mod_pos_bound. lia. Qed.

(** The normalisation of [parseCustomPitchClasses] on an integer. *)
Lemma normalise_integer (z : Z) :
  js_rem (js_add (js_rem (Num z) (Num 12)) (Num 12)) (Num 12)
  = Num (midiToPitchClass z).
Proof. reflexivity. Qed.

End MusicFacts.

(** C8, at the inputs where the code leaves the claim.  An empty piece
    between two commas is not numeric, yet [Number] turns it into 0 and the
    set receives the pitch class 0; the piece [Infinity] passes the [NaN]
    test and ends as [NaN] in the set, a value outside [0, 12).  Pieces that
    are not numbers at all are dropped, as the claim says. *)
Theorem parseCustomPitchClasses_stray_values :
  Music.parseCustomPitchClasses "3,,7"
  = {[ Music.Num 3; Music.Num 0; Music.Num 7 ]}
  /\ Music.parseCustomPitchClasses "3,7,"
     = {[ Music.Num 3; Music.Num 7; Music.Num 0 ]}
  /\ Music.parseCustomPitchClasses "Infinity" = {[ Music.NaN ]}
  /\ Music.parseCustomPitchClasses "3,x,-1" = {[ Music.Num 3; Music.Num 11 ]}.
Proof. repeat split; vm_compute; reflexivity. Qed.

(** ** The chord matcher *)

Section MatcherFacts.
Import ChordMatcher.

(** Same size and inclusion is equality. *)
Lemma exactMatch_iff (pitchSet targetSet : gset Z) :
  exactMatch pitchSet targetSet = true <-> pitchSet = targetSet.
Proof.
  unfold exactMatch. rewrite andb_true_iff, bool_decide_eq_true, forallb_forall.
  split.
  - intros [Hsize Hall].
    apply set_subseteq_size_eq; [|lia].
    intros pc Hpc. apply elem_of_elements, list_elem_of_In in Hpc.
    apply Hall in Hpc. apply bool_decide_eq_true in Hpc. exact Hpc.
  - intros ->. split; [reflexivity|].
    intros pc Hpc. apply bool_decide_eq_true.
    apply list_elem_of_In, elem_of_elements in Hpc. exact Hpc.
Qed.

Lemma matchSubset_pitchClasses targetSet baseMidi handprint subset fingering :
  In fingering (matchSubset targetSet baseMidi handprint subset) ->
  subsetPitchClasses baseMidi subset = targetSet
  /\ pitchClassSet fingering = targetSet
  /\ list_to_set (map pitchClass (positions fingering)) = targetSet
  /\ comfortRating fingering
     = Some (or_elseR (Handprint.comfortRating handprint) 50).
Proof.
  unfold matchSubset.
  destruct (exactMatch _ targetSet) eqn:Hm; [|intros []].
  apply exactMatch_iff in Hm.
  intros [<-|[]]. unfold pitchClassSet, subsetPitchClasses. simpl.
  rewrite !map_map. simpl. auto.
Qed.

Lemma matchSubset_rejects targetSet baseMidi handprint subset :
  subsetPitchClasses baseMidi subset <> targetSet ->
  matchSubset targetSet baseMidi handprint subset = [].
Proof.
  intros Hne. unfold matchSubset.
  destruct (exactMatch _ targetSet) eqn:Hm; [|reflexivity].
  apply exactMatch_iff in Hm. contradiction.
Qed.

Lemma findChordFingerings_In targetPitchClasses handprints baseMidi hand fingering :
  In fingering (findChordFingerings targetPitchClasses handprints baseMidi hand) ->
  exists handprint subset,
    In handprint (filterByHand hand handprints)
    /\ In subset (generateSubsets 3 5 (Handprint.positions handprint))
    /\ In fingering
          (matchSubset (list_to_set targetPitchClasses) baseMidi handprint subset).
Proof.
  unfold findChordFingerings. intros H.
  apply in_flat_map in H as (handprint & Hhp & H).
  apply in_flat_map in H as (subset & Hsub & H).
  eauto.
Qed.

End MatcherFacts.

(** C1.  Every fingering returned by [findChordFingerings] for the target
    [T] has a pitch-class set, computed from the MIDI notes of its positions,
    equal to the set of [T]: same size, same members; the stored pitch
    classes agree.  A subset of a handprint whose pitch classes are not
    exactly the target, a proper subset or superset included, yields no
    fingering. *)
Theorem findChordFingerings_exact_match
    (targetPitchClasses : list Z) (handprints : list Handprint.t)
    (baseMidi : Z) (hand : option Hand) :
  (forall fingering,
      In fingering
         (ChordMatcher.findChordFingerings targetPitchClasses handprints baseMidi hand) ->
      pitchClassSet fingering = list_to_set targetPitchClasses
      /\ size (pitchClassSet fingering)
         = size (list_to_set targetPitchClasses : gset Z)
      /\ (forall pc, pc ∈ pitchClassSet fingering <-> In pc targetPitchClasses)
      /\ list_to_set (map ChordMatcher.pitchClass (ChordMatcher.positions fingering))
         = pitchClassSet fingering)
  /\ (forall handprint subset,
         subsetPitchClasses baseMidi subset <> list_to_set targetPitchClasses ->
         ChordMatcher.matchSubset (list_to_set targetPitchClasses) baseMidi
                                  handprint subset = []).
Proof.
  split.
  - intros fingering H.
    apply findChordFingerings_In in H as (handprint & subset & _ & _ & H).
    apply matchSubset_pitchClasses in H as (_ & Hset & Hstored & _).
    rewrite Hset, Hstored. repeat split; try reflexivity.
    + intros Hpc. apply elem_of_list_to_set, list_elem_of_In in Hpc. exact Hpc.
    + intros Hpc. apply elem_of_list_to_set, list_elem_of_In. exact Hpc.
  - intros handprint subset. apply matchSubset_rejects.
Qed.

Lemma findChordFingerings_exact_match_witness :
  exists fingering,
    In fingering (ChordMatcher.findChordFingerings [0; 4; 7] [triadHandprint] 48 None)
    /\ pitchClassSet fingering = list_to_set [0; 4; 7]
    /\ ChordMatcher.comfortRating fingering = Some 80%R.
Proof.
  assert (Hin : exists fingering,
             In fingering
                (ChordMatcher.findChordFingerings [0; 4; 7] [triadHandprint] 48 None)
             /\ ChordMatcher.comfortRating fingering = Some 80%R).
  { eexists. split.
    - unfold ChordMatcher.findChordFingerings, triadHandprint. simpl.
      left. reflexivity.
    - simpl. unfold or_elseR. destruct (Req_dec_T 80 0); [lra|reflexivity]. }
  destruct Hin as (fingering & Hin & Hcomfort).
  exists fingering. split; [exact Hin|]. split; [|exact Hcomfort].
  exact (proj1 (proj1 (findChordFingerings_exact_match [0; 4; 7] [triadHandprint] 48 None)
                      fingering Hin)).
Defined.

(** ** The scorer *)

Section ScorerFacts.
Import ChordMatcher FingeringScorer.
Open Scope R_scope.

Lemma Math_round_nearest (x : R) :
  - (1 / 2) < IZR (Math_round x) - x <= 1 / 2.
Proof.
  unfold Math_round. pose proof (Zfloor_bound (x + / 2)) as H. lra.
Qed.

Lemma Math_round_bounds (x : R) (lo hi : Z) :
  IZR lo <= x <= IZR hi -> (lo <= Math_round x <= hi)%Z.
Proof.
  intros [Hlo Hhi]. unfold Math_round.
  pose proof (Zfloor_bound (x + / 2)) as [Hf1 Hf2]. split.
  - apply Zfloor_lub. lra.
  - apply Z.lt_succ_r. apply lt_IZR. rewrite succ_IZR. lra.
Qed.

Lemma Math_round_integer (z : Z) : Math_round (IZR z) = z.
Proof.
  unfold Math_round. apply Zfloor_eq. lra.
Qed.

Lemma scoreComfort_bounds (comfortRating : option R) :
  (forall r, comfortRating = Some r -> 0 <= r <= 100) ->
  0 <= scoreComfort comfortRating <= 100.
Proof.
  intros H. unfold scoreComfort, or_elseR.
  destruct comfortRating as [r|]; [|lra].
  destruct (Req_dec_T r 0); [lra|]. apply H. reflexivity.
Qed.

(** The four pieces of the span score. *)
Lemma spanScore_pieces (span : R) :
  (span <= 3 -> spanScore span = 100)
  /\ (3 < span <= 5 -> spanScore span = 100 - (span - 3) * 15)
  /\ (5 < span <= 7 -> spanScore span = 70 - (span - 5) * 15)
  /\ (7 < span -> spanScore span = Rmax 0 (40 - (span - 7) * 10)).
Proof.
  unfold spanScore.
  destruct (Rle_dec span 3), (Rle_dec span 5), (Rle_dec span 7);
    repeat split; intros; try reflexivity; lra.
Qed.

Lemma spanScore_bounds (span : R) : 0 <= spanScore span <= 100.
Proof.
  unfold spanScore.
  destruct (Rle_dec span 3); [lra|].
  destruct (Rle_dec span 5); [lra|].
  destruct (Rle_dec span 7); [lra|].
  unfold Rmax. destruct (Rle_dec 0 (40 - (span - 7) * 10)); lra.
Qed.

Lemma compactnessScore_bounds (span : RowSpan) :
  (0 <= compactnessScore span <= 100)%Z.
Proof.
  destruct span as [|n]; simpl; [lia|].
  destruct (n <=? 2)%Z eqn:Hn; [lia|]. apply Z.leb_gt in Hn. lia.
Qed.

Lemma scoreGeometry_bounds (positions : list Position) :
  0 <= scoreGeometry positions <= 100.
Proof.
  unfold scoreGeometry.
  pose proof (spanScore_bounds (calculateSpan positions)) as Hs.
  pose proof (compactnessScore_bounds (rowSpan (map row positions))) as [Hc1 Hc2].
  apply IZR_le in Hc1, Hc2. lra.
Qed.

Lemma scoreErgonomics_bounds (positions : list Position) :
  (0 <= scoreErgonomics positions <= 100)%Z.
Proof. unfold scoreErgonomics. cbv zeta. lia. Qed.

Lemma totalScore_bounds (comfortRating : option R) (positions : list Position) :
  (forall r, comfortRating = Some r -> 0 <= r <= 100) ->
  0 <= totalScore comfortRating positions <= 100.
Proof.
  intros H. unfold totalScore.
  pose proof (scoreComfort_bounds comfortRating H) as Hc.
  pose proof (scoreGeometry_bounds positions) as Hg.
  pose proof (scoreErgonomics_bounds positions) as [He1 He2].
  apply IZR_le in He1, He2. lra.
Qed.

Lemma sqrt_25 : sqrt 25 = 5.
Proof. replace 25 with (5 * 5) by lra. apply sqrt_square. lra. Qed.

Lemma calculateSpan_wide : calculateSpan wideFingering = 5.
Proof.
  unfold calculateSpan, wideFingering, spanLoop, distance. simpl.
  change ((4 - 0) * (4 - 0) + (3 - 0) * (3 - 0))%Z with 25%Z.
  rewrite sqrt_25. unfold Rmax. destruct (Rle_dec 0 5); lra.
Qed.

End ScorerFacts.

(** C2, at a span of 5.  Between 3 and 5 the span score loses 15 points per
    grid unit, like between 5 and 7: at a span of 5 it is 70, where the
    claim (and the comment next to the formula) has 85.  With a row span of
    3 the compactness is 80 and the geometric score is 75. *)
Theorem scoreGeometry_at_span_5 :
  (ChordMatcher.calculateSpan wideFingering = 5
   /\ FingeringScorer.spanScore (ChordMatcher.calculateSpan wideFingering) = 70
   /\ FingeringScorer.compactnessScore
        (FingeringScorer.rowSpan (map ChordMatcher.row wideFingering)) = 80%Z
   /\ FingeringScorer.scoreGeometry wideFingering = 75)%R.
Proof.
  assert (Hspan : (FingeringScorer.spanScore 5 = 70)%R).
  { rewrite (proj1 (proj2 (spanScore_pieces 5))) by lra. lra. }
  repeat split.
  - apply calculateSpan_wide.
  - rewrite calculateSpan_wide. exact Hspan.
  - unfold FingeringScorer.scoreGeometry. rewrite calculateSpan_wide, Hspan.
    change (FingeringScorer.compactnessScore
              (FingeringScorer.rowSpan (map ChordMatcher.row wideFingering)))
      with 80%Z.
    lra.
Qed.

(** C3.  For a fingering whose comfort rating, when present, lies in
    [0, 100]: the three sub-scores and their weighted sum
    [comfort * 0.4 + geometry * 0.3 + ergonomics * 0.3] lie in [0, 100];
    the reported [score] is this sum rounded to the nearest integer, the
    reported sub-scores are the sub-scores rounded to the nearest integer,
    and the four reported values lie in [0, 100]. *)
Theorem scoreFingering_bounds
    (fingering : ChordMatcher.Fingering (list ChordMatcher.Position)) :
  (forall r, ChordMatcher.comfortRating fingering = Some r -> 0 <= r <= 100)%R ->
  let comfort := FingeringScorer.scoreComfort (ChordMatcher.comfortRating fingering) in
  let geometry := FingeringScorer.scoreGeometry (ChordMatcher.positions fingering) in
  let ergonomics := FingeringScorer.scoreErgonomics (ChordMatcher.positions fingering) in
  let total := (comfort * (4 / 10) + geometry * (3 / 10) + IZR ergonomics * (3 / 10))%R in
  let scored := FingeringScorer.scoreFingering fingering in
  (0 <= comfort <= 100 /\ 0 <= geometry <= 100
   /\ 0 <= IZR ergonomics <= 100 /\ 0 <= total <= 100)%R
  /\ (ChordMatcher.score scored = Math_round total
      /\ ChordMatcher.comfortScore scored = Some (Math_round comfort)
      /\ ChordMatcher.geometricScore scored = Math_round geometry
      /\ ChordMatcher.ergonomicScore scored = ergonomics)
  /\ (- (1 / 2) < IZR (ChordMatcher.score scored) - total <= 1 / 2
      /\ - (1 / 2) < IZR (Math_round comfort) - comfort <= 1 / 2
      /\ - (1 / 2) < IZR (ChordMatcher.geometricScore scored) - geometry <= 1 / 2)%R
  /\ (0 <= ChordMatcher.score scored <= 100
      /\ 0 <= Math_round comfort <= 100
      /\ 0 <= ChordMatcher.geometricScore scored <= 100
      /\ 0 <= ChordMatcher.ergonomicScore scored <= 100).
Proof.
  intros Hrating comfort geometry ergonomics total scored.
  pose proof (scoreComfort_bounds _ Hrating) as Hc. fold comfort in Hc.
  pose proof (scoreGeometry_bounds (ChordMatcher.positions fingering)) as Hg.
  fold geometry in Hg.
  pose proof (scoreErgonomics_bounds (ChordMatcher.positions fingering)) as He.
  fold ergonomics in He.
  pose proof (totalScore_bounds _ (ChordMatcher.positions fingering) Hrating) as Ht.
  change (FingeringScorer.totalScore (ChordMatcher.comfortRating fingering)
            (ChordMatcher.positions fingering)) with total in Ht.
  assert (HeR : (0 <= IZR ergonomics <= 100)%R).
  { destruct He as [He1 He2]. apply IZR_le in He1, He2. lra. }
  assert (Herg : ChordMatcher.ergonomicScore scored = ergonomics).
  { apply Math_round_integer. }
  split; [|split; [|split]].
  - auto.
  - repeat split; try reflexivity. exact Herg.
  - repeat split; apply Math_round_nearest.
  - rewrite Herg.
    repeat split;
      first [ apply He
            | apply (Math_round_bounds _ 0 100); assumption ].
Qed.

Lemma scoreFingering_bounds_witness :
  (0 <= ChordMatcher.score (FingeringScorer.scoreFingering sampleFingering) <= 100)
  /\ ChordMatcher.ergonomicScore (FingeringScorer.scoreFingering sampleFingering)
     = FingeringScorer.scoreErgonomics wideFingering.
Proof.
  assert (Hrating : (forall r, ChordMatcher.comfortRating sampleFingering = Some r ->
                               0 <= r <= 100)%R).
  { intros r [= <-]. lra. }
  pose proof (scoreFingering_bounds sampleFingering Hrating) as H.
  cbv zeta in H.
  destruct H as (_ & (_ & _ & _ & Herg) & _ & (Hscore & _)).
  split; [exact Hscore|exact Herg].
Defined.

(** ** The store: [rankFingerings] leaves its input alone *)

Section SortFacts.
Context {A : Type} (after : A -> A -> bool).

Lemma sortInsert_Permutation (x : A) (sorted : list A) :
  sortInsert after x sorted ≡ₚ x :: sorted.
Proof.
  induction sorted as [|y rest IH]; simpl; [reflexivity|].
  destruct (after x y); [|reflexivity].
  rewrite IH. apply Permutation_swap.
Qed.

Lemma js_sort_Permutation (l : list A) : js_sort after l ≡ₚ l.
Proof.
  induction l as [|x l IH]; simpl; [reflexivity|].
  rewrite sortInsert_Permutation, IH. reflexivity.
Qed.

Lemma js_sort_length (l : list A) : length (js_sort after l) = length l.
Proof. apply Permutation_length, js_sort_Permutation. Qed.
End SortFacts.

Section StoreFacts.
Import ChordMatcher FingeringScorer.

Lemma preserves_refl (h : store) : preserves h h.
Proof. intros l c H. exact H. Qed.

Lemma preserves_trans (h1 h2 h3 : store) :
  preserves h1 h2 -> preserves h2 h3 -> preserves h1 h3.
Proof. intros H12 H23 l c H. apply H23, H12, H. Qed.

Lemma preserves_insert_fresh (h : store) (l : loc) (c : cell) :
  h !! l = None -> preserves h (<[l := c]> h).
Proof.
  intros Hl l' c' H'. rewrite lookup_insert_ne; [exact H'|].
  intros ->. congruence.
Qed.

Lemma preserves_fresh (h h' : store) (l : loc) :
  preserves h h' -> h' !! l = None -> h !! l = None.
Proof.
  intros Hp Hl. destruct (h !! l) as [c|] eqn:Hc; [|reflexivity].
  apply Hp in Hc. congruence.
Qed.

Lemma alloc_fresh (c : cell) (h : store) :
  exists l, alloc c h = Some (l, <[l := c]> h) /\ h !! l = None.
Proof.
  exists (fresh (dom h)). split; [reflexivity|].
  apply not_elem_of_dom. apply is_fresh.
Qed.

Lemma scoreFingeringRef_spec (h : store) (f : loc) (o : Fingering loc)
    (ps : list Position) :
  h !! f = Some (FingeringObject o) ->
  h !! positions o = Some (PositionArray ps) ->
  exists l,
    scoreFingeringRef f h
    = Some (l, <[l := FingeringObject (withScores o ps)]> h)
    /\ h !! l = None.
Proof.
  intros Hf Hps.
  destruct (alloc_fresh (FingeringObject (withScores o ps)) h) as (l & Ha & Hl).
  exists l. split; [|exact Hl].
  unfold scoreFingeringRef, bind, readFingering, readPositions.
  rewrite Hf, Hps. exact Ha.
Qed.

Lemma scorable_preserves (h h' : store) (l : loc) :
  preserves h h' -> scorable h l -> scorable h' l.
Proof. intros Hp (f & ps & Hf & Hps). exists f, ps. auto. Qed.

Lemma mapScore_spec (elements : list loc) (h : store) :
  Forall (scorable h) elements ->
  exists scored h',
    mapScore elements h = Some (scored, h')
    /\ preserves h h'
    /\ length scored = length elements
    /\ Forall (fun l => h !! l = None
                        /\ exists o, h' !! l = Some (FingeringObject o)) scored.
Proof.
  revert h. induction elements as [|f rest IH]; intros h Hall.
  - exists [], h. simpl. unfold ret.
    repeat split; [apply preserves_refl|constructor].
  - inversion Hall as [|? ? (o & ps & Hf & Hps) Hrest]; subst.
    destruct (scoreFingeringRef_spec h f o ps Hf Hps) as (l & Hscore & Hl).
    set (h1 := <[l := FingeringObject (withScores o ps)]> h) in *.
    assert (Hp1 : preserves h h1) by (apply preserves_insert_fresh, Hl).
    destruct (IH h1) as (scored & h' & Hmap & Hp & Hlen & Hfresh).
    { eapply Forall_impl; [exact Hrest|].
      intros l0. apply scorable_preserves, Hp1. }
    exists (l :: scored), h'. simpl. unfold bind, ret.
    rewrite Hscore, Hmap. repeat split.
    + eapply preserves_trans; eassumption.
    + simpl. rewrite Hlen. reflexivity.
    + constructor.
      * split; [exact Hl|]. eexists. apply Hp. apply lookup_insert_eq.
      * eapply Forall_impl; [exact Hfresh|].
        intros l0 [H0 Ho]. split; [|exact Ho].
        eapply preserves_fresh; eassumption.
Qed.

Lemma readAll_spec (elements : list loc) (h : store) :
  Forall (fun l => exists o, h !! l = Some (FingeringObject o)) elements ->
  exists objects,
    readAll elements h = Some (objects, h) /\ map fst objects = elements.
Proof.
  induction elements as [|l rest IH]; intros Hall.
  - exists []. split; reflexivity.
  - inversion Hall as [|? ? [o Ho] Hrest]; subst.
    destruct (IH Hrest) as (objects & Hread & Hfst).
    exists ((l, o) :: objects). simpl. unfold bind, ret, readFingering.
    rewrite Ho, Hread. simpl. rewrite Hfst. split; reflexivity.
Qed.

End StoreFacts.

(** C10.  [rankFingerings] does not change its input: on a store where the
    argument is an array of fingering objects, the call returns, every cell
    that existed before the call (the input array with its elements in
    their order, each element object, each array of positions) has the same
    content after it, the array returned is a new cell, and its elements
    are new objects, as many as the input has; the sort writes to the new
    array only. *)
Theorem rankFingerings_preserves_input
    (h : FingeringScorer.store) (fingerings : FingeringScorer.loc) :
  FingeringScorer.wellFormed h fingerings ->
  exists ranked h' elements scored,
    FingeringScorer.rankFingerings fingerings h = Some (ranked, h')
    /\ preserves h h'
    /\ h !! fingerings = Some (FingeringScorer.FingeringArray elements)
    /\ h' !! fingerings = Some (FingeringScorer.FingeringArray elements)
    /\ Forall (fun l => h' !! l = h !! l) elements
    /\ h !! ranked = None
    /\ h' !! ranked = Some (FingeringScorer.FingeringArray scored)
    /\ length scored = length elements
    /\ Forall (fun l => h !! l = None) scored.
Proof.
  intros (elements & Harr & Hall).
  destruct (mapScore_spec elements h Hall)
    as (mapped & h1 & Hmap & Hp1 & Hlen & Hfresh).
  destruct (alloc_fresh (FingeringScorer.FingeringArray mapped) h1)
    as (arr & Halloc & Harr1).
  set (h2 := <[arr := FingeringScorer.FingeringArray mapped]> h1) in *.
  assert (Hp2 : preserves h1 h2) by (apply preserves_insert_fresh, Harr1).
  destruct (readAll_spec mapped h2) as (objects & Hread & Hfst).
  { eapply Forall_impl; [exact Hfresh|].
    intros l [_ [o Ho]]. exists o. apply Hp2, Ho. }
  set (sorted :=
         map fst (js_sort (fun a b => FingeringScorer.scoredAfter (snd a) (snd b))
                          objects)).
  assert (Hperm : sorted ≡ₚ mapped).
  { unfold sorted. rewrite js_sort_Permutation. rewrite Hfst. reflexivity. }
  exists arr, (<[arr := FingeringScorer.FingeringArray sorted]> h2), elements, sorted.
  assert (Harr0 : h !! arr = None) by (eapply preserves_fresh; eassumption).
  assert (Hp : preserves h (<[arr := FingeringScorer.FingeringArray sorted]> h2)).
  { intros l c Hl. rewrite lookup_insert_ne by (intros ->; congruence).
    apply Hp2, Hp1, Hl. }
  split; [|split; [|split; [|split; [|split; [|split; [|split; [|split]]]]]]].
  - unfold FingeringScorer.rankFingerings, FingeringScorer.bind,
      FingeringScorer.readArray.
    rewrite Harr, Hmap, Halloc.
    unfold FingeringScorer.sortByScore, FingeringScorer.bind,
      FingeringScorer.readArray, FingeringScorer.write, FingeringScorer.ret.
    fold h2. unfold h2 at 1. rewrite lookup_insert_eq. rewrite Hread.
    unfold h2 at 1. rewrite lookup_insert_eq. reflexivity.
  - exact Hp.
  - exact Harr.
  - apply Hp, Harr.
  - eapply Forall_impl; [exact Hall|].
    intros l (f & ps & Hf & _). rewrite Hf. apply Hp, Hf.
  - exact Harr0.
  - apply lookup_insert_eq.
  - rewrite (Permutation_length Hperm). exact Hlen.
  - rewrite Hperm. eapply Forall_impl; [exact Hfresh|].
    intros l [Hl _]. exact Hl.
Qed.

Lemma rankFingerings_preserves_input_witness :
  exists ranked h',
    FingeringScorer.rankFingerings 0%nat sampleStore = Some (ranked, h')
    /\ preserves sampleStore h'
    /\ sampleStore !! ranked = None.
Proof.
  assert (Hwf : FingeringScorer.wellFormed sampleStore 0%nat).
  { exists [1%nat]. split; [reflexivity|].
    constructor; [|constructor].
    eexists _, wideFingering. split; reflexivity. }
  destruct (rankFingerings_preserves_input sampleStore 0%nat Hwf)
    as (ranked & h' & elements & scored & Hrun & Hp & _ & _ & _ & Hnew & _).
  exists ranked, h'. auto.
Defined.

(** ** The synthesizer *)

Section PadMapFacts.
Import FingeringSynthesizer.

Lemma mapHas_In (k : Z) (m : PadMap) : mapHas k m = true <-> In k (keys m).
Proof.
  unfold mapHas, keys. rewrite existsb_exists, in_map_iff. split.
  - intros (e & He & Hk). exists e. split; [lia|exact He].
  - intros (e & Hk & He). exists e. split; [exact He|lia].
Qed.

Lemma mapSet_keys (k : Z) (v : list Pad) (m : PadMap) :
  keys (mapSet k v m) = if mapHas k m then keys m else keys m ++ [k].
Proof.
  induction m as [|[k' v'] rest IH]; simpl; [reflexivity|].
  destruct (k' =? k) eqn:Hk; simpl.
  - apply Z.eqb_eq in Hk. subst. reflexivity.
  - rewrite IH. fold (mapHas k rest). destruct (mapHas k rest); reflexivity.
Qed.

Lemma mapSet_empty (k : Z) (m : PadMap) :
  Forall (fun e => snd e = []) m -> Forall (fun e => snd e = []) (mapSet k [] m).
Proof.
  induction m as [|[k' v'] rest IH]; simpl; intros H.
  - repeat constructor.
  - inversion H; subst. destruct (k' =? k); constructor; auto.
Qed.

Lemma mapSet_NoDup (k : Z) (v : list Pad) (m : PadMap) :
  NoDup (keys m) -> NoDup (keys (mapSet k v m)).
Proof.
  intros H. rewrite mapSet_keys. destruct (mapHas k m) eqn:Hk; [exact H|].
  apply NoDup_app. split; [exact H|]. split; [|apply NoDup_singleton].
  intros x Hx Hx'. apply list_elem_of_In in Hx.
  apply list_elem_of_singleton in Hx'. subst.
  apply mapHas_In in Hx. congruence.
Qed.

(** The map after the first loop of [findPadCombinations]: one entry per
    distinct pitch class of the target, each with no pad. *)
Lemma initial_map (target : list Z) (m : PadMap) :
  NoDup (keys m) -> Forall (fun e => snd e = []) m ->
  let m' := fold_left (fun m pc => mapSet pc [] m) target m in
  NoDup (keys m') /\ Forall (fun e => snd e = []) m'
  /\ (forall k, In k (keys m') <-> In k (keys m) \/ In k target).
Proof.
  revert m. induction target as [|pc target IH]; intros m Hnd Hemp; simpl.
  - repeat split; auto. intros [H|[]]. exact H.
  - destruct (IH (mapSet pc [] m) (mapSet_NoDup _ _ _ Hnd) (mapSet_empty _ _ Hemp))
      as (Hnd' & Hemp' & Hkeys).
    repeat split; auto.
    + intros Hk. apply Hkeys in Hk as [Hk|Hk]; [|auto].
      rewrite mapSet_keys in Hk. destruct (mapHas pc m); [auto|].
      apply in_app_or in Hk as [Hk|[Hk|[]]]; auto.
    + intros Hk. apply Hkeys. rewrite mapSet_keys.
      destruct Hk as [Hk|[Hk|Hk]]; auto.
      * left. destruct (mapHas pc m); [exact Hk|]. apply in_or_app. auto.
      * left. subst. destruct (mapHas k m) eqn:Hh.
        -- apply mapHas_In. exact Hh.
        -- apply in_or_app. right. left. reflexivity.
Qed.

(** Pushing a pad reaches the entry of its key, and only this one. *)
Lemma mapPush_map (k : Z) (p : Pad) (m : PadMap) :
  NoDup (keys m) ->
  mapPush k p m
  = map (fun e => (fst e, snd e ++ (if fst e =? k then [p] else []))) m.
Proof.
  induction m as [|[k' v'] rest IH]; simpl; intros Hnd; [reflexivity|].
  apply NoDup_cons in Hnd as [Hk' Hnd].
  destruct (k' =? k) eqn:Hk.
  - apply Z.eqb_eq in Hk. subst. f_equal.
    symmetry. erewrite map_ext_in; [apply map_id|].
    intros [k0 v0] Hin. simpl.
    destruct (k0 =? k) eqn:Hk0.
    + apply Z.eqb_eq in Hk0. subst. exfalso. apply Hk'.
      apply list_elem_of_In. apply in_map_iff. exists (k, v0). auto.
    + rewrite app_nil_r. reflexivity.
  - rewrite app_nil_r. f_equal. apply IH, Hnd.
Qed.

Lemma absent_map (k : Z) (p : Pad) (m : PadMap) :
  mapHas k m = false ->
  m = map (fun e => (fst e, snd e ++ (if fst e =? k then [p] else []))) m.
Proof.
  intros Hk. symmetry. erewrite map_ext_in; [apply map_id|].
  intros [k0 v0] Hin. simpl. destruct (k0 =? k) eqn:Hk0.
  - apply Z.eqb_eq in Hk0. subst. exfalso.
    assert (mapHas k m = true); [|congruence].
    apply mapHas_In. apply in_map_iff. exists (k, v0). auto.
  - rewrite app_nil_r. reflexivity.
Qed.

Lemma map_keys (g : Z * list Pad -> list Pad) (m : PadMap) :
  keys (map (fun e => (fst e, g e)) m) = keys m.
Proof. unfold keys. rewrite map_map. reflexivity. Qed.

(** The map after the search of the grid. *)
Lemma search_map (mode : Grid.GridMode) (baseMidi : Z) (cells : list (Z * Z))
    (m : PadMap) :
  NoDup (keys m) ->
  fold_left (visit mode baseMidi) cells m
  = map (fun e => (fst e, snd e ++ collect mode baseMidi (fst e) cells)) m.
Proof.
  revert m. induction cells as [|[r c] cells IH]; intros m Hnd.
  - simpl. erewrite map_ext; [symmetry; apply map_id|].
    intros [k v]. simpl. rewrite app_nil_r. reflexivity.
  - cbn [fold_left].
    assert (Hstep : exists g,
               visit mode baseMidi m (r, c)
               = map (fun e => (fst e, snd e ++ g (fst e))) m
               /\ forall k, g k ++ collect mode baseMidi k cells
                            = collect mode baseMidi k ((r, c) :: cells)).
    { unfold visit. simpl.
      destruct (Grid.getPadIndex mode r c) as [padIndex|] eqn:Hp.
      - set (pc := Music.midiToPitchClass (baseMidi + padIndex)).
        set (p := mkPad r c padIndex (baseMidi + padIndex) pc).
        exists (fun k => if k =? pc then [p] else []). split.
        + destruct (mapHas pc m) eqn:Hh.
          * apply mapPush_map, Hnd.
          * apply absent_map, Hh.
        + intros k. fold pc. rewrite (Z.eqb_sym k pc).
          destruct (pc =? k); reflexivity.
      - exists (fun _ => []). split.
        + erewrite map_ext; [symmetry; apply map_id|].
          intros [k v]. simpl. rewrite app_nil_r. reflexivity.
        + intros k. reflexivity. }
    destruct Hstep as (g & -> & Hg).
    rewrite IH by (rewrite (map_keys (fun e => snd e ++ g (fst e))); exact Hnd).
    rewrite map_map. apply map_ext. intros [k v]. simpl.
    rewrite <- app_assoc, Hg. reflexivity.
Qed.

Lemma generateCombos_nonempty (entries : PadMap) (current : list Pad) :
  Forall (fun e => snd e <> []) entries ->
  generateCombos entries current <> [].
Proof.
  revert current. induction entries as [|[k pads] rest IH]; intros current H; simpl.
  - discriminate.
  - inversion H as [|? ? Hp Hrest]; subst. simpl in Hp.
    destruct pads as [|p pads]; [contradiction|]. simpl.
    intros Happ. apply app_eq_nil in Happ as [Happ _].
    exact (IH _ Hrest Happ).
Qed.

Lemma generateCombos_empty_entry (entries : PadMap) (current : list Pad) :
  Exists (fun e => snd e = []) entries ->
  generateCombos entries current = [].
Proof.
  revert current. induction entries as [|[k pads] rest IH]; intros current H; simpl.
  - inversion H.
  - inversion H as [? ? Hp|? ? Hrest]; subst.
    + simpl in Hp. subst. reflexivity.
    + induction (take 3 pads) as [|p ps IHp]; simpl; [reflexivity|].
      rewrite IH by exact Hrest. exact IHp.
Qed.

End PadMapFacts.

Section SearchFacts.
Import FingeringSynthesizer.

Lemma collect_nonempty mode baseMidi k cells cell padIndex :
  In cell cells ->
  Grid.getPadIndex mode (fst cell) (snd cell) = Some padIndex ->
  Music.midiToPitchClass (baseMidi + padIndex) = k ->
  collect mode baseMidi k cells <> [].
Proof.
  intros Hin Hp Hk Hnil.
  assert (Hpad : In (mkPad (fst cell) (snd cell) padIndex (baseMidi + padIndex)
                           (Music.midiToPitchClass (baseMidi + padIndex)))
                    (collect mode baseMidi k cells)).
  { unfold collect. apply in_flat_map. exists cell. split; [exact Hin|].
    rewrite Hp, Hk, Z.eqb_refl. left. reflexivity. }
  rewrite Hnil in Hpad. exact Hpad.
Qed.

Ltac find_cell :=
  split; [ vm_compute; repeat first [left; reflexivity | right]
         | reflexivity ].

(** The rows 0 to 2 already hold the pad indices 0 to 11, in both modes. *)
Lemma index_searched (mode : Grid.GridMode) (idx : Z) :
  0 <= idx < 12 ->
  exists cell, In cell (searchedCells 5)
               /\ Grid.getPadIndex mode (fst cell) (snd cell) = Some idx.
Proof.
  intros H.
  assert (Hc : idx = 0 \/ idx = 1 \/ idx = 2 \/ idx = 3 \/ idx = 4 \/ idx = 5
               \/ idx = 6 \/ idx = 7 \/ idx = 8 \/ idx = 9 \/ idx = 10
               \/ idx = 11) by lia.
  destruct mode.
  - repeat (destruct Hc as [Hc|Hc]; [subst|]); [..|subst].
    + exists (0, 0); find_cell.
    + exists (0, 1); find_cell.
    + exists (0, 2); find_cell.
    + exists (0, 3); find_cell.
    + exists (0, 4); find_cell.
    + exists (0, 5); find_cell.
    + exists (1, 2); find_cell.
    + exists (1, 3); find_cell.
    + exists (1, 4); find_cell.
    + exists (2, 2); find_cell.
    + exists (2, 3); find_cell.
    + exists (2, 4); find_cell.
  - repeat (destruct Hc as [Hc|Hc]; [subst|]); [..|subst].
    + exists (0, 0); find_cell.
    + exists (0, 1); find_cell.
    + exists (0, 2); find_cell.
    + exists (0, 3); find_cell.
    + exists (0, 4); find_cell.
    + exists (0, 5); find_cell.
    + exists (1, 0); find_cell.
    + exists (1, 1); find_cell.
    + exists (1, 2); find_cell.
    + exists (1, 3); find_cell.
    + exists (1, 4); find_cell.
    + exists (2, 0); find_cell.
Qed.

(** Every pitch class has a pad in the region searched, whatever the base
    note and the mode. *)
Lemma pitch_class_found (mode : Grid.GridMode) (baseMidi k : Z) :
  0 <= k < 12 -> collect mode baseMidi k (searchedCells 5) <> [].
Proof.
  intros Hk.
  destruct (index_searched mode ((k - baseMidi) mod 12)) as (cell & Hin & Hp).
  { apply Z.mod_pos_bound. lia. }
  apply (collect_nonempty mode baseMidi k _ cell _ Hin Hp).
  rewrite midiToPitchClass_mod.
  rewrite Zplus_mod_idemp_r.
  replace (baseMidi + (k - baseMidi)) with k by lia.
  apply Z.mod_small. exact Hk.
Qed.

(** The combinations, from the target and the pads collected. *)
Lemma findPadCombinations_eq (mode : Grid.GridMode) (target : list Z) (baseMidi : Z) :
  exists initial : PadMap,
    NoDup (keys initial)
    /\ (forall k, In k (keys initial) <-> In k target)
    /\ findPadCombinations mode target baseMidi
       = generateCombos
           (map (fun e => (fst e, collect mode baseMidi (fst e) (searchedCells 5)))
                initial)
           [].
Proof.
  exists (fold_left (fun m pc => mapSet pc [] m) target []).
  destruct (initial_map target []) as (Hnd & Hemp & Hkeys);
    [constructor|constructor|].
  split; [exact Hnd|]. split.
  - intros k. rewrite Hkeys. simpl. tauto.
  - unfold findPadCombinations. rewrite search_map by exact Hnd.
    f_equal. apply map_ext_in. intros [k v] Hin.
    rewrite Forall_forall in Hemp. apply list_elem_of_In in Hin.
    rewrite (Hemp _ Hin). reflexivity.
Qed.

Lemma findPadCombinations_nonempty (mode : Grid.GridMode) (target : list Z)
    (baseMidi : Z) :
  List.Forall (fun pc => 0 <= pc < 12) target ->
  findPadCombinations mode target baseMidi <> [].
Proof.
  intros Hpc.
  destruct (findPadCombinations_eq mode target baseMidi)
    as (initial & _ & Hkeys & ->).
  apply generateCombos_nonempty.
  apply Forall_forall. intros e He.
  apply list_elem_of_In, in_map_iff in He as ([k v] & <- & Hin). simpl.
  apply pitch_class_found.
  rewrite List.Forall_forall in Hpc. apply Hpc, Hkeys.
  apply in_map_iff. exists (k, v). auto.
Qed.

(** With no target there is one combination, the empty one. *)
Lemma findPadCombinations_nil (mode : Grid.GridMode) (baseMidi : Z) :
  findPadCombinations mode [] baseMidi = [[]].
Proof.
  unfold findPadCombinations. rewrite search_map by constructor. reflexivity.
Qed.

Lemma slice0_length {A : Type} (arr : list A) (n : Z) :
  0 <= n -> length (slice0 arr n) = Nat.min (Z.to_nat n) (length arr).
Proof.
  intros Hn. unfold slice0.
  destruct (n <? 0) eqn:Hneg; [apply Z.ltb_lt in Hneg; lia|].
  apply length_take.
Qed.

End SearchFacts.

Section SynthesizerFacts.
Import FingeringSynthesizer.

Lemma extractPatterns_nil (hand : option Hand) :
  PatternExtractor.extractPatterns [] hand = None.
Proof. destruct hand; reflexivity. Qed.

(** The result has as many candidates as there are combinations, up to
    [maxSuggestions]. *)
Lemma synthesizeFingerings_length mode target handprints baseMidi hand maxSuggestions :
  0 <= maxSuggestions ->
  length (synthesizeFingerings mode target handprints baseMidi hand maxSuggestions)
  = Nat.min (Z.to_nat maxSuggestions)
            (length (findPadCombinations mode target baseMidi)).
Proof.
  intros Hmax. unfold synthesizeFingerings.
  destruct (findPadCombinations mode target baseMidi) as [|combo combos] eqn:Hc.
  - simpl. lia.
  - rewrite slice0_length by exact Hmax.
    rewrite js_sort_length, length_map. reflexivity.
Qed.

(** The guard of [synthesizeFingerings]: no combination, no candidate. *)
Lemma synthesizeFingerings_no_combination mode target handprints baseMidi hand
    maxSuggestions :
  findPadCombinations mode target baseMidi = [] ->
  synthesizeFingerings mode target handprints baseMidi hand maxSuggestions = [].
Proof. intros H. unfold synthesizeFingerings. rewrite H. reflexivity. Qed.

Lemma slice0_In {A : Type} (arr : list A) (n : Z) (x : A) :
  In x (slice0 arr n) -> In x arr.
Proof.
  unfold slice0. intros H.
  destruct (n <? 0);
    apply list_elem_of_In in H; apply list_elem_of_In;
    eapply subseteq_take; exact H.
Qed.

(** Without handprints every candidate is built from a combination with
    the sequential finger order. *)
Lemma patternFree_candidates mode target baseMidi hand
    maxSuggestions fingering :
  In fingering (synthesizeFingerings mode target [] baseMidi hand maxSuggestions) ->
  exists combo,
    In combo (findPadCombinations mode target baseMidi)
    /\ fingering = patternFree target baseMidi hand combo.
Proof.
  unfold synthesizeFingerings. rewrite extractPatterns_nil.
  destruct (findPadCombinations mode target baseMidi) as [|combo combos] eqn:Hc;
    [intros []|].
  intros H. apply slice0_In in H.
  apply list_elem_of_In in H. rewrite js_sort_Permutation in H.
  apply list_elem_of_In, in_map_iff in H as (c & <- & Hin).
  exists c. split; [exact Hin|reflexivity].
Qed.

End SynthesizerFacts.

(** C4, at the empty target.  The guard returns the empty list when there is
    no combination; but for an empty target the search ends with one
    combination, the empty one, and the result is one candidate with no
    position and the score [NaN], where the claim has an empty result. *)
Theorem synthesizeFingerings_empty_target
    (mode : Grid.GridMode) (handprints : list Handprint.t) (baseMidi : Z)
    (hand : Hand) (maxSuggestions : Z) :
  1 <= maxSuggestions ->
  FingeringSynthesizer.findPadCombinations mode [] baseMidi = [[]]
  /\ FingeringSynthesizer.synthesizeFingerings mode [] handprints baseMidi hand
       maxSuggestions
     = [ {| FingeringSynthesizer.f_hand := hand;
            FingeringSynthesizer.baseMidi := baseMidi;
            FingeringSynthesizer.positions := [];
            FingeringSynthesizer.targetPitchClasses := [];
            FingeringSynthesizer.score := None |} ].
Proof.
  intros Hmax. split; [apply findPadCombinations_nil|].
  unfold FingeringSynthesizer.synthesizeFingerings.
  rewrite findPadCombinations_nil. simpl.
  unfold FingeringSynthesizer.slice0.
  destruct (maxSuggestions <? 0) eqn:Hneg; [apply Z.ltb_lt in Hneg; lia|].
  destruct (Z.to_nat maxSuggestions) as [|[|n]] eqn:Hn; [lia|reflexivity..].
Qed.

Lemma synthesizeFingerings_empty_target_witness :
  FingeringSynthesizer.synthesizeFingerings Grid.Intervals [] [] 48 RightHand 5
  = [ {| FingeringSynthesizer.f_hand := RightHand;
         FingeringSynthesizer.baseMidi := 48;
         FingeringSynthesizer.positions := [];
         FingeringSynthesizer.targetPitchClasses := [];
         FingeringSynthesizer.score := None |} ].
Proof.
  apply (synthesizeFingerings_empty_target Grid.Intervals [] 48 RightHand 5). lia.
Defined.

(** C5 as stated fails: without any handprint, the target C, E, G at base 48
    still gets five candidates. *)
Lemma synthesizeFingerings_no_handprints_counterexample :
  length (FingeringSynthesizer.synthesizeFingerings
            Grid.Intervals [0; 4; 7] [] 48 RightHand 5) = 5%nat
  /\ FingeringSynthesizer.synthesizeFingerings
       Grid.Intervals [0; 4; 7] [] 48 RightHand 5 <> [].
Proof.
  assert (Hlen : length (FingeringSynthesizer.synthesizeFingerings
                           Grid.Intervals [0; 4; 7] [] 48 RightHand 5) = 5%nat).
  { rewrite synthesizeFingerings_length by lia. reflexivity. }
  split; [exact Hlen|]. intros Hnil. rewrite Hnil in Hlen. discriminate Hlen.
Qed.

(** C5, amended.  For a non-empty target made of pitch classes, with no
    handprint and at least one suggestion asked for, [synthesizeFingerings]
    does not fail and does not return the empty list: [extractPatterns]
    gives [null], the grid has at least one combination, and the result
    holds as many candidates as there are combinations, up to
    [maxSuggestions], each built from a combination with the sequential
    finger order and no pattern score. *)
Theorem synthesizeFingerings_no_handprints
    (mode : Grid.GridMode) (targetPitchClasses : list Z) (baseMidi : Z)
    (hand : Hand) (maxSuggestions : Z) :
  targetPitchClasses <> [] ->
  List.Forall (fun pc => 0 <= pc < 12) targetPitchClasses ->
  1 <= maxSuggestions ->
  let result :=
    FingeringSynthesizer.synthesizeFingerings mode targetPitchClasses [] baseMidi
      hand maxSuggestions in
  let combinations :=
    FingeringSynthesizer.findPadCombinations mode targetPitchClasses baseMidi in
  PatternExtractor.extractPatterns [] (Some hand) = None
  /\ combinations <> []
  /\ result <> []
  /\ length result = Nat.min (Z.to_nat maxSuggestions) (length combinations)
  /\ (forall fingering,
         In fingering result ->
         exists combo,
           In combo combinations
           /\ fingering = patternFree targetPitchClasses baseMidi hand combo).
Proof.
  intros _ Hpc Hmax result combinations.
  assert (Hcombos : combinations <> [])
    by (apply findPadCombinations_nonempty, Hpc).
  assert (Hlen : length result
                 = Nat.min (Z.to_nat maxSuggestions) (length combinations))
    by (apply synthesizeFingerings_length; lia).
  split; [reflexivity|]. split; [exact Hcombos|]. split; [|split].
  - intros Hnil. rewrite Hnil in Hlen. simpl in Hlen.
    destruct combinations; [contradiction|]. simpl in Hlen. lia.
  - exact Hlen.
  - intros fingering. apply patternFree_candidates.
Qed.

Lemma synthesizeFingerings_no_handprints_witness :
  FingeringSynthesizer.synthesizeFingerings Grid.Chromatic [0; 3; 7] [] 60 LeftHand 10
  <> [].
Proof.
  assert (Hne : [0; 3; 7] <> []) by discriminate.
  assert (Hpc : List.Forall (fun pc => 0 <= pc < 12) [0; 3; 7])
    by (repeat constructor; lia).
  assert (Hmax : 1 <= 10) by lia.
  exact (proj1 (proj2 (proj2
           (synthesizeFingerings_no_handprints Grid.Chromatic [0; 3; 7] 60 LeftHand 10
              Hne Hpc Hmax)))).
Defined.

(** * Further properties of the grid *)

Section GridRoundTrip.
Import Grid.

Variable starts : list Z.

(** Each row starts at or after the end of the row before. *)
Hypothesis apart :
  forall r s s',
    js_index starts r = Some s -> js_index starts (r + 1) = Some s' ->
    s + getRowLength r <= s'.

Lemma js_index_prefix (r r' : Z) (s : Z) :
  0 <= r' <= r -> js_index starts r = Some s -> is_Some (js_index starts r').
Proof.
  unfold js_index. intros Hr.
  destruct (r <? 0) eqn:Hn; [discriminate|].
  destruct (r' <? 0) eqn:Hn'; [apply Z.ltb_lt in Hn'; lia|].
  intros Hs. apply lookup_lt_is_Some. apply lookup_lt_Some in Hs. lia.
Qed.

Lemma getRowLength_pos (r : Z) : 0 < getRowLength r.
Proof. destruct (getRowLength_cases r); lia. Qed.

Lemma starts_increase (n : nat) (r : Z) (s s' : Z) :
  0 <= r ->
  js_index starts r = Some s ->
  js_index starts (r + 1 + Z.of_nat n) = Some s' ->
  s + getRowLength r <= s'.
Proof.
  revert s'. induction n as [|n IH]; intros s' Hr Hs Hs'.
  - rewrite Z.add_0_r in Hs'. eapply apart; eassumption.
  - destruct (js_index_prefix (r + 1 + Z.of_nat (S n)) (r + 1 + Z.of_nat n) s'
                ltac:(lia) Hs') as [m Hm].
    pose proof (IH m Hr Hs Hm) as Hle.
    replace (r + 1 + Z.of_nat (S n)) with (r + 1 + Z.of_nat n + 1) in Hs' by lia.
    pose proof (apart _ _ _ Hm Hs') as Hstep.
    pose proof (getRowLength_pos (r + 1 + Z.of_nat n)). lia.
Qed.

Lemma inRow_unique (idx r1 r2 : Z) :
  0 <= r1 < r2 -> inRow starts idx r1 -> inRow starts idx r2 -> False.
Proof.
  intros Hr (s1 & Hs1 & Hin1) (s2 & Hs2 & Hin2).
  replace r2 with (r1 + 1 + Z.of_nat (Z.to_nat (r2 - r1 - 1))) in Hs2 by lia.
  pose proof (starts_increase _ _ _ _ (proj1 Hr) Hs1 Hs2). lia.
Qed.

Lemma scanRows_round_trip (n : nat) (row col start : Z) :
  0 <= row < Z.of_nat n ->
  js_index starts row = Some start ->
  0 <= col < getRowLength row ->
  scanRows starts (start + col) 0 n = Returns (mkPos row col).
Proof.
  intros Hrow Hs Hcol.
  assert (Hin : inRow starts (start + col) row).
  { exists start. split; [exact Hs|lia]. }
  destruct (scanRows starts (start + col) 0 n) as [p|e] eqn:Hscan.
  - apply scanRows_returns in Hscan as (Hr & Hi & Hc & Hmin).
    assert (Hp : inRow starts (start + col) (Grid.row p)).
    { exists (start + col - Grid.col p). split; [exact Hi|lia]. }
    assert (Heq : Grid.row p = row).
    { destruct (Z.lt_trichotomy (Grid.row p) row) as [Hlt|[Heq|Hgt]].
      - exfalso. eapply (inRow_unique _ (Grid.row p) row); [lia|eassumption..].
      - exact Heq.
      - exfalso. apply (Hmin row); [lia|exact Hin]. }
    destruct p as [pr pc]. simpl in *. subst pr.
    rewrite Hs in Hi. injection Hi as Hi. f_equal. f_equal. lia.
  - exfalso. apply scanRows_throws in Hscan as [_ Hno].
    apply (Hno row); [lia|exact Hin].
Qed.

End GridRoundTrip.

(** X1.  When no two rows of the table of a mode overlap (each row starts at
    or after the end of the previous one), [getRowCol] undoes [getPadIndex]
    on every valid position. *)
Theorem getRowCol_round_trip (mode : Grid.GridMode) :
  (forall r s s',
      js_index (Grid._getRowStart mode) r = Some s ->
      js_index (Grid._getRowStart mode) (r + 1) = Some s' ->
      s + Grid.getRowLength r <= s') ->
  forall row col idx,
    Grid.validPosition row col ->
    Grid.getPadIndex mode row col = Some idx ->
    Grid.getRowCol mode idx = Returns (Grid.mkPos row col).
Proof.
  intros Hapart row col idx [Hrow Hcol]. unfold Grid.getPadIndex.
  destruct (js_index (Grid._getRowStart mode) row) as [start|] eqn:Hs;
    [|discriminate].
  simpl. intros [= <-]. unfold Grid.getRowCol.
  apply scanRows_round_trip; assumption.
Qed.

Lemma chromatic_rows_apart (r s s' : Z) :
  js_index Grid.ROW_START_CHROMATIC r = Some s ->
  js_index Grid.ROW_START_CHROMATIC (r + 1) = Some s' ->
  s + Grid.getRowLength r <= s'.
Proof.
  intros Hs Hs'.
  assert (Hr : 0 <= r < 10).
  { unfold js_index in *.
    destruct (r <? 0) eqn:Hn; [discriminate|]. apply Z.ltb_ge in Hn.
    destruct (r + 1 <? 0); [discriminate|].
    apply lookup_lt_Some in Hs'. simpl in Hs'. lia. }
  assert (Hc : r = 0 \/ r = 1 \/ r = 2 \/ r = 3 \/ r = 4 \/ r = 5
               \/ r = 6 \/ r = 7 \/ r = 8 \/ r = 9) by lia.
  repeat (destruct Hc as [Hc|Hc]; [subst|]); [..|subst];
    vm_compute in Hs, Hs'; injection Hs as <-; injection Hs' as <-;
    vm_compute; discriminate.
Qed.

Lemma getRowCol_round_trip_witness :
  Grid.getRowCol Grid.Chromatic 19 = Returns (Grid.mkPos 3 2).
Proof.
  apply (getRowCol_round_trip Grid.Chromatic chromatic_rows_apart 3 2 19).
  - unfold Grid.validPosition, Grid.ROW_COUNT, Grid.getRowLength. simpl. lia.
  - reflexivity.
Defined.

Section NeighbourFacts.
Import Grid.

Lemma position_cases (r c : Z) :
  validPosition r c ->
  (r = 0 \/ r = 1 \/ r = 2 \/ r = 3 \/ r = 4 \/ r = 5
   \/ r = 6 \/ r = 7 \/ r = 8 \/ r = 9 \/ r = 10)
  /\ (c = 0 \/ c = 1 \/ c = 2 \/ c = 3 \/ c = 4 \/ c = 5).
Proof.
  intros [Hr Hc]. unfold ROW_COUNT in Hr.
  pose proof (getRowLength_cases r). split; lia.
Qed.

Lemma offset_cases (r : Z) (offset : Z * Z) :
  In offset (neighborOffsets r) ->
  (fst offset = 0 /\ (snd offset = -1 \/ snd offset = 1))
  \/ ((fst offset = 1 \/ fst offset = -1)
      /\ (snd offset = -1 \/ snd offset = 0 \/ snd offset = 1)).
Proof.
  unfold neighborOffsets. destruct (Z.rem r 2 =? 0); simpl;
    intros H; repeat (destruct H as [<-|H]; [simpl; lia|]); destruct H.
Qed.

Lemma getNeighbors_In (r c : Z) (q : GridPosition) :
  In q (getNeighbors r c) ->
  exists offset,
    In offset (neighborOffsets r)
    /\ q = mkPos (r + fst offset) (c + snd offset)
    /\ validPosition (r + fst offset) (c + snd offset).
Proof.
  unfold getNeighbors. intros H.
  apply in_flat_map in H as (offset & Hoff & H).
  exists offset. split; [exact Hoff|]. cbv zeta in H.
  destruct ((0 <=? r + fst offset) && (r + fst offset <? ROW_COUNT)
            && (0 <=? c + snd offset)
            && (c + snd offset <? getRowLength (r + fst offset))) eqn:Hc;
    [|destruct H].
  destruct H as [<-|[]]. split; [reflexivity|].
  repeat (apply andb_prop in Hc as [Hc ?]). unfold validPosition. lia.
Qed.

End NeighbourFacts.

(** Splits the goal into the 61 positions of the grid. *)
Ltac each_position Hv :=
  let Hr := fresh "Hr" in
  let Hc := fresh "Hc" in
  pose proof (position_cases _ _ Hv) as [Hr Hc];
  repeat (destruct Hr as [Hr|Hr]; [subst|]); [..|subst];
  (repeat (destruct Hc as [Hc|Hc]; [subst|]); [..|subst]);
  try (exfalso; clear - Hv; destruct Hv as [_ Hv]; vm_compute in Hv;
       destruct Hv as [_ Hv]; discriminate Hv).

(** X2.  Every neighbour that [getNeighbors] returns is a position of the
    grid other than the pad itself, there are at most six of them, and on
    the grid the relation is symmetric: a pad is a neighbour of each of its
    neighbours. *)
Theorem getNeighbors_valid_symmetric (row col : Z) :
  (forall q, In q (Grid.getNeighbors row col) ->
             Grid.validPosition (Grid.row q) (Grid.col q)
             /\ q <> Grid.mkPos row col)
  /\ (length (Grid.getNeighbors row col) <= 6)%nat
  /\ (Grid.validPosition row col ->
      forall q, In q (Grid.getNeighbors row col) ->
                In (Grid.mkPos row col)
                   (Grid.getNeighbors (Grid.row q) (Grid.col q))).
Proof.
  split; [|split].
  - intros q Hq. apply getNeighbors_In in Hq as (offset & Hoff & -> & Hv).
    split; [exact Hv|]. apply offset_cases in Hoff.
    intros [= H1 H2]. lia.
  - unfold Grid.getNeighbors, Grid.neighborOffsets.
    destruct (Z.rem row 2 =? 0); cbn [flat_map fst snd];
      rewrite !length_app;
      repeat match goal with
             | |- context [if ?c then [_] else []] => destruct c
             end; simpl; lia.
  - intros Hv q Hq. each_position Hv;
      vm_compute in Hq;
      repeat (destruct Hq as [<-|Hq]; [vm_compute; tauto|]); destruct Hq.
Qed.

Lemma getNeighbors_valid_symmetric_witness :
  In (Grid.mkPos 2 3) (Grid.getNeighbors 3 3).
Proof.
  assert (Hv : Grid.validPosition 2 3).
  { unfold Grid.validPosition, Grid.ROW_COUNT, Grid.getRowLength. simpl. lia. }
  apply (proj2 (proj2 (getNeighbors_valid_symmetric 2 3)) Hv (Grid.mkPos 3 3)).
  vm_compute. tauto.
Defined.

(** X3.  In intervals mode the neighbours of a pad are one semitone away on
    its row, a minor or a major third above it on the row above, and a minor
    or a major third below it on the row below. *)
Theorem neighbours_semitones (row col : Z) :
  Grid.validPosition row col ->
  forall q, In q (Grid.getNeighbors row col) ->
    exists i j,
      Grid.getPadIndex Grid.Intervals row col = Some i
      /\ Grid.getPadIndex Grid.Intervals (Grid.row q) (Grid.col q) = Some j
      /\ ((Grid.row q = row /\ (j = i + 1 \/ j = i - 1))
          \/ (Grid.row q = row + 1 /\ (j = i + 3 \/ j = i + 4))
          \/ (Grid.row q = row - 1 /\ (j = i - 3 \/ j = i - 4))).
Proof.
  intros Hv q Hq. each_position Hv;
    vm_compute in Hq;
    repeat (destruct Hq as [<-|Hq];
            [eexists _, _; split; [reflexivity|]; split; [reflexivity|];
             vm_compute; tauto|]);
    destruct Hq.
Qed.

Lemma neighbours_semitones_witness :
  exists i j,
    Grid.getPadIndex Grid.Intervals 2 3 = Some i
    /\ Grid.getPadIndex Grid.Intervals 3 3 = Some j
    /\ ((3 = 2 /\ (j = i + 1 \/ j = i - 1))
        \/ (3 = 2 + 1 /\ (j = i + 3 \/ j = i + 4))
        \/ (3 = 2 - 1 /\ (j = i - 3 \/ j = i - 4))).
Proof.
  assert (Hv : Grid.validPosition 2 3).
  { unfold Grid.validPosition, Grid.ROW_COUNT, Grid.getRowLength. simpl. lia. }
  apply (neighbours_semitones 2 3 Hv (Grid.mkPos 3 3)).
  vm_compute. tauto.
Defined.

(** X4.  In intervals mode the pad two rows up in the same column sounds a
    perfect fifth (7 semitones) higher, whatever the base note. *)
Theorem two_rows_up_is_a_fifth (row col baseMidi : Z) :
  0 <= row -> row + 2 < Grid.ROW_COUNT ->
  exists note,
    Grid.getMidiNote Grid.Intervals row col baseMidi = Some note
    /\ Grid.getMidiNote Grid.Intervals (row + 2) col baseMidi = Some (note + 7).
Proof.
  unfold Grid.ROW_COUNT. intros H0 H2.
  assert (Hc : row = 0 \/ row = 1 \/ row = 2 \/ row = 3 \/ row = 4
               \/ row = 5 \/ row = 6 \/ row = 7 \/ row = 8) by lia.
  unfold Grid.getMidiNote, Grid.getPadIndex.
  repeat (destruct Hc as [Hc|Hc]; [subst|]); [..|subst];
    eexists; (split; [reflexivity|]); simpl; f_equal; lia.
Qed.

Lemma two_rows_up_is_a_fifth_witness :
  exists note,
    Grid.getMidiNote Grid.Intervals 3 1 48 = Some note
    /\ Grid.getMidiNote Grid.Intervals (3 + 2) 1 48 = Some (note + 7).
Proof.
  apply (two_rows_up_is_a_fifth 3 1 48); unfold Grid.ROW_COUNT; lia.
Defined.

Section DistanceFacts.
Import Grid.
Open Scope R_scope.

Lemma sqrt_IZR_square (z : Z) : sqrt (IZR (z ^ 2)) = IZR (Z.abs z).
Proof.
  replace (z ^ 2)%Z with (Z.abs z * Z.abs z)%Z by lia.
  rewrite mult_IZR. apply sqrt_square. apply IZR_le. lia.
Qed.

Lemma getGridDistance_formula (row1 col1 row2 col2 : Z) :
  getGridDistance row1 col1 row2 col2
  = sqrt (IZR ((fst (getCellCenter row2 col2) - fst (getCellCenter row1 col1)) ^ 2
               + (snd (getCellCenter row2 col2) - snd (getCellCenter row1 col1)) ^ 2))
    / 38.
Proof. reflexivity. Qed.

End DistanceFacts.

(** X5.  [getGridDistance] is symmetric and never negative, and between two
    pads of one row it is the difference of their columns. *)
Theorem getGridDistance_row (row1 col1 row2 col2 : Z) :
  (Grid.getGridDistance row1 col1 row2 col2
   = Grid.getGridDistance row2 col2 row1 col1
   /\ 0 <= Grid.getGridDistance row1 col1 row2 col2
   /\ Grid.getGridDistance row1 col1 row1 col2 = IZR (Z.abs (col2 - col1)))%R.
Proof.
  rewrite !getGridDistance_formula. split; [|split].
  - f_equal. f_equal. f_equal. lia.
  - apply Rmult_le_pos; [apply sqrt_pos|lra].
  - unfold Grid.getCellCenter. simpl fst. simpl snd.
    match goal with
    | |- (sqrt (IZR ?e) / 38 = _)%R =>
        replace e with (((col2 - col1) * 38) ^ 2) by (unfold Grid.HEX_W; lia)
    end.
    rewrite sqrt_IZR_square, Z.abs_mul, mult_IZR.
    change (IZR (Z.abs 38)) with 38%R. lra.
Qed.

(** X6.  On the square grid with positive numbers of rows and columns,
    [getRowCol] undoes [getPadIndex] on every position of the grid, answers
    on the indices from 0 to [ROW_COUNT * COL_COUNT - 1] with the position
    that has this index, and throws [Invalid pad index] on every other
    integer. *)
Theorem squareGrid_round_trip (ROW_COUNT COL_COUNT : Z) :
  0 < ROW_COUNT -> 0 < COL_COUNT ->
  (forall row col,
      0 <= row < ROW_COUNT -> 0 <= col < COL_COUNT ->
      SquareGrid.getRowCol ROW_COUNT COL_COUNT (SquareGrid.getPadIndex COL_COUNT row col)
      = Returns (Grid.mkPos row col))
  /\ (forall padIndex,
         0 <= padIndex < ROW_COUNT * COL_COUNT ->
         exists p,
           SquareGrid.getRowCol ROW_COUNT COL_COUNT padIndex = Returns p
           /\ SquareGrid.getPadIndex COL_COUNT (Grid.row p) (Grid.col p) = padIndex
           /\ 0 <= Grid.row p < ROW_COUNT /\ 0 <= Grid.col p < COL_COUNT)
  /\ (forall padIndex,
         ~ 0 <= padIndex < ROW_COUNT * COL_COUNT ->
         SquareGrid.getRowCol ROW_COUNT COL_COUNT padIndex
         = Throws (InvalidPadIndex padIndex)).
Proof.
  intros Hrows Hcols.
  assert (Hin : forall padIndex,
             0 <= padIndex < ROW_COUNT * COL_COUNT ->
             SquareGrid.getRowCol ROW_COUNT COL_COUNT padIndex
             = Returns (Grid.mkPos (padIndex / COL_COUNT) (padIndex mod COL_COUNT))
             /\ 0 <= padIndex / COL_COUNT < ROW_COUNT
             /\ 0 <= padIndex mod COL_COUNT < COL_COUNT).
  { intros padIndex Hp.
    assert (Hrow : 0 <= padIndex / COL_COUNT < ROW_COUNT).
    { split; [apply Z.div_pos; lia|]. apply Z.div_lt_upper_bound; lia. }
    pose proof (Z.mod_pos_bound padIndex COL_COUNT Hcols) as Hcol.
    split; [|auto]. unfold SquareGrid.getRowCol.
    rewrite Z.rem_mod_nonneg by lia.
    destruct (padIndex / COL_COUNT <? 0) eqn:H1; [apply Z.ltb_lt in H1; lia|].
    destruct (ROW_COUNT <=? padIndex / COL_COUNT) eqn:H2; [apply Z.leb_le in H2; lia|].
    destruct (padIndex mod COL_COUNT <? 0) eqn:H3; [apply Z.ltb_lt in H3; lia|].
    destruct (COL_COUNT <=? padIndex mod COL_COUNT) eqn:H4; [apply Z.leb_le in H4; lia|].
    reflexivity. }
  split; [|split].
  - intros row col Hrow Hcol. unfold SquareGrid.getPadIndex.
    destruct (Hin (row * COL_COUNT + col)) as (-> & _); [nia|].
    assert (Hd : (row * COL_COUNT + col) / COL_COUNT = row).
    { rewrite Z.div_add_l by lia. rewrite Z.div_small by lia. lia. }
    assert (Hm : (row * COL_COUNT + col) mod COL_COUNT = col).
    { rewrite Z.add_comm, Z.mod_add by lia. apply Z.mod_small. lia. }
    rewrite Hd, Hm. reflexivity.
  - intros padIndex Hp. destruct (Hin padIndex Hp) as (Hret & Hrow & Hcol).
    eexists. split; [exact Hret|]. simpl. split; [|auto].
    unfold SquareGrid.getPadIndex. pose proof (Z.div_mod padIndex COL_COUNT). lia.
  - intros padIndex Hout. unfold SquareGrid.getRowCol.
    destruct (Z_lt_dec padIndex 0) as [Hneg|Hpos].
    + assert (padIndex / COL_COUNT < 0) by (apply Z.div_lt_upper_bound; lia).
      destruct (padIndex / COL_COUNT <? 0) eqn:H1; [reflexivity|].
      apply Z.ltb_ge in H1. lia.
    + assert (ROW_COUNT <= padIndex / COL_COUNT)
        by (apply Z.div_le_lower_bound; lia).
      destruct (padIndex / COL_COUNT <? 0); [reflexivity|].
      destruct (ROW_COUNT <=? padIndex / COL_COUNT) eqn:H2; [reflexivity|].
      apply Z.leb_gt in H2. lia.
Qed.

Lemma squareGrid_round_trip_witness :
  SquareGrid.getRowCol 8 8 (SquareGrid.getPadIndex 8 3 5) = Returns (Grid.mkPos 3 5)
  /\ SquareGrid.getRowCol 8 8 64 = Throws (InvalidPadIndex 64).
Proof.
  destruct (squareGrid_round_trip 8 8 ltac:(lia) ltac:(lia)) as (Hrt & _ & Hout).
  split; [apply Hrt; lia|apply Hout; lia].
Defined.

(** * Further properties of the pitch-class helpers *)

Section PitchClassSetFacts.
Import Music.

Lemma fold_union_image (f : Z -> Z) (l : list Z) (acc : gset Z) (x : Z) :
  x ∈ fold_left (fun (s : gset Z) i => s ∪ {[ f i ]}) l acc
  <-> x ∈ acc \/ exists i, In i l /\ x = f i.
Proof.
  revert acc. induction l as [|i l IH]; intros acc; simpl.
  - split; [auto|]. intros [H|(i & [] & _)]. exact H.
  - rewrite IH. rewrite elem_of_union, elem_of_singleton. split.
    + intros [[H|H]|(j & Hj & H)]; eauto.
    + intros [H|(j & [<-|Hj] & H)]; eauto.
Qed.

Lemma ownProperty_In {V : Type} (table : list (string * V)) (key : string) (v : V) :
  ownProperty table key = Some v -> In (key, v) table.
Proof.
  unfold ownProperty. destruct (find _ table) as [[k w]|] eqn:Hf; [|discriminate].
  simpl. intros [= <-]. apply find_some in Hf as [Hin Hk].
  simpl in Hk. apply String.eqb_eq in Hk. subst. exact Hin.
Qed.

Lemma NOTE_TO_PC_range (key : string) (root : Z) :
  ownProperty NOTE_TO_PC key = Some root -> 0 <= root < 12.
Proof.
  intros H. apply ownProperty_In in H. simpl in H.
  repeat (destruct H as [[= <- <-]|H]; [lia|]). destruct H.
Qed.

Lemma PITCH_CLASS_SETS_intervals (setType : string) (data : PitchClassSetData) :
  ownProperty PITCH_CLASS_SETS setType = Some data ->
  In 0 (intervals data) /\ List.Forall (fun i => 0 <= i) (intervals data).
Proof.
  intros H. apply ownProperty_In in H. simpl in H.
  repeat (destruct H as [[= <- <-]|H];
          [split; [simpl; tauto|repeat constructor; lia]|]).
  destruct H.
Qed.

Lemma rem12_nonneg (n : Z) : 0 <= n -> Z.rem n 12 = n mod 12.
Proof. intros H. apply Z.rem_mod_nonneg; lia. Qed.

End PitchClassSetFacts.

(** X7.  For a key of [NOTE_TO_PC] and a set type of [PITCH_CLASS_SETS],
    [getPitchClasses] returns a set: its members are the residues modulo 12
    of root plus interval, all of them in [0, 12), and the root is one of
    them. *)
Theorem getPitchClasses_members (key setType : string) (root : Z)
    (data : Music.PitchClassSetData) :
  Music.ownProperty Music.NOTE_TO_PC key = Some root ->
  Music.ownProperty Music.PITCH_CLASS_SETS setType = Some data ->
  exists pcs : gset Z,
    Music.getPitchClasses key setType = inr pcs
    /\ (forall pc, pc ∈ pcs <->
                   exists i, In i (Music.intervals data) /\ pc = (root + i) mod 12)
    /\ (forall pc, pc ∈ pcs -> 0 <= pc < 12)
    /\ root ∈ pcs.
Proof.
  intros Hkey Hset.
  pose proof (NOTE_TO_PC_range _ _ Hkey) as Hroot.
  pose proof (PITCH_CLASS_SETS_intervals _ _ Hset) as [Hzero Hpos].
  rewrite List.Forall_forall in Hpos.
  unfold Music.getPitchClasses. rewrite Hkey, Hset.
  eexists. split; [reflexivity|].
  assert (Hmem : forall pc,
             pc ∈ fold_left (fun (pcs : gset Z) interval =>
                               pcs ∪ {[ Z.rem (root + interval) 12 ]})
                            (Music.intervals data) ∅
             <-> exists i, In i (Music.intervals data) /\ pc = (root + i) mod 12).
  { intros pc. rewrite (fold_union_image (fun i => Z.rem (root + i) 12)). split.
    - intros [H|(i & Hi & ->)]; [set_solver|].
      exists i. split; [exact Hi|]. apply rem12_nonneg.
      specialize (Hpos i Hi). simpl in Hpos. lia.
    - intros (i & Hi & ->). right. exists i. split; [exact Hi|].
      symmetry. apply rem12_nonneg. specialize (Hpos i Hi). simpl in Hpos. lia. }
  split; [exact Hmem|]. split.
  - intros pc Hpc. apply Hmem in Hpc as (i & _ & ->).
    apply Z.mod_pos_bound. lia.
  - apply Hmem. exists 0. split; [exact Hzero|].
    rewrite Z.add_0_r. symmetry. apply Z.mod_small. exact Hroot.
Qed.

Lemma getPitchClasses_members_witness :
  exists pcs : gset Z,
    Music.getPitchClasses "D" "maj" = inr pcs
    /\ (forall pc, pc ∈ pcs -> 0 <= pc < 12)
    /\ 2 ∈ pcs.
Proof.
  destruct (getPitchClasses_members "D" "maj" 2 _ eq_refl eq_refl)
    as (pcs & Hrun & _ & Hrange & Hroot).
  exists pcs. auto.
Defined.

Section TransposeFacts.
Import Music.

Lemma transposePcs_In (pcs : list Z) (semitones pc : Z) :
  pc ∈ transposePcs pcs semitones
  <-> exists p, In p pcs /\ pc = Z.rem (p + semitones + 12) 12.
Proof.
  unfold transposePcs.
  rewrite (fold_union_image (fun p => Z.rem (p + semitones + 12) 12)).
  split; [intros [H|H]; [set_solver|exact H]|auto].
Qed.

Lemma transpose_mod (p semitones : Z) :
  0 <= p -> -12 <= semitones ->
  Z.rem (p + semitones + 12) 12 = (p + semitones) mod 12.
Proof.
  intros Hp Hs. rewrite rem12_nonneg by lia.
  replace (p + semitones + 12) with (p + semitones + 1 * 12) by lia.
  apply Z.mod_add. lia.
Qed.

End TransposeFacts.

(** X8.  For pitch classes in [0, 12) and a transposition of at least -12
    semitones, [transposePcs] gives the residues modulo 12 of pitch class
    plus semitones, all in [0, 12); transposing the result again by [t]
    is transposing once by the sum. *)
Theorem transposePcs_spec (pcs : list Z) (semitones : Z) :
  List.Forall (fun p => 0 <= p < 12) pcs ->
  -12 <= semitones ->
  (forall pc, pc ∈ Music.transposePcs pcs semitones
              <-> exists p, In p pcs /\ pc = (p + semitones) mod 12)
  /\ (forall pc, pc ∈ Music.transposePcs pcs semitones -> 0 <= pc < 12)
  /\ (forall t once,
         -12 <= t -> -12 <= semitones + t ->
         (forall pc, In pc once <-> pc ∈ Music.transposePcs pcs semitones) ->
         Music.transposePcs once t = Music.transposePcs pcs (semitones + t)).
Proof.
  intros Hpcs Hs. rewrite List.Forall_forall in Hpcs.
  assert (Hmem : forall s, -12 <= s -> forall pc,
               pc ∈ Music.transposePcs pcs s
               <-> exists p, In p pcs /\ pc = (p + s) mod 12).
  { intros s Hs' pc. rewrite transposePcs_In. split.
    - intros (p & Hp & ->). exists p. split; [exact Hp|].
      apply transpose_mod; [apply (Hpcs p Hp)|exact Hs'].
    - intros (p & Hp & ->). exists p. split; [exact Hp|].
      symmetry. apply transpose_mod; [apply (Hpcs p Hp)|exact Hs']. }
  split; [exact (Hmem semitones Hs)|]. split.
  - intros pc Hpc. apply (Hmem semitones Hs) in Hpc as (p & _ & ->).
    apply Z.mod_pos_bound. lia.
  - intros t once Ht Hsum Honce. apply set_eq. intros pc.
    rewrite (Hmem (semitones + t) Hsum), transposePcs_In. split.
    + intros (q & Hq & ->). apply Honce, (Hmem semitones Hs) in Hq as (p & Hp & ->).
      exists p. split; [exact Hp|].
      rewrite transpose_mod by (try apply Z.mod_pos_bound; lia).
      rewrite Zplus_mod_idemp_l. f_equal. lia.
    + intros (p & Hp & ->). exists ((p + semitones) mod 12). split.
      * apply Honce, (Hmem semitones Hs). eauto.
      * rewrite transpose_mod by (try apply Z.mod_pos_bound; lia).
        rewrite Zplus_mod_idemp_l. f_equal. lia.
Qed.

Lemma transposePcs_spec_witness :
  10 ∈ Music.transposePcs [0; 4; 7] (-2).
Proof.
  assert (Hpcs : List.Forall (fun p => 0 <= p < 12) [0; 4; 7])
    by (repeat constructor; lia).
  apply (proj1 (transposePcs_spec [0; 4; 7] (-2) Hpcs ltac:(lia))).
  exists 0. split; [left; reflexivity|reflexivity].
Defined.

(** X9.  The pitch classes of a set type in the key [key] are those of the
    same set type in C, transposed by the pitch class of [key]. *)
Theorem getPitchClasses_transposed (key setType : string) (root : Z)
    (inC inKey : gset Z) (elementsInC : list Z) :
  Music.ownProperty Music.NOTE_TO_PC key = Some root ->
  Music.getPitchClasses "C" setType = inr inC ->
  Music.getPitchClasses key setType = inr inKey ->
  (forall pc, In pc elementsInC <-> pc ∈ inC) ->
  Music.transposePcs elementsInC root = inKey.
Proof.
  intros Hkey HC HK Hel.
  pose proof (NOTE_TO_PC_range _ _ Hkey) as Hroot.
  destruct (Music.ownProperty Music.PITCH_CLASS_SETS setType) as [data|] eqn:Hset.
  2:{ unfold Music.getPitchClasses in HK. rewrite Hkey, Hset in HK. discriminate HK. }
  destruct (getPitchClasses_members "C" setType 0 data eq_refl Hset)
    as (pcsC & HrunC & HmemC & HrangeC & _).
  destruct (getPitchClasses_members key setType root data Hkey Hset)
    as (pcsK & HrunK & HmemK & _).
  rewrite HC in HrunC. injection HrunC as <-.
  rewrite HK in HrunK. injection HrunK as <-.
  apply set_eq. intros pc. rewrite transposePcs_In, HmemK. split.
  - intros (p & Hp & ->). apply Hel in Hp. pose proof (HrangeC p Hp) as Hr.
    apply HmemC in Hp as (i & Hi & ->). exists i. split; [exact Hi|].
    rewrite transpose_mod by lia. simpl (0 + i).
    rewrite Zplus_mod_idemp_l. f_equal. lia.
  - intros (i & Hi & ->). exists (i mod 12). split.
    + apply Hel, HmemC. exists i. split; [exact Hi|]. reflexivity.
    + rewrite transpose_mod by (try apply Z.mod_pos_bound; lia).
      rewrite Zplus_mod_idemp_l. f_equal. lia.
Qed.

Lemma getPitchClasses_transposed_witness :
  Music.transposePcs [0; 4; 7] 2 = {[ 2; 6; 9 ]}.
Proof.
  apply (getPitchClasses_transposed "D" "majtriad" 2 {[ 0; 4; 7 ]}).
  - reflexivity.
  - vm_compute. reflexivity.
  - vm_compute. reflexivity.
  - intros pc. simpl. rewrite !elem_of_union, !elem_of_singleton. lia.
Defined.

(** X10.  For pitch classes [a] and [b] in [0, 12), [getInterval(a, b)] lies
    in [0, 12) and leads from [a] to [b]: the residue of [a] plus the
    interval is [b], and transposing [a] by it gives [b].  It is 0 exactly
    when [a] and [b] are equal; otherwise the intervals in the two
    directions add up to 12. *)
Theorem getInterval_spec (a b : Z) :
  0 <= a < 12 -> 0 <= b < 12 ->
  0 <= Music.getInterval a b < 12
  /\ (a + Music.getInterval a b) mod 12 = b
  /\ Music.transposePcs [a] (Music.getInterval a b) = {[ b ]}
  /\ (Music.getInterval a b = 0 <-> a = b)
  /\ (a <> b -> Music.getInterval a b + Music.getInterval b a = 12).
Proof.
  intros Ha Hb.
  assert (Hab : Music.getInterval a b = if a <=? b then b - a else b - a + 12).
  { unfold Music.getInterval. rewrite rem12_nonneg by lia.
    destruct (a <=? b) eqn:Hle.
    - apply Z.leb_le in Hle.
      replace (b - a + 12) with (b - a + 1 * 12) by lia.
      rewrite Z.mod_add by lia. apply Z.mod_small. lia.
    - apply Z.leb_gt in Hle. apply Z.mod_small. lia. }
  assert (Hba : Music.getInterval b a = if b <=? a then a - b else a - b + 12).
  { unfold Music.getInterval. rewrite rem12_nonneg by lia.
    destruct (b <=? a) eqn:Hle.
    - apply Z.leb_le in Hle.
      replace (a - b + 12) with (a - b + 1 * 12) by lia.
      rewrite Z.mod_add by lia. apply Z.mod_small. lia.
    - apply Z.leb_gt in Hle. apply Z.mod_small. lia. }
  assert (Hto : (a + Music.getInterval a b) mod 12 = b).
  { rewrite Hab. destruct (a <=? b) eqn:Hle.
    - replace (a + (b - a)) with b by lia. apply Z.mod_small. lia.
    - replace (a + (b - a + 12)) with (b + 1 * 12) by lia.
      rewrite Z.mod_add by lia. apply Z.mod_small. lia. }
  assert (Hrange : 0 <= Music.getInterval a b < 12).
  { rewrite Hab. destruct (a <=? b) eqn:Hle;
      [apply Z.leb_le in Hle|apply Z.leb_gt in Hle]; lia. }
  split; [exact Hrange|]. split; [exact Hto|]. split; [|split].
  - apply set_eq. intros pc. rewrite transposePcs_In, elem_of_singleton. split.
    + intros (p & [<-|[]] & ->). rewrite transpose_mod by lia. exact Hto.
    + intros ->. exists a. split; [left; reflexivity|].
      rewrite transpose_mod by lia. symmetry. exact Hto.
  - rewrite Hab. destruct (a <=? b) eqn:Hle;
      [apply Z.leb_le in Hle|apply Z.leb_gt in Hle]; lia.
  - intros Hne. rewrite Hab, Hba.
    destruct (a <=? b) eqn:H1; destruct (b <=? a) eqn:H2;
      try apply Z.leb_le in H1; try apply Z.leb_gt in H1;
      try apply Z.leb_le in H2; try apply Z.leb_gt in H2; lia.
Qed.

Lemma getInterval_spec_witness :
  Music.getInterval 7 0 = 5 /\ Music.transposePcs [7] (Music.getInterval 7 0) = {[ 0 ]}.
Proof.
  destruct (getInterval_spec 7 0 ltac:(lia) ltac:(lia)) as (_ & _ & Htr & _).
  split; [reflexivity|exact Htr].
Defined.

Section BinaryFacts.
Import Music.

Lemma toInt32_small (n : Z) : - 2 ^ 31 <= n < 2 ^ 31 -> toInt32 n = n.
Proof. intros H. unfold toInt32. rewrite Z.mod_small; lia. Qed.

Lemma toInt32_bits (n k : Z) :
  0 <= k < 32 -> Z.testbit (toInt32 n) k = Z.testbit n k.
Proof.
  intros Hk.
  rewrite <- (Z.mod_pow2_bits_low (toInt32 n) 32 k) by lia.
  rewrite <- (Z.mod_pow2_bits_low n 32 k) by lia.
  f_equal. unfold toInt32.
  rewrite Zminus_mod, Z.mod_mod by lia.
  rewrite <- Zminus_mod. f_equal. lia.
Qed.

Lemma shiftOne_pow2 (pc : Z) : 0 <= pc < 12 -> shiftOne pc = 2 ^ pc.
Proof.
  intros H. unfold shiftOne. rewrite Z.mod_small by lia.
  rewrite Z.shiftl_1_l. apply toInt32_small.
  assert (0 < 2 ^ pc) by (apply Z.pow_pos_nonneg; lia).
  assert (2 ^ pc < 2 ^ 31) by (apply Z.pow_lt_mono_r; lia). lia.
Qed.

Lemma land_pow2 (x k : Z) :
  0 <= k -> Z.land x (2 ^ k) = if Z.testbit x k then 2 ^ k else 0.
Proof.
  intros Hk. apply Z.bits_inj'. intros n Hn.
  rewrite Z.land_spec, Z.pow2_bits_eqb by lia.
  destruct (Z.testbit x k) eqn:Hx.
  - rewrite Z.pow2_bits_eqb by lia.
    destruct (Z.eqb_spec k n) as [<-|Hne]; [rewrite Hx; reflexivity|].
    apply andb_false_r.
  - rewrite Z.bits_0.
    destruct (Z.eqb_spec k n) as [<-|Hne]; [rewrite Hx; reflexivity|].
    apply andb_false_r.
Qed.

Lemma lor_below (a b n : Z) :
  0 <= n -> 0 <= a < 2 ^ n -> 0 <= b < 2 ^ n -> 0 <= Z.lor a b < 2 ^ n.
Proof.
  intros Hn Ha Hb. split; [apply Z.lor_nonneg; lia|].
  destruct (Z.eq_dec a 0) as [->|Ha0]; [rewrite Z.lor_0_l; lia|].
  destruct (Z.eq_dec b 0) as [->|Hb0]; [rewrite Z.lor_0_r; lia|].
  assert (Hpos : 0 < Z.lor a b).
  { assert (0 <= Z.lor a b) by (apply Z.lor_nonneg; lia).
    destruct (Z.eq_dec (Z.lor a b) 0) as [H0|H0]; [|lia].
    apply Z.lor_eq_0_l in H0. lia. }
  apply Z.log2_lt_pow2; [exact Hpos|].
  rewrite Z.log2_lor by lia.
  apply Z.max_lub_lt; apply Z.log2_lt_pow2; lia.
Qed.

(** The bits of [pcsToBinary]: a bit is set when its position is among the
    pitch classes. *)
Lemma pcsToBinary_fold (pcs : list Z) (binary : Z) :
  List.Forall (fun pc => 0 <= pc < 12) pcs ->
  0 <= binary < 2 ^ 12 ->
  let result :=
    fold_left (fun binary pc => Z.lor (toInt32 binary) (shiftOne pc)) pcs binary in
  0 <= result < 2 ^ 12
  /\ forall k, 0 <= k ->
               Z.testbit result k = Z.testbit binary k || existsb (Z.eqb k) pcs.
Proof.
  revert binary. induction pcs as [|pc pcs IH]; intros binary Hpcs Hb; simpl.
  - split; [exact Hb|]. intros k _. rewrite orb_false_r. reflexivity.
  - inversion Hpcs as [|? ? Hpc Hrest]; subst.
    rewrite toInt32_small by lia. rewrite shiftOne_pow2 by exact Hpc.
    assert (Hbit : 0 <= 2 ^ pc < 2 ^ 12).
    { split; [apply Z.pow_nonneg; lia|apply Z.pow_lt_mono_r; lia]. }
    destruct (IH (Z.lor binary (2 ^ pc)) Hrest (lor_below _ _ 12 ltac:(lia) Hb Hbit))
      as [Hr Hbits].
    split; [exact Hr|]. intros k Hk. rewrite (Hbits k Hk).
    rewrite Z.lor_spec, Z.pow2_bits_eqb by lia.
    rewrite (Z.eqb_sym pc k). rewrite orb_assoc. reflexivity.
Qed.

Lemma fold_filter_union (f : Z -> bool) (l : list Z) (acc : gset Z) (x : Z) :
  x ∈ fold_left (fun (s : gset Z) p => if f p then s ∪ {[ p ]} else s) l acc
  <-> x ∈ acc \/ (In x l /\ f x = true).
Proof.
  revert acc. induction l as [|p l IH]; intros acc; simpl.
  - split; [auto|]. intros [H|[H _]]; [exact H|destruct H].
  - rewrite IH. destruct (f p) eqn:Hp.
    + rewrite elem_of_union, elem_of_singleton. split.
      * intros [ [H | ->] | [H1 H2] ]; auto.
      * intros [H | [ [<- | H1] H2] ]; auto.
    + split.
      * intros [H | [H1 H2] ]; auto.
      * intros [H | [ [<- | H1] H2] ]; auto. congruence.
Qed.

Lemma binaryToPcs_In (binary pc : Z) :
  pc ∈ binaryToPcs binary <-> 0 <= pc < 12 /\ Z.testbit binary pc = true.
Proof.
  unfold binaryToPcs.
  rewrite (fold_filter_union
             (fun pc => negb (Z.land (toInt32 binary) (shiftOne pc) =? 0))).
  rewrite <- list_elem_of_In, elem_of_seqZ. split.
  - intros [H|[Hr Hbit]]; [set_solver|].
    assert (Hpc : 0 <= pc < 12) by lia. split; [exact Hpc|].
    rewrite shiftOne_pow2, land_pow2, toInt32_bits in Hbit by lia.
    destruct (Z.testbit binary pc); [reflexivity|discriminate Hbit].
  - intros [Hpc Hbit]. right. split; [lia|].
    rewrite shiftOne_pow2, land_pow2, toInt32_bits by lia. rewrite Hbit.
    assert (0 < 2 ^ pc) by (apply Z.pow_pos_nonneg; lia).
    destruct (2 ^ pc =? 0) eqn:H0; [apply Z.eqb_eq in H0; lia|reflexivity].
Qed.

End BinaryFacts.

(** X11.  For pitch classes in [0, 12), [pcsToBinary] gives a number from 0
    to 4095 from which [binaryToPcs] recovers the set; in the other
    direction, the pitch classes of [binaryToPcs(binary)] encode to the low
    twelve bits of [binary]. *)
Theorem pcs_binary_round_trip :
  (forall pcs,
      List.Forall (fun pc => 0 <= pc < 12) pcs ->
      0 <= Music.pcsToBinary pcs < 4096
      /\ Music.binaryToPcs (Music.pcsToBinary pcs) = list_to_set pcs)
  /\ (forall binary pcs,
         (forall pc, In pc pcs <-> pc ∈ Music.binaryToPcs binary) ->
         Music.pcsToBinary pcs = binary mod 4096).
Proof.
  split.
  - intros pcs Hpcs.
    destruct (pcsToBinary_fold pcs 0 Hpcs ltac:(lia)) as [Hr Hbits].
    split; [exact Hr|]. apply set_eq. intros pc.
    rewrite binaryToPcs_In, elem_of_list_to_set, list_elem_of_In. split.
    + intros [Hpc Hbit]. unfold Music.pcsToBinary in Hbit.
      rewrite Hbits, Z.bits_0 in Hbit by lia. simpl in Hbit.
      apply existsb_exists in Hbit as (p & Hp & Heq).
      apply Z.eqb_eq in Heq. subst. exact Hp.
    + intros Hin. rewrite List.Forall_forall in Hpcs.
      pose proof (Hpcs pc Hin) as Hpc. split; [exact Hpc|].
      unfold Music.pcsToBinary. rewrite Hbits, Z.bits_0 by lia. simpl.
      apply existsb_exists. exists pc. split; [exact Hin|apply Z.eqb_refl].
  - intros binary pcs Hpcs.
    assert (Hrange : List.Forall (fun pc => 0 <= pc < 12) pcs).
    { apply List.Forall_forall. intros pc Hin.
      apply Hpcs, binaryToPcs_In in Hin. apply Hin. }
    destruct (pcsToBinary_fold pcs 0 Hrange ltac:(lia)) as [_ Hbits].
    apply Z.bits_inj'. intros k Hk. unfold Music.pcsToBinary.
    rewrite Hbits, Z.bits_0 by lia. simpl.
    change 4096 with (2 ^ 12).
    destruct (Z_lt_dec k 12) as [Hlt|Hge].
    + rewrite Z.mod_pow2_bits_low by lia.
      destruct (Z.testbit binary k) eqn:Hbit.
      * apply existsb_exists. exists k. split; [|apply Z.eqb_refl].
        apply Hpcs, binaryToPcs_In. split; [lia|exact Hbit].
      * apply not_true_is_false. intros Hex.
        apply existsb_exists in Hex as (p & Hp & Heq).
        apply Z.eqb_eq in Heq. subst p.
        apply Hpcs, binaryToPcs_In in Hp. destruct Hp as [_ Hp]. congruence.
    + rewrite Z.mod_pow2_bits_high by lia.
      apply not_true_is_false. intros Hex.
      apply existsb_exists in Hex as (p & Hp & Heq).
      apply Z.eqb_eq in Heq. subst p.
      apply Hpcs, binaryToPcs_In in Hp. lia.
Qed.

Lemma pcs_binary_round_trip_witness :
  Music.pcsToBinary [0; 4; 7] = 145
  /\ Music.binaryToPcs (Music.pcsToBinary [0; 4; 7]) = list_to_set [0; 4; 7].
Proof.
  assert (Hpcs : List.Forall (fun pc => 0 <= pc < 12) [0; 4; 7])
    by (repeat constructor; lia).
  split; [reflexivity|].
  exact (proj2 (proj1 pcs_binary_round_trip [0; 4; 7] Hpcs)).
Defined.

(** * Further properties of the chord matcher *)

Section SubsetFacts.
Context {A : Type} (minSize maxSize : nat).

Lemma keep_In (current s : list A) :
  In s (ChordMatcher.keep minSize maxSize current)
  <-> s = current /\ (minSize <= length s <= maxSize)%nat.
Proof.
  unfold ChordMatcher.keep.
  destruct (minSize <=? length current)%nat eqn:H1;
    destruct (length current <=? maxSize)%nat eqn:H2; simpl;
    try apply Nat.leb_le in H1; try apply Nat.leb_le in H2;
    try apply Nat.leb_gt in H1; try apply Nat.leb_gt in H2;
    split; try (intros [<-|[]]; split; [reflexivity|lia]);
    try (intros [-> ?]; first [left; reflexivity | lia]);
    try (intros []).
Qed.

Lemma backtrackLoop_In (rest current s : list A) :
  (length current < maxSize)%nat ->
  In s (ChordMatcher.backtrackLoop minSize maxSize rest current)
  <-> exists t, t <> [] /\ sublist t rest /\ s = current ++ t
                /\ (minSize <= length s <= maxSize)%nat.
Proof.
  revert current. induction rest as [|x rest IH]; intros current Hlen.
  - simpl. split; [intros []|].
    intros (t & Hne & Hsub & _). apply sublist_nil_r in Hsub. contradiction.
  - cbn [ChordMatcher.backtrackLoop]. rewrite !in_app_iff, keep_In.
    assert (Hlen' : length (current ++ [x]) = S (length current))
      by (rewrite length_app; simpl; lia).
    split.
    + intros [[[-> Hsize]|Hin]|Hin].
      * exists [x]. split; [discriminate|]. split; [|auto].
        apply sublist_skip, sublist_nil_l.
      * destruct (length (current ++ [x]) =? maxSize)%nat eqn:Hmax; [destruct Hin|].
        apply Nat.eqb_neq in Hmax.
        apply IH in Hin as (t & Hne & Hsub & -> & Hsize); [|lia].
        exists (x :: t). split; [discriminate|]. split; [apply sublist_skip, Hsub|].
        rewrite <- app_assoc. simpl. split; [reflexivity|].
        rewrite <- app_assoc in Hsize. exact Hsize.
      * apply IH in Hin as (t & Hne & Hsub & -> & Hsize); [|exact Hlen].
        exists t. split; [exact Hne|]. split; [apply sublist_cons, Hsub|auto].
    + intros (t & Hne & Hsub & -> & Hsize).
      apply sublist_cons_r in Hsub as [Hsub|(t' & -> & Hsub)].
      * right. apply IH; [exact Hlen|]. exists t. auto.
      * left. destruct t' as [|y t'].
        -- left. auto.
        -- right.
           assert (Hs : length (current ++ x :: y :: t')
                        = S (S (length current + length t')))
             by (rewrite length_app; simpl; lia).
           destruct (length (current ++ [x]) =? maxSize)%nat eqn:Hmax;
             [apply Nat.eqb_eq in Hmax; lia|].
           apply IH; [apply Nat.eqb_neq in Hmax; lia|].
           exists (y :: t'). split; [discriminate|]. split; [exact Hsub|].
           rewrite <- app_assoc. simpl. auto.
Qed.

End SubsetFacts.

(** X12.  [generateSubsets(arr, minSize, maxSize)] returns exactly the
    sub-sequences of [arr] (elements picked in the order of the array) whose
    size lies between [minSize] and [maxSize]. *)
Theorem generateSubsets_spec {A : Type} (minSize maxSize : nat) (arr s : list A) :
  In s (ChordMatcher.generateSubsets minSize maxSize arr)
  <-> sublist s arr /\ (minSize <= length s <= maxSize)%nat.
Proof.
  unfold ChordMatcher.generateSubsets, ChordMatcher.backtrack.
  rewrite in_app_iff, keep_In. simpl length. split.
  - intros [[-> Hsize]|Hin].
    + split; [apply sublist_nil_l|exact Hsize].
    + destruct (0 =? maxSize)%nat eqn:Hmax; [destruct Hin|].
      apply Nat.eqb_neq in Hmax.
      apply backtrackLoop_In in Hin as (t & _ & Hsub & -> & Hsize); [|simpl; lia].
      auto.
  - intros [Hsub Hsize]. destruct s as [|x s].
    + left. auto.
    + right. simpl in Hsize.
      destruct (0 =? maxSize)%nat eqn:Hmax; [apply Nat.eqb_eq in Hmax; lia|].
      apply backtrackLoop_In; [apply Nat.eqb_neq in Hmax; simpl; lia|].
      exists (x :: s). split; [discriminate|]. auto.
Qed.


Section SortedFacts.
Context {A : Type} (after : A -> A -> bool) (le : A -> A -> Prop) (P : A -> Prop).

Hypothesis le_trans : forall x y z, le x y -> le y z -> le x z.
Hypothesis after_false : forall x y, P x -> P y -> after x y = false -> le x y.
Hypothesis after_true : forall x y, P x -> P y -> after x y = true -> le y x.

Lemma sortInsert_sorted (x : A) (sorted : list A) :
  P x -> List.Forall P sorted ->
  StronglySorted le sorted -> StronglySorted le (sortInsert after x sorted).
Proof.
  intros Hx HP Hs. induction Hs as [|y rest Hrest IH Hy]; simpl.
  - repeat constructor.
  - inversion HP as [|? ? HPy HPrest]; subst.
    destruct (after x y) eqn:Haft.
    + constructor; [apply IH, HPrest|].
      apply List.Forall_forall. intros z Hz.
      apply list_elem_of_In in Hz. rewrite sortInsert_Permutation in Hz.
      apply list_elem_of_In in Hz. destruct Hz as [<-|Hz].
      * apply after_true; assumption.
      * rewrite List.Forall_forall in Hy. apply Hy, Hz.
    + assert (Hxy : le x y) by (apply after_false; assumption).
      constructor; [constructor; assumption|].
      constructor; [exact Hxy|].
      eapply List.Forall_impl; [|exact Hy]. intros z Hz. eapply le_trans; eassumption.
Qed.

Lemma js_sort_sorted (l : list A) :
  List.Forall P l -> StronglySorted le (js_sort after l).
Proof.
  induction l as [|x l IH]; intros HP; simpl; [constructor|].
  inversion HP as [|? ? Hx Hl]; subst.
  apply sortInsert_sorted; [exact Hx| |apply IH, Hl].
  apply List.Forall_forall. intros z Hz.
  apply list_elem_of_In in Hz. rewrite js_sort_Permutation in Hz.
  apply list_elem_of_In in Hz. rewrite List.Forall_forall in Hl. apply Hl, Hz.
Qed.

End SortedFacts.

Section ConsecutiveFacts.
Import ChordMatcher.

Lemma sortedFingers_sorted (positions : list Position) :
  StronglySorted Z.le (sortedFingers positions).
Proof.
  unfold sortedFingers.
  apply (js_sort_sorted (fun a b => 0 <? a - b) Z.le (fun _ => True)).
  - intros x y z. lia.
  - intros x y _ _ H. apply Z.ltb_ge in H. lia.
  - intros x y _ _ H. apply Z.ltb_lt in H. lia.
  - apply List.Forall_forall. auto.
Qed.

Lemma sortedFingers_Permutation (positions : list Position) :
  sortedFingers positions ≡ₚ map finger positions.
Proof. apply js_sort_Permutation. Qed.

Lemma seqZ_head (x : Z) (l : list Z) (m n : Z) :
  x :: l = seqZ m n -> m = x.
Proof.
  destruct (Z_le_gt_dec n 0) as [Hn|Hn].
  - rewrite seqZ_nil by lia. discriminate.
  - rewrite seqZ_cons by lia. intros [= -> _]. reflexivity.
Qed.

Lemma consecutive_run (fingers : list Z) :
  consecutive fingers = true
  <-> exists m, fingers = seqZ m (Z.of_nat (length fingers)).
Proof.
  induction fingers as [|a rest IH].
  - simpl. split; [exists 0; reflexivity|reflexivity].
  - destruct rest as [|b rest].
    + split; [|reflexivity]. intros _. exists a. reflexivity.
    + change (consecutive (a :: b :: rest))
        with ((b =? a + 1) && consecutive (b :: rest)).
      rewrite andb_true_iff, IH, Z.eqb_eq.
      replace (Z.of_nat (length (a :: b :: rest)))
        with (Z.succ (Z.of_nat (length (b :: rest)))) by (simpl length; lia).
      split.
      * intros [-> (m & Hm)]. pose proof (seqZ_head _ _ _ _ Hm) as ->.
        exists a. rewrite seqZ_cons by lia. rewrite Z.pred_succ. f_equal.
        replace (Z.succ a) with (a + 1) by lia. exact Hm.
      * intros (m & Hm). rewrite seqZ_cons in Hm by lia.
        rewrite Z.pred_succ in Hm. injection Hm as Ha Hm. subst m.
        pose proof (seqZ_head _ _ _ _ Hm) as Hb.
        split; [lia|]. exists (Z.succ a). exact Hm.
Qed.

Lemma seqZ_sorted (m n : Z) : StronglySorted Z.le (seqZ m n).
Proof.
  destruct (Z_le_gt_dec n 0) as [Hn|Hn]; [rewrite seqZ_nil by lia; constructor|].
  rewrite <- (Z2Nat.id n) by lia. generalize (Z.to_nat n) as k. clear.
  intros k. revert m. induction k as [|k IH]; intros m.
  - constructor.
  - rewrite Nat2Z.inj_succ, seqZ_cons by lia. rewrite Z.pred_succ.
    constructor; [apply IH|].
    apply List.Forall_forall. intros z Hz.
    apply list_elem_of_In, elem_of_seqZ in Hz. lia.
Qed.

End ConsecutiveFacts.

(** X14.  [usesConsecutiveFingers] holds exactly when the finger numbers of
    the positions, in some order, are a run [m, m + 1, ..., m + n - 1]; the
    order of the positions does not matter. *)
Theorem usesConsecutiveFingers_spec (positions : list ChordMatcher.Position) :
  ChordMatcher.usesConsecutiveFingers positions = true
  <-> exists m, map ChordMatcher.finger positions
                ≡ₚ seqZ m (Z.of_nat (length positions)).
Proof.
  unfold ChordMatcher.usesConsecutiveFingers. rewrite consecutive_run.
  assert (Hlen : length (ChordMatcher.sortedFingers positions) = length positions).
  { rewrite (Permutation_length (sortedFingers_Permutation positions)).
    apply length_map. }
  rewrite Hlen. split.
  - intros (m & Hm). exists m. rewrite <- Hm. symmetry.
    apply sortedFingers_Permutation.
  - intros (m & Hm). exists m.
    apply (StronglySorted_unique Z.le).
    + apply sortedFingers_sorted.
    + apply seqZ_sorted.
    + rewrite sortedFingers_Permutation. exact Hm.
Qed.

Section SpanFacts.
Context {A : Type} (dist : A -> A -> R).
Open Scope R_scope.

(** The loops over [i < j], for any distance: what [PatternExtractor.spanLoop]
    computes from the start value [m]. *)
Lemma fold_Rmax_ge (p : A) (rest : list A) (m : R) :
  m <= fold_left (fun m q => Rmax m (dist p q)) rest m
  /\ forall q, In q rest ->
               dist p q <= fold_left (fun m q => Rmax m (dist p q)) rest m.
Proof.
  revert m. induction rest as [|x rest IH]; intros m; simpl.
  - split; [lra|intros q []].
  - destruct (IH (Rmax m (dist p x))) as [Hge Hall].
    pose proof (Rmax_l m (dist p x)). pose proof (Rmax_r m (dist p x)).
    split; [lra|]. intros q [<-|Hq]; [lra|apply Hall, Hq].
Qed.

Lemma fold_Rmax_attained (p : A) (rest : list A) (m : R) :
  fold_left (fun m q => Rmax m (dist p q)) rest m = m
  \/ exists q, In q rest
               /\ fold_left (fun m q => Rmax m (dist p q)) rest m = dist p q.
Proof.
  revert m. induction rest as [|x rest IH]; intros m; simpl; [auto|].
  destruct (IH (Rmax m (dist p x))) as [H|(q & Hq & H)].
  - rewrite H. unfold Rmax. destruct (Rle_dec m (dist p x)); [|auto].
    right. exists x. auto.
  - right. exists q. auto.
Qed.

Lemma spanLoop_ge (positions : list A) (m : R) :
  m <= PatternExtractor.spanLoop dist positions m.
Proof.
  revert m. induction positions as [|p rest IH]; intros m; simpl; [lra|].
  pose proof (proj1 (fold_Rmax_ge p rest m)).
  pose proof (IH (fold_left (fun m q => Rmax m (dist p q)) rest m)). lra.
Qed.

Lemma spanLoop_pairs (positions : list A) (m : R) (before after_ between : list A)
    (x y : A) :
  positions = before ++ x :: between ++ y :: after_ ->
  dist x y <= PatternExtractor.spanLoop dist positions m.
Proof.
  intros ->. revert m.
  induction before as [|b before IH]; intros m; simpl.
  - pose proof (proj2 (fold_Rmax_ge x (between ++ y :: after_) m) y
                  ltac:(apply in_or_app; right; left; reflexivity)).
    pose proof (spanLoop_ge (between ++ y :: after_)
                  (fold_left (fun m q => Rmax m (dist x q))
                             (between ++ y :: after_) m)).
    lra.
  - apply IH.
Qed.

Lemma spanLoop_attained (positions : list A) (m : R) :
  PatternExtractor.spanLoop dist positions m = m
  \/ exists before x between y after_,
      positions = before ++ x :: between ++ y :: after_
      /\ PatternExtractor.spanLoop dist positions m = dist x y.
Proof.
  revert m. induction positions as [|p rest IH]; intros m; simpl; [auto|].
  destruct (IH (fold_left (fun m q => Rmax m (dist p q)) rest m))
    as [H|(before & x & between & y & after_ & -> & H)].
  - rewrite H. destruct (fold_Rmax_attained p rest m) as [H'|(q & Hq & H')];
      [auto|].
    right. apply in_split in Hq as (l1 & l2 & ->).
    exists [], p, l1, q, l2. split; [reflexivity|exact H'].
  - right. exists (p :: before), x, between, y, after_.
    split; [reflexivity|exact H].
Qed.

End SpanFacts.

Section MatcherSpanFacts.
Import ChordMatcher.
Open Scope R_scope.

Lemma matcher_spanLoop (positions : list Position) (m : R) :
  spanLoop positions m = PatternExtractor.spanLoop distance positions m.
Proof.
  revert m. induction positions as [|p rest IH]; intros m; simpl; [reflexivity|].
  apply IH.
Qed.

Lemma distance_sym (p q : Position) : distance p q = distance q p.
Proof. unfold distance. f_equal. f_equal. lia. Qed.

Lemma distance_self (p : Position) : distance p p = 0.
Proof.
  unfold distance. replace ((col p - col p) * (col p - col p)
                            + (row p - row p) * (row p - row p))%Z with 0%Z by lia.
  apply sqrt_0.
Qed.

Lemma In_two {B : Type} (l : list B) (x y : B) :
  In x l -> In y l ->
  x = y
  \/ (exists before between after_, l = before ++ x :: between ++ y :: after_)
  \/ (exists before between after_, l = before ++ y :: between ++ x :: after_).
Proof.
  induction l as [|z l IH]; intros Hx Hy; [destruct Hx|].
  destruct Hx as [<-|Hx], Hy as [<-|Hy].
  - auto.
  - right. left. apply in_split in Hy as (l1 & l2 & ->). exists [], l1, l2. reflexivity.
  - right. right. apply in_split in Hx as (l1 & l2 & ->). exists [], l1, l2. reflexivity.
  - destruct (IH Hx Hy) as [H|[(b & m & a & ->)|(b & m & a & ->)]]; [auto|..].
    + right. left. exists (z :: b), m, a. reflexivity.
    + right. right. exists (z :: b), m, a. reflexivity.
Qed.

End MatcherSpanFacts.

(** X15.  [calculateSpan] is the largest distance between two of the
    positions: no pair is farther apart than the span, the span is never
    negative, and when there is a position the span is the distance of some
    pair (of a position to itself when there is only one). *)
Theorem calculateSpan_is_max (positions : list ChordMatcher.Position) :
  (0 <= ChordMatcher.calculateSpan positions
   /\ (forall p q, In p positions -> In q positions ->
                   ChordMatcher.distance p q <= ChordMatcher.calculateSpan positions)
   /\ (positions <> [] ->
       exists p q, In p positions /\ In q positions
                   /\ ChordMatcher.calculateSpan positions
                      = ChordMatcher.distance p q))%R.
Proof.
  unfold ChordMatcher.calculateSpan. rewrite matcher_spanLoop.
  pose proof (spanLoop_ge ChordMatcher.distance positions 0) as Hge.
  split; [exact Hge|]. split.
  - intros p q Hp Hq.
    destruct (In_two positions p q Hp Hq)
      as [<-|[(b & m & a & Heq)|(b & m & a & Heq)]].
    + rewrite distance_self. exact Hge.
    + eapply spanLoop_pairs. exact Heq.
    + rewrite distance_sym. eapply spanLoop_pairs. exact Heq.
  - intros Hne.
    destruct (spanLoop_attained ChordMatcher.distance positions 0)
      as [H|(b & x & m & y & a & Heq & H)].
    + destruct positions as [|p rest]; [contradiction|].
      exists p, p. rewrite H, distance_self.
      split; [left; reflexivity|]. split; [left; reflexivity|reflexivity].
    + exists x, y. rewrite H. subst positions. split; [|split; [|reflexivity]].
      * apply in_or_app. right. left. reflexivity.
      * apply in_or_app. right. right. apply in_or_app. right. left. reflexivity.
Qed.

Lemma calculateSpan_is_max_witness :
  exists p q, In p wideFingering /\ In q wideFingering
              /\ ChordMatcher.calculateSpan wideFingering = ChordMatcher.distance p q.
Proof.
  apply (proj2 (proj2 (calculateSpan_is_max wideFingering))). discriminate.
Defined.

(** * Further properties of the scorer *)

Section ErgonomicsFacts.
Import ChordMatcher FingeringScorer.

Lemma includes_In (fingers : list Z) (f : Z) :
  includes fingers f = true <-> In f fingers.
Proof.
  unfold includes. rewrite existsb_exists. split.
  - intros (x & Hx & Heq). apply Z.eqb_eq in Heq. subst. exact Hx.
  - intros H. exists f. split; [exact H|apply Z.eqb_refl].
Qed.

Lemma sortedFingers_length (positions : list Position) :
  length (sortedFingers positions) = length positions.
Proof.
  rewrite (Permutation_length (sortedFingers_Permutation positions)).
  apply length_map.
Qed.

(** A run of fewer than five fingers cannot hold both the thumb and the
    little finger. *)
Lemma run_not_outer (positions : list Position) :
  usesConsecutiveFingers positions = true ->
  (length positions <= 4)%nat ->
  includes (sortedFingers positions) 1 && includes (sortedFingers positions) 5
  = false.
Proof.
  intros Hrun Hlen. apply consecutive_run in Hrun as (m & Hm).
  rewrite sortedFingers_length in Hm.
  apply not_true_is_false. intros H. apply andb_prop in H as [H1 H5].
  apply includes_In in H1, H5. rewrite Hm in H1, H5.
  apply list_elem_of_In, elem_of_seqZ in H1.
  apply list_elem_of_In, elem_of_seqZ in H5. lia.
Qed.

End ErgonomicsFacts.

(** X16.  The ergonomic score is 100, its maximum, exactly for the
    fingerings of three or four positions whose fingers are consecutive. *)
Theorem scoreErgonomics_maximum (positions : list ChordMatcher.Position) :
  FingeringScorer.scoreErgonomics positions = 100
  <-> ChordMatcher.usesConsecutiveFingers positions = true
      /\ (length positions = 3%nat \/ length positions = 4%nat).
Proof.
  unfold FingeringScorer.scoreErgonomics. cbv zeta.
  rewrite sortedFingers_length.
  split.
  - intros H.
    destruct (ChordMatcher.usesConsecutiveFingers positions) eqn:Hrun;
      destruct (Z.of_nat (length positions) =? 3) eqn:H3;
      destruct (Z.of_nat (length positions) =? 4) eqn:H4;
      destruct (Z.of_nat (length positions) =? 5) eqn:H5;
      simpl orb in H; cbv iota in H;
      try apply Z.eqb_eq in H3; try apply Z.eqb_eq in H4;
      try (split; [reflexivity|lia]);
      exfalso;
      repeat match type of H with
             | context [if ?c then _ else _] => destruct c
             end; lia.
  - intros [Hrun Hlen].
    assert (Houter : FingeringScorer.includes (ChordMatcher.sortedFingers positions) 1
                     && FingeringScorer.includes (ChordMatcher.sortedFingers positions) 5
                     = false) by (apply run_not_outer; [exact Hrun|lia]).
    rewrite Hrun, Houter. simpl andb.
    assert (Hcount : (Z.of_nat (length positions) =? 3)
                     || (Z.of_nat (length positions) =? 4) = true).
    { apply orb_true_iff. rewrite !Z.eqb_eq. lia. }
    rewrite Hcount.
    assert (Htwo : (Z.of_nat (length positions) =? 2) = false)
      by (apply Z.eqb_neq; lia).
    rewrite Htwo. simpl. reflexivity.
Qed.

(** X17.  A fingering that is at least as wide, in span and in rows, as
    another never has the higher geometric score. *)
Theorem scoreGeometry_antitone (narrow wide : list ChordMatcher.Position)
    (rowsNarrow rowsWide : Z) :
  (ChordMatcher.calculateSpan narrow <= ChordMatcher.calculateSpan wide)%R ->
  FingeringScorer.rowSpan (map ChordMatcher.row narrow) = FingeringScorer.Rows rowsNarrow ->
  FingeringScorer.rowSpan (map ChordMatcher.row wide) = FingeringScorer.Rows rowsWide ->
  rowsNarrow <= rowsWide ->
  (FingeringScorer.scoreGeometry wide <= FingeringScorer.scoreGeometry narrow)%R.
Proof.
  intros Hspan Hn Hw Hrows. unfold FingeringScorer.scoreGeometry.
  rewrite Hn, Hw.
  assert (Hs : (FingeringScorer.spanScore (ChordMatcher.calculateSpan wide)
                <= FingeringScorer.spanScore (ChordMatcher.calculateSpan narrow))%R).
  { generalize dependent (ChordMatcher.calculateSpan wide).
    generalize (ChordMatcher.calculateSpan narrow). intros s1 s2 Hle.
    unfold FingeringScorer.spanScore.
    destruct (Rle_dec s1 3), (Rle_dec s1 5), (Rle_dec s1 7),
      (Rle_dec s2 3), (Rle_dec s2 5), (Rle_dec s2 7);
      unfold Rmax;
      repeat match goal with
             | |- context [Rle_dec ?a ?b] => destruct (Rle_dec a b)
             end; lra. }
  assert (Hc : FingeringScorer.compactnessScore (FingeringScorer.Rows rowsWide)
               <= FingeringScorer.compactnessScore (FingeringScorer.Rows rowsNarrow)).
  { simpl. destruct (rowsWide <=? 2) eqn:H1; destruct (rowsNarrow <=? 2) eqn:H2;
      try apply Z.leb_le in H1; try apply Z.leb_gt in H1;
      try apply Z.leb_le in H2; try apply Z.leb_gt in H2; lia. }
  apply IZR_le in Hc. lra.
Qed.

Lemma scoreGeometry_antitone_witness :
  (FingeringScorer.scoreGeometry wideFingering
   <= FingeringScorer.scoreGeometry [ChordMatcher.mkPosition 0 0 0 48 1 0])%R.
Proof.
  apply (scoreGeometry_antitone [ChordMatcher.mkPosition 0 0 0 48 1 0] wideFingering 0 3).
  - rewrite calculateSpan_wide. unfold ChordMatcher.calculateSpan. simpl. lra.
  - reflexivity.
  - reflexivity.
  - lia.
Defined.

(** X18.  The ranking is the list of the scored fingerings in
    non-increasing order of score: as many as the input, each the scored
    copy of an input fingering, and no fingering comes before one with a
    higher score. *)
Theorem rankFingeringValues_sorted
    (fingerings : list (ChordMatcher.Fingering (list ChordMatcher.Position))) :
  FingeringScorer.rankFingeringValues fingerings
  ≡ₚ map FingeringScorer.scoreFingering fingerings
  /\ length (FingeringScorer.rankFingeringValues fingerings) = length fingerings
  /\ StronglySorted (fun a b => ChordMatcher.score b <= ChordMatcher.score a)
       (FingeringScorer.rankFingeringValues fingerings).
Proof.
  unfold FingeringScorer.rankFingeringValues. split; [|split].
  - apply js_sort_Permutation.
  - rewrite js_sort_length. apply length_map.
  - apply (js_sort_sorted _ _ (fun _ => True)).
    + intros x y z. lia.
    + intros x y _ _ H. unfold FingeringScorer.scoredAfter in H.
      apply Z.ltb_ge in H. lia.
    + intros x y _ _ H. unfold FingeringScorer.scoredAfter in H.
      apply Z.ltb_lt in H. lia.
    + apply List.Forall_forall. auto.
Qed.

Section RankStoreFacts.
Import ChordMatcher FingeringScorer.

Lemma mapScore_contents (elements : list loc) (h : store) :
  Forall (scorable h) elements ->
  exists scored h',
    mapScore elements h = Some (scored, h')
    /\ preserves h h'
    /\ Forall2 (fun l' l => h !! l' = None
                            /\ exists copy, scoredCopyOf h l copy
                                            /\ h' !! l' = Some (FingeringObject copy))
               scored elements.
Proof.
  revert h. induction elements as [|f rest IH]; intros h Hall.
  - exists [], h. simpl. unfold ret.
    repeat split; [apply preserves_refl|constructor].
  - inversion Hall as [|? ? (o & ps & Hf & Hps) Hrest]; subst.
    destruct (scoreFingeringRef_spec h f o ps Hf Hps) as (l & Hscore & Hl).
    set (h1 := <[l := FingeringObject (withScores o ps)]> h) in *.
    assert (Hp1 : preserves h h1) by (apply preserves_insert_fresh, Hl).
    destruct (IH h1) as (scored & h' & Hmap & Hp & Hcontents).
    { eapply Forall_impl; [exact Hrest|].
      intros l0. apply scorable_preserves, Hp1. }
    exists (l :: scored), h'. simpl. unfold bind, ret.
    rewrite Hscore, Hmap. repeat split.
    + eapply preserves_trans; eassumption.
    + constructor.
      * split; [exact Hl|]. exists (withScores o ps). split.
        -- exists o, ps. auto.
        -- apply Hp. apply lookup_insert_eq.
      * clear - Hcontents Hp1 Hrest Hl.
        induction Hcontents as [|l' l0 ls' ls (Hfresh & copy & Hcopy & Hl') _ IHc];
          constructor.
        -- split; [eapply preserves_fresh; eassumption|].
           exists copy. split; [|exact Hl'].
           destruct Hcopy as (o0 & ps0 & Ho & Hps0 & ->).
           inversion Hrest as [|? ? (o1 & ps1 & Ho1 & Hps1) Hrest']; subst.
           unfold h1 in Ho. rewrite lookup_insert_ne in Ho by congruence.
           rewrite Ho1 in Ho. injection Ho as <-.
           unfold h1 in Hps0. rewrite lookup_insert_ne in Hps0 by congruence.
           exists o1, ps0. auto.
        -- inversion Hrest; subst. apply IHc. assumption.
Qed.

Lemma readAll_contents (elements : list loc) (h : store)
    (objects : list (loc * Fingering loc)) (h' : store) :
  readAll elements h = Some (objects, h') ->
  h' = h /\ map fst objects = elements
  /\ List.Forall (fun e => h !! fst e = Some (FingeringObject (snd e))) objects.
Proof.
  revert objects h'. induction elements as [|l rest IH]; intros objects h'; simpl.
  - unfold ret. intros [= <- <-]. repeat split. constructor.
  - unfold bind, readFingering, ret.
    destruct (h !! l) as [[o| |]|] eqn:Hl; try discriminate.
    destruct (readAll rest h) as [[objs h1]|] eqn:Hread; [|discriminate].
    destruct (IH objs h1 eq_refl) as (-> & Hfst & Hall).
    intros [= <- <-]. simpl. rewrite Hfst. repeat split.
    constructor; [exact Hl|exact Hall].
Qed.

Lemma scored_are_objects (h h1 : store) (mapped elements : list loc) :
  Forall2 (fun l' l => h !! l' = None
                       /\ exists copy, scoredCopyOf h l copy
                                       /\ h1 !! l' = Some (FingeringObject copy))
          mapped elements ->
  Forall (fun l' => exists o, h1 !! l' = Some (FingeringObject o)) mapped.
Proof.
  induction 1 as [|l' l ls' ls (_ & copy & _ & Hl') _ IH]; constructor.
  - exists copy. exact Hl'.
  - exact IH.
Qed.

Lemma copies_of_objects (h h1 h2 : store) (mapped elements : list loc)
    (objects : list (loc * Fingering loc)) :
  Forall2 (fun l' l => h !! l' = None
                       /\ exists copy, scoredCopyOf h l copy
                                       /\ h1 !! l' = Some (FingeringObject copy))
          mapped elements ->
  preserves h1 h2 ->
  map fst objects = mapped ->
  List.Forall (fun e => h2 !! fst e = Some (FingeringObject (snd e))) objects ->
  Forall2 (scoredCopyOf h) elements (map snd objects).
Proof.
  intros Hcontents Hp2. revert objects.
  induction Hcontents as [|l' l ls' ls (Hfresh & copy & Hcopy & Hl') _ IH];
    intros objects Hfst Hobjs.
  - destruct objects; [constructor|discriminate].
  - destruct objects as [|[l0 o0] objects]; [discriminate|].
    simpl in Hfst. injection Hfst as -> Hfst.
    inversion Hobjs as [|? ? Ho Hrest]; subst. simpl in Ho.
    apply Hp2 in Hl'. rewrite Hl' in Ho. injection Ho as <-.
    simpl. constructor; [exact Hcopy|apply IH; [reflexivity|assumption]].
Qed.

End RankStoreFacts.

(** X19.  On a store where the argument is an array of fingering objects,
    [rankFingerings] returns an array of objects in non-increasing order of
    score, and these objects are, up to the order, the scored copies of the
    objects of the input array. *)
Theorem rankFingerings_sorted
    (h : FingeringScorer.store) (fingerings : FingeringScorer.loc) :
  FingeringScorer.wellFormed h fingerings ->
  exists ranked h' objects elements copies,
    FingeringScorer.rankFingerings fingerings h = Some (ranked, h')
    /\ h' !! ranked = Some (FingeringScorer.FingeringArray (map fst objects))
    /\ List.Forall (fun e => h' !! fst e
                             = Some (FingeringScorer.FingeringObject (snd e)))
                   objects
    /\ StronglySorted
         (fun a b => ChordMatcher.score (snd b) <= ChordMatcher.score (snd a))
         objects
    /\ h !! fingerings = Some (FingeringScorer.FingeringArray elements)
    /\ Forall2 (scoredCopyOf h) elements copies
    /\ map snd objects ≡ₚ copies.
Proof.
  intros (elements & Harr & Hall).
  destruct (mapScore_contents elements h Hall)
    as (mapped & h1 & Hmap & Hp1 & Hcontents).
  destruct (alloc_fresh (FingeringScorer.FingeringArray mapped) h1)
    as (arr & Halloc & Harr1).
  set (h2 := <[arr := FingeringScorer.FingeringArray mapped]> h1) in *.
  assert (Hp2 : preserves h1 h2) by (apply preserves_insert_fresh, Harr1).
  destruct (readAll_spec mapped h2) as (objects & Hread & Hfst).
  { eapply Forall_impl; [exact (scored_are_objects _ _ _ _ Hcontents)|].
    intros l [o Ho]. exists o. apply Hp2, Ho. }
  destruct (readAll_contents _ _ _ _ Hread) as (_ & _ & Hobjs).
  set (sorted := js_sort (fun a b => FingeringScorer.scoredAfter (snd a) (snd b))
                         objects).
  assert (Hperm : sorted ≡ₚ objects) by apply js_sort_Permutation.
  exists arr, (<[arr := FingeringScorer.FingeringArray (map fst sorted)]> h2),
    sorted, elements, (map snd objects).
  split; [|split; [|split; [|split; [|split; [|split]]]]].
  - unfold FingeringScorer.rankFingerings, FingeringScorer.bind,
      FingeringScorer.readArray.
    rewrite Harr, Hmap, Halloc.
    unfold FingeringScorer.sortByScore, FingeringScorer.bind,
      FingeringScorer.readArray, FingeringScorer.write, FingeringScorer.ret.
    fold h2. unfold h2 at 1. rewrite lookup_insert_eq. rewrite Hread.
    unfold h2 at 1. rewrite lookup_insert_eq. reflexivity.
  - apply lookup_insert_eq.
  - apply List.Forall_forall. intros e He.
    apply list_elem_of_In in He. rewrite Hperm in He. apply list_elem_of_In in He.
    rewrite List.Forall_forall in Hobjs. pose proof (Hobjs e He) as Hl.
    rewrite lookup_insert_ne; [exact Hl|].
    intros Heq. rewrite <- Heq in Hl. unfold h2 in Hl.
    rewrite lookup_insert_eq in Hl. discriminate Hl.
  - apply (js_sort_sorted _ _ (fun _ => True)).
    + intros x y z. lia.
    + intros x y _ _ H. unfold FingeringScorer.scoredAfter in H.
      apply Z.ltb_ge in H. lia.
    + intros x y _ _ H. unfold FingeringScorer.scoredAfter in H.
      apply Z.ltb_lt in H. lia.
    + apply List.Forall_forall. auto.
  - exact Harr.
  - exact (copies_of_objects _ _ _ _ _ _ Hcontents Hp2 Hfst Hobjs).
  - unfold sorted. rewrite js_sort_Permutation. reflexivity.
Qed.

Lemma rankFingerings_sorted_witness :
  exists ranked h' (objects : list (nat * ChordMatcher.Fingering nat)),
    FingeringScorer.rankFingerings 0%nat sampleStore = Some (ranked, h')
    /\ h' !! ranked = Some (FingeringScorer.FingeringArray (map fst objects))
    /\ length objects = 1%nat.
Proof.
  assert (Hwf : FingeringScorer.wellFormed sampleStore 0%nat).
  { exists [1%nat]. split; [reflexivity|].
    constructor; [|constructor].
    eexists _, wideFingering. split; reflexivity. }
  destruct (rankFingerings_sorted sampleStore 0%nat Hwf)
    as (ranked & h' & objects & elements & copies & Hrun & Hres & _ & _ & Harr
        & Hcopies & Hperm).
  exists ranked, h', objects. split; [exact Hrun|]. split; [exact Hres|].
  assert (Hel : elements = [1%nat]).
  { assert (Hs : sampleStore !! 0%nat = Some (FingeringScorer.FingeringArray [1%nat]))
      by reflexivity.
    rewrite Hs in Harr. injection Harr as <-. reflexivity. }
  subst elements.
  rewrite <- (length_map snd), (Permutation_length Hperm).
  symmetry. exact (Forall2_length _ _ _ Hcopies).
Defined.

(** * Further properties of the synthesizer *)

Section CombinationFacts.
Import FingeringSynthesizer.

Lemma searchedCells_In (row col : Z) :
  In (row, col) (searchedCells 5) ->
  0 <= row <= 5 /\ Grid.validPosition row col.
Proof.
  unfold searchedCells. intros H.
  apply in_flat_map in H as (r & Hr & H).
  apply in_map_iff in H as (c & [= <- <-] & Hc).
  apply list_elem_of_In, elem_of_seqZ in Hr.
  apply list_elem_of_In, elem_of_seqZ in Hc.
  unfold Grid.validPosition, Grid.ROW_COUNT, Grid.getRowLength.
  split; [lia|]. split; [lia|].
  destruct (Z.rem r 2 =? 0); simpl in Hc; lia.
Qed.

Lemma collect_In (mode : Grid.GridMode) (baseMidi k : Z) (cells : list (Z * Z))
    (p : Pad) :
  In p (collect mode baseMidi k cells) ->
  In (row p, col p) cells
  /\ Grid.getPadIndex mode (row p) (col p) = Some (padIndex p)
  /\ midiNote p = baseMidi + padIndex p
  /\ pc p = Music.midiToPitchClass (midiNote p)
  /\ pc p = k.
Proof.
  unfold collect. intros H. apply in_flat_map in H as ([r c] & Hcell & H).
  simpl in H.
  destruct (Grid.getPadIndex mode r c) as [idx|] eqn:Hidx; [|destruct H].
  destruct (Music.midiToPitchClass (baseMidi + idx) =? k) eqn:Hk; [|destruct H].
  apply Z.eqb_eq in Hk. destruct H as [<-|[]]. simpl. auto.
Qed.

Lemma In_take {B : Type} (n : nat) (l : list B) (x : B) :
  In x (take n l) -> In x l.
Proof.
  intros H. apply list_elem_of_In. apply list_elem_of_In in H.
  eapply subseteq_take. exact H.
Qed.

Lemma generateCombos_In (entries : PadMap) (current combo : list Pad) :
  In combo (generateCombos entries current) ->
  exists picks,
    combo = current ++ picks
    /\ Forall2 (fun p e => In p (snd e)) picks entries.
Proof.
  revert current. induction entries as [|[k pads] rest IH]; intros current; simpl.
  - intros [<-|[]]. exists []. split; [symmetry; apply app_nil_r|constructor].
  - intros H. apply in_flat_map in H as (p & Hp & H).
    apply IH in H as (picks & -> & Hpicks).
    exists (p :: picks). split; [rewrite <- app_assoc; reflexivity|].
    constructor; [exact (In_take _ _ _ Hp)|exact Hpicks].
Qed.

Lemma length_flat_map_le {B C : Type} (f : B -> list C) (l : list B) (n : nat) :
  (forall x, In x l -> length (f x) <= n)%nat ->
  (length (flat_map f l) <= length l * n)%nat.
Proof.
  induction l as [|x l IH]; intros H; simpl; [lia|].
  rewrite length_app.
  pose proof (H x (or_introl eq_refl)).
  pose proof (IH (fun y Hy => H y (or_intror Hy))). lia.
Qed.

Lemma generateCombos_length (entries : PadMap) (current : list Pad) :
  (length (generateCombos entries current) <= 3 ^ length entries)%nat.
Proof.
  revert current. induction entries as [|[k pads] rest IH]; intros current; simpl.
  - lia.
  - pose proof (length_flat_map_le
                  (fun pad => generateCombos rest (current ++ [pad]))
                  (take 3 pads) (3 ^ length rest)
                  (fun x _ => IH (current ++ [x]))) as H.
    pose proof (length_take pads 3) as Htake.
    assert (length (take 3 pads) <= 3)%nat as Hle by lia.
    etransitivity; [exact H|].
    change (length (take 3 pads) * 3 ^ length rest <= 3 * 3 ^ length rest)%nat.
    apply Nat.mul_le_mono_r. exact Hle.
Qed.

End CombinationFacts.

(** X20.  The combinations of [findPadCombinations] follow the distinct
    pitch classes of the target in the order of their first occurrence:
    every combination has one pad per such pitch class, in this order, each
    a position of the rows 0 to 5 whose note above [baseMidi] has this pitch
    class; and there are at most 3 to the power of their number. *)
Theorem findPadCombinations_sound
    (mode : Grid.GridMode) (targetPitchClasses : list Z) (baseMidi : Z) :
  exists pcKeys,
    NoDup pcKeys
    /\ (forall k, In k pcKeys <-> In k targetPitchClasses)
    /\ (length (FingeringSynthesizer.findPadCombinations mode targetPitchClasses baseMidi)
        <= 3 ^ length pcKeys)%nat
    /\ forall combo,
        In combo (FingeringSynthesizer.findPadCombinations mode targetPitchClasses
                    baseMidi) ->
        map FingeringSynthesizer.pc combo = pcKeys
        /\ List.Forall (searchedPad mode baseMidi) combo.
Proof.
  destruct (findPadCombinations_eq mode targetPitchClasses baseMidi)
    as (initial & Hnd & Hkeys & ->).
  exists (keys initial). split; [exact Hnd|]. split; [exact Hkeys|]. split.
  - etransitivity; [apply generateCombos_length|].
    rewrite length_map. unfold keys. rewrite length_map. reflexivity.
  - intros combo Hcombo.
    apply generateCombos_In in Hcombo as (picks & -> & Hpicks). simpl.
    unfold keys. clear Hnd Hkeys.
    revert picks Hpicks.
    induction initial as [|[k v] initial IH]; intros picks Hpicks;
      cbn [map fst] in Hpicks |- *.
    + apply Forall2_nil_inv_r in Hpicks as ->.
      split; [reflexivity|constructor].
    + apply Forall2_cons_inv_r in Hpicks as (p & picks' & Hp & Hrest & ->).
      cbn [snd] in Hp.
      apply collect_In in Hp as (Hcell & Hidx & Hnote & Hpc & Hk).
      apply searchedCells_In in Hcell as [Hrow Hvalid].
      destruct (IH picks' Hrest) as [Hmap Hall].
      split; [cbn [map fst]; rewrite Hk, Hmap; reflexivity|].
      constructor; [|exact Hall]. unfold searchedPad. auto.
Qed.

Lemma findPadCombinations_sound_witness :
  exists pcKeys,
    (forall k, In k pcKeys <-> In k [0; 4; 7])
    /\ (length (FingeringSynthesizer.findPadCombinations Grid.Intervals
                   [0; 4; 7]%Z 48%Z)
        <= 3 ^ length pcKeys)%nat.
Proof.
  destruct (findPadCombinations_sound Grid.Intervals [0; 4; 7] 48)
    as (pcKeys & _ & Hkeys & Hlen & _).
  exists pcKeys. split; [exact Hkeys|exact Hlen].
Defined.

Section AssignFacts.
Import FingeringSynthesizer.

Lemma assignFrom_pads hand patterns (index : Z) (sortedPads : list Pad) :
  map pad (assignFrom hand patterns index sortedPads) = sortedPads.
Proof.
  revert index. induction sortedPads as [|p rest IH]; intros index; simpl;
    [reflexivity|]. rewrite IH. reflexivity.
Qed.

Lemma assignFrom_hand hand patterns (index : Z) (sortedPads : list Pad) :
  List.Forall (fun p => FingeringSynthesizer.hand p = hand)
              (assignFrom hand patterns index sortedPads).
Proof.
  revert index. induction sortedPads as [|p rest IH]; intros index; simpl;
    constructor; [reflexivity|apply IH].
Qed.

Lemma assignFrom_sequential hand (index : Z) (sortedPads : list Pad) :
  map finger (assignFrom hand None index sortedPads)
  = map (fun i => Z.min (i + 1) 5) (seqZ index (Z.of_nat (length sortedPads))).
Proof.
  revert index. induction sortedPads as [|p rest IH]; intros index.
  - reflexivity.
  - rewrite seqZ_cons by (simpl; lia).
    cbn [assignFrom map or_elseZ finger]. rewrite IH.
    replace (Z.pred (Z.of_nat (length (p :: rest))))
      with (Z.of_nat (length rest)) by (simpl; lia).
    replace (Z.succ index) with (index + 1) by lia. reflexivity.
Qed.

Lemma assignFingers_eq (pads : list Pad) hand patterns :
  assignFingers pads hand patterns
  = assignFrom hand patterns 0 (js_sort (padAfter hand) pads).
Proof. destruct pads; reflexivity. Qed.

Lemma assignFingers_pads (pads : list Pad) hand patterns :
  map pad (assignFingers pads hand patterns) ≡ₚ pads.
Proof.
  rewrite assignFingers_eq, assignFrom_pads. apply js_sort_Permutation.
Qed.

End AssignFacts.

(** X21.  [assignFingers] keeps the pads it is given and puts them in
    playing order: the positions hold the same pads, sorted bottom row
    first and within a row in the direction of the hand, all for the given
    hand, whatever the patterns; without patterns the fingers are 1, 2, 3,
    ... in this order, capped at 5. *)
Theorem assignFingers_order (pads : list FingeringSynthesizer.Pad) (hand : Hand)
    (patterns : option PatternExtractor.Patterns) :
  map FingeringSynthesizer.pad (FingeringSynthesizer.assignFingers pads hand patterns)
  ≡ₚ pads
  /\ StronglySorted (padBefore hand)
       (map FingeringSynthesizer.pad
            (FingeringSynthesizer.assignFingers pads hand patterns))
  /\ List.Forall (fun p => FingeringSynthesizer.hand p = hand)
       (FingeringSynthesizer.assignFingers pads hand patterns)
  /\ map FingeringSynthesizer.finger
         (FingeringSynthesizer.assignFingers pads hand None)
     = map (fun i => Z.min (i + 1) 5) (seqZ 0 (Z.of_nat (length pads))).
Proof.
  split; [apply assignFingers_pads|]. split; [|split].
  - rewrite assignFingers_eq, assignFrom_pads.
    apply (js_sort_sorted _ _ (fun _ => True)).
    + unfold padBefore. intros x y z. destruct hand; lia.
    + intros x y _ _ H. unfold FingeringSynthesizer.padAfter in H.
      unfold padBefore.
      destruct (FingeringSynthesizer.row x =? FingeringSynthesizer.row y) eqn:Hrow;
        simpl in H.
      * apply Z.eqb_eq in Hrow. destruct hand; apply Z.ltb_ge in H; lia.
      * apply Z.eqb_neq in Hrow. apply Z.ltb_ge in H. lia.
    + intros x y _ _ H. unfold FingeringSynthesizer.padAfter in H.
      unfold padBefore.
      destruct (FingeringSynthesizer.row x =? FingeringSynthesizer.row y) eqn:Hrow;
        simpl in H.
      * apply Z.eqb_eq in Hrow. destruct hand; apply Z.ltb_lt in H; lia.
      * apply Z.eqb_neq in Hrow. apply Z.ltb_lt in H. lia.
    + apply List.Forall_forall. auto.
  - rewrite assignFingers_eq. apply assignFrom_hand.
  - rewrite assignFingers_eq, assignFrom_sequential, js_sort_length. reflexivity.
Qed.

Section CandidateFacts.
Import FingeringSynthesizer.

Lemma synthesizeFingerings_In mode target handprints base hand maxSuggestions f :
  In f (synthesizeFingerings mode target handprints base hand maxSuggestions) ->
  exists combo,
    In combo (findPadCombinations mode target base)
    /\ f = {| f_hand := hand;
              baseMidi := base;
              positions :=
                assignFingers combo hand
                  (PatternExtractor.extractPatterns handprints (Some hand));
              targetPitchClasses := target;
              score :=
                scoreFingering
                  (assignFingers combo hand
                     (PatternExtractor.extractPatterns handprints (Some hand)))
                  (PatternExtractor.extractPatterns handprints (Some hand)) |}.
Proof.
  unfold synthesizeFingerings.
  destruct (findPadCombinations mode target base) as [|combo combos] eqn:Hc;
    [intros []|].
  intros H. apply slice0_In in H.
  apply list_elem_of_In in H. rewrite js_sort_Permutation in H.
  apply list_elem_of_In in H. apply in_map_iff in H as (c & <- & Hin).
  exists c. split; [exact Hin|reflexivity].
Qed.

Lemma scoreFingering_bounds_synth (positions : list Position) patterns :
  positions <> [] ->
  exists s, scoreFingering positions patterns = Some s /\ (0 <= s <= 100)%R.
Proof.
  intros Hne. unfold scoreFingering.
  destruct positions as [|p rest]; [contradiction|].
  eexists. split; [reflexivity|].
  match goal with |- (0 <= Rmin 100 (Rmax 0 ?x) <= 100)%R =>
    generalize x; intros x' end.
  pose proof (Rmax_l 0 x'). pose proof (Rmin_l 100 (Rmax 0 x')).
  split; [|lra]. apply Rmin_glb; lra.
Qed.

End CandidateFacts.

(** X22.  Every candidate of [synthesizeFingerings] plays the target
    exactly, whatever the handprints: its pads are those of one combination
    of the search, one pad per distinct pitch class of the target, so the
    set of the pitch classes of its pads is the target set and no pitch
    class is doubled; each pad is a position of the rows 0 to 5 with its
    note above [baseMidi]; hand, base note and target are recorded as
    given. *)
Theorem synthesizeFingerings_exact
    (mode : Grid.GridMode) (targetPitchClasses : list Z)
    (handprints : list Handprint.t) (baseMidi : Z) (hand : Hand)
    (maxSuggestions : Z) (f : FingeringSynthesizer.Fingering) :
  In f (FingeringSynthesizer.synthesizeFingerings mode targetPitchClasses
          handprints baseMidi hand maxSuggestions) ->
  let pads := map FingeringSynthesizer.pad (FingeringSynthesizer.positions f) in
  (list_to_set (map FingeringSynthesizer.pc pads) : gset Z)
  = list_to_set targetPitchClasses
  /\ NoDup (map FingeringSynthesizer.pc pads)
  /\ List.Forall (searchedPad mode baseMidi) pads
  /\ FingeringSynthesizer.f_hand f = hand
  /\ FingeringSynthesizer.baseMidi f = baseMidi
  /\ FingeringSynthesizer.targetPitchClasses f = targetPitchClasses.
Proof.
  intros Hin pads.
  apply synthesizeFingerings_In in Hin as (combo & Hcombo & ->).
  destruct (findPadCombinations_sound mode targetPitchClasses baseMidi)
    as (pcKeys & Hnd & Hkeys & _ & Hsound).
  destruct (Hsound combo Hcombo) as [Hmap Hall].
  assert (pads ≡ₚ combo) as Hperm by apply assignFingers_pads.
  split; [|split; [|split; [|auto]]].
  - apply set_eq. intros k. rewrite !elem_of_list_to_set.
    rewrite Hperm, Hmap. rewrite !list_elem_of_In. apply Hkeys.
  - apply NoDup_ListNoDup. rewrite Hperm, Hmap.
    apply NoDup_ListNoDup. exact Hnd.
  - apply List.Forall_forall. intros p Hp.
    rewrite List.Forall_forall in Hall. apply Hall.
    apply list_elem_of_In. rewrite <- Hperm. apply list_elem_of_In. exact Hp.
Qed.

Lemma synthesizeFingerings_exact_witness :
  exists f,
    In f (FingeringSynthesizer.synthesizeFingerings Grid.Intervals [0; 4; 7] []
            48 RightHand 5)
    /\ (list_to_set (map FingeringSynthesizer.pc
                         (map FingeringSynthesizer.pad
                              (FingeringSynthesizer.positions f))) : gset Z)
       = list_to_set [0; 4; 7].
Proof.
  pose proof (synthesizeFingerings_length Grid.Intervals [0; 4; 7] [] 48
                RightHand 5 ltac:(lia)) as Hlen.
  assert (FingeringSynthesizer.findPadCombinations Grid.Intervals [0; 4; 7] 48
          <> []) as Hne
    by (apply findPadCombinations_nonempty; repeat constructor; lia).
  destruct (FingeringSynthesizer.synthesizeFingerings Grid.Intervals [0; 4; 7] []
              48 RightHand 5) as [|f rest] eqn:Hs.
  - exfalso. apply Hne. apply length_zero_iff_nil.
    cbn [length] in Hlen.
    destruct (length (FingeringSynthesizer.findPadCombinations Grid.Intervals
                        [0; 4; 7] 48)); [reflexivity|lia].
  - exists f. split; [left; reflexivity|].
    refine (proj1 (synthesizeFingerings_exact Grid.Intervals [0; 4; 7] [] 48
                     RightHand 5 f _)).
    rewrite Hs. left. reflexivity.
Defined.

(** X23.  For a target that is not empty, every candidate of
    [synthesizeFingerings] has a score that is a number between 0 and 100,
    the candidates are returned best first (no candidate comes before one
    with a higher score), and there are at most [maxSuggestions] of them. *)
Theorem synthesizeFingerings_ranked
    (mode : Grid.GridMode) (targetPitchClasses : list Z)
    (handprints : list Handprint.t) (baseMidi : Z) (hand : Hand)
    (maxSuggestions : Z) :
  targetPitchClasses <> [] ->
  0 <= maxSuggestions ->
  let result :=
    FingeringSynthesizer.synthesizeFingerings mode targetPitchClasses handprints
      baseMidi hand maxSuggestions in
  List.Forall (fun f => exists s, FingeringSynthesizer.score f = Some s
                                  /\ (0 <= s <= 100)%R) result
  /\ StronglySorted scoreAtLeast result
  /\ (Z.of_nat (length result) <= maxSuggestions).
Proof.
  intros Htarget Hmax result.
  assert (forall combo,
             In combo (FingeringSynthesizer.findPadCombinations mode
                         targetPitchClasses baseMidi) ->
             forall patterns,
               exists s,
                 FingeringSynthesizer.scoreFingering
                   (FingeringSynthesizer.assignFingers combo hand patterns) patterns
                 = Some s /\ (0 <= s <= 100)%R) as Hscore.
  { intros combo Hcombo patterns. apply scoreFingering_bounds_synth.
    destruct (findPadCombinations_sound mode targetPitchClasses baseMidi)
      as (pcKeys & _ & Hkeys & _ & Hsound).
    destruct (Hsound combo Hcombo) as [Hmap _].
    intros Hnil.
    pose proof (Permutation_length
                  (assignFingers_pads combo hand patterns)) as Hlen.
    rewrite Hnil in Hlen. simpl in Hlen.
    destruct combo; [|discriminate Hlen].
    simpl in Hmap. subst pcKeys.
    destruct targetPitchClasses as [|k rest]; [contradiction|].
    exact (proj2 (Hkeys k) (or_introl eq_refl)). }
  split; [|split].
  - apply List.Forall_forall. intros f Hf.
    apply synthesizeFingerings_In in Hf as (combo & Hcombo & ->).
    apply Hscore, Hcombo.
  - subst result. unfold FingeringSynthesizer.synthesizeFingerings.
    destruct (FingeringSynthesizer.findPadCombinations mode targetPitchClasses
                baseMidi) as [|combo combos] eqn:Hc; [constructor|].
    rewrite <- Hc. unfold FingeringSynthesizer.slice0.
    destruct (maxSuggestions <? 0) eqn:Hneg; [apply Z.ltb_lt in Hneg; lia|].
    match goal with |- StronglySorted _ (take ?n ?l) =>
      apply (StronglySorted_app_1_l _ (take n l) (drop n l));
      rewrite take_drop end.
    apply (js_sort_sorted _ _
             (fun f => exists s, FingeringSynthesizer.score f = Some s)).
    + unfold scoreAtLeast. intros x y z.
      destruct (FingeringSynthesizer.score x), (FingeringSynthesizer.score y),
        (FingeringSynthesizer.score z); try tauto. lra.
    + intros x y [sx Hx] [sy Hy] H.
      unfold FingeringSynthesizer.scoredAfter in H. unfold scoreAtLeast.
      rewrite Hx, Hy in *. destruct (Rlt_dec sx sy); [discriminate H|lra].
    + intros x y [sx Hx] [sy Hy] H.
      unfold FingeringSynthesizer.scoredAfter in H. unfold scoreAtLeast.
      rewrite Hx, Hy in *. destruct (Rlt_dec sx sy); [lra|discriminate H].
    + apply List.Forall_forall. intros f Hf.
      apply in_map_iff in Hf as (c & <- & Hin). simpl.
      rewrite Hc in Hin.
      destruct (Hscore c Hin
                  (PatternExtractor.extractPatterns handprints (Some hand)))
        as (s & Hs & _).
      exists s. exact Hs.
  - subst result.
    rewrite synthesizeFingerings_length by exact Hmax. lia.
Qed.

Lemma synthesizeFingerings_ranked_witness :
  StronglySorted scoreAtLeast
    (FingeringSynthesizer.synthesizeFingerings Grid.Intervals [0; 4; 7] [] 48
       RightHand 5).
Proof.
  refine (proj1 (proj2 (synthesizeFingerings_ranked Grid.Intervals [0; 4; 7] []
                          48 RightHand 5 _ _))).
  - intros H. discriminate H.
  - lia.
Defined.

(** * Properties of the pattern extractor *)

Section ShapeFacts.
Import PatternExtractor.

Lemma StronglySorted_map {B C : Type} (f : B -> C) (R1 : B -> B -> Prop)
    (R2 : C -> C -> Prop) (l : list B) :
  (forall x y, R1 x y -> R2 (f x) (f y)) ->
  StronglySorted R1 l -> StronglySorted R2 (map f l).
Proof.
  intros Hf Hs. induction Hs as [|x l Hl IH Hx]; simpl; constructor;
    [exact IH|].
  apply List.Forall_forall. intros y Hy.
  apply in_map_iff in Hy as (z & <- & Hz).
  rewrite List.Forall_forall in Hx. apply Hf, Hx, Hz.
Qed.

Lemma extractChordShape_eq (handprint : Handprint.t) :
  (3 <= length (Handprint.positions handprint))%nat ->
  exists anchor rest,
    js_sort (fun a b => 0 <? Handprint.finger a - Handprint.finger b)
            (Handprint.positions handprint) = anchor :: rest
    /\ extractChordShape handprint
       = Some {| numFingers := length (Handprint.positions handprint);
                 fingers := map Handprint.finger (anchor :: rest);
                 geometry :=
                   map (fun pos =>
                          {| rel_finger := Handprint.finger pos;
                             rowOffset := Handprint.row pos - Handprint.row anchor;
                             colOffset := Handprint.col pos - Handprint.col anchor;
                             rel_distance :=
                               sqrt (IZR ((Handprint.row pos - Handprint.row anchor) ^ 2
                                          + (Handprint.col pos - Handprint.col anchor) ^ 2)) |})
                       (anchor :: rest);
                 comfort := or_elseR (Handprint.comfortRating handprint) 50 |}.
Proof.
  intros Hlen. unfold extractChordShape.
  destruct (length (Handprint.positions handprint) <? 3)%nat eqn:Hlt;
    [apply Nat.ltb_lt in Hlt; lia|].
  pose proof (js_sort_length
                (fun a b => 0 <? Handprint.finger a - Handprint.finger b)
                (Handprint.positions handprint)) as Hsl.
  destruct (js_sort _ (Handprint.positions handprint)) as [|anchor rest].
  - simpl in Hsl. lia.
  - exists anchor, rest. split; reflexivity.
Qed.

End ShapeFacts.

(** X24.  [extractChordShape] gives no shape exactly for a handprint with
    fewer than three positions.  Otherwise the shape counts the positions,
    lists their fingers in non-decreasing order (a rearrangement of the
    fingers of the handprint), has one geometry entry per finger in this
    order, each with a distance that is not negative, and its first entry,
    the anchor, has offsets and distance zero. *)
Theorem extractChordShape_spec (handprint : Handprint.t) :
  (PatternExtractor.extractChordShape handprint = None
   <-> (length (Handprint.positions handprint) < 3)%nat)
  /\ forall shape,
      PatternExtractor.extractChordShape handprint = Some shape ->
      PatternExtractor.numFingers shape = length (Handprint.positions handprint)
      /\ PatternExtractor.fingers shape
         ≡ₚ map Handprint.finger (Handprint.positions handprint)
      /\ StronglySorted Z.le (PatternExtractor.fingers shape)
      /\ map PatternExtractor.rel_finger (PatternExtractor.geometry shape)
         = PatternExtractor.fingers shape
      /\ List.Forall (fun g => (0 <= PatternExtractor.rel_distance g)%R)
           (PatternExtractor.geometry shape)
      /\ exists anchor others,
          PatternExtractor.geometry shape = anchor :: others
          /\ PatternExtractor.rowOffset anchor = 0
          /\ PatternExtractor.colOffset anchor = 0
          /\ PatternExtractor.rel_distance anchor = 0%R.
Proof.
  destruct (Nat.lt_ge_cases (length (Handprint.positions handprint)) 3)
    as [Hlt|Hge].
  - assert (PatternExtractor.extractChordShape handprint = None) as Hnone.
    { unfold PatternExtractor.extractChordShape.
      apply Nat.ltb_lt in Hlt. rewrite Hlt. reflexivity. }
    split; [split; auto|]. intros shape H. rewrite Hnone in H. discriminate H.
  - destruct (extractChordShape_eq handprint Hge) as (anchor & rest & Hsort & Heq).
    split; [split; [intros H; rewrite Heq in H; discriminate H|lia]|].
    intros shape H. rewrite Heq in H. injection H as <-.
    cbn [PatternExtractor.numFingers PatternExtractor.fingers
         PatternExtractor.geometry].
    split; [reflexivity|]. split; [|split; [|split; [|split]]].
    + change (map Handprint.finger (anchor :: rest)
              ≡ₚ map Handprint.finger (Handprint.positions handprint)).
      rewrite <- Hsort. apply Permutation_map, js_sort_Permutation.
    + change (StronglySorted Z.le (map Handprint.finger (anchor :: rest))).
      rewrite <- Hsort.
      apply (StronglySorted_map Handprint.finger
               (fun a b => Handprint.finger a <= Handprint.finger b)).
      { auto. }
      apply (js_sort_sorted _ _ (fun _ => True)).
      * intros x y z. lia.
      * intros x y _ _ H. apply Z.ltb_ge in H. lia.
      * intros x y _ _ H. apply Z.ltb_lt in H. lia.
      * apply List.Forall_forall. auto.
    + cbn [map PatternExtractor.rel_finger]. rewrite map_map. reflexivity.
    + constructor; [apply sqrt_pos|].
      apply List.Forall_forall. intros g Hg.
      apply in_map_iff in Hg as (pos & <- & _). apply sqrt_pos.
    + eexists _, _. split; [reflexivity|].
      cbn [PatternExtractor.rowOffset PatternExtractor.colOffset
           PatternExtractor.rel_distance].
      rewrite !Z.sub_diag. split; [reflexivity|]. split; [reflexivity|].
      change (0 ^ 2 + 0 ^ 2) with 0. apply sqrt_0.
Qed.

Lemma extractChordShape_spec_witness :
  exists shape,
    PatternExtractor.extractChordShape triadHandprint = Some shape
    /\ PatternExtractor.numFingers shape = 3%nat
    /\ StronglySorted Z.le (PatternExtractor.fingers shape).
Proof.
  destruct (extractChordShape_eq triadHandprint ltac:(simpl; lia))
    as (anchor & rest & _ & Heq).
  eexists. split; [exact Heq|].
  destruct (proj2 (extractChordShape_spec triadHandprint) _ Heq)
    as (Hnum & _ & Hsorted & _).
  split; [exact Hnum|exact Hsorted].
Defined.

Section SimilarityFacts.
Import PatternExtractor.

Lemma fold_best_ge {B : Type} (g : B -> R) (l : list B) (m : R) :
  (m <= fold_left (fun best x => Rmax best (g x)) l m)%R.
Proof.
  revert m. induction l as [|x l IH]; intros m; simpl; [lra|].
  pose proof (IH (Rmax m (g x))). pose proof (Rmax_l m (g x)). lra.
Qed.

End SimilarityFacts.

(** X25.  The pattern similarity is a score between 0 and 100 for all
    positions and patterns, and the neutral 50 when the patterns hold no
    chord shape. *)
Theorem calculatePatternSimilarity_bounds {A : Type} (rowOf colOf : A -> Z)
    (positions : list A) (patterns : PatternExtractor.Patterns) :
  (0 <= PatternExtractor.calculatePatternSimilarity rowOf colOf positions patterns
   <= 100)%R
  /\ (PatternExtractor.chordShapes patterns = [] ->
      PatternExtractor.calculatePatternSimilarity rowOf colOf positions patterns
      = 50%R).
Proof.
  unfold PatternExtractor.calculatePatternSimilarity.
  destruct (PatternExtractor.chordShapes patterns) as [|shape shapes].
  - split; [lra|reflexivity].
  - split; [|intros H; discriminate H].
    match goal with |- (0 <= Rmin 100 (fold_left ?f ?l 0) <= 100)%R =>
      pose proof (fold_best_ge
                    (fun shape =>
                       (if (length positions =? PatternExtractor.numFingers shape)%nat
                        then 20 else 0)
                       + Rmax 0 (30 - Rabs (PatternExtractor.calculateSpan rowOf colOf
                                              positions
                                            - PatternExtractor.avgSpan patterns) * 10)
                       + PatternExtractor.comfort shape / 2)%R l 0%R) as Hge;
      pose proof (Rmin_l 100 (fold_left f l 0%R)) as Hmin
    end.
    split; [apply Rmin_glb; [lra|exact Hge]|exact Hmin].
Qed.

Lemma calculatePatternSimilarity_bounds_witness :
  PatternExtractor.calculatePatternSimilarity
    ChordMatcher.row ChordMatcher.col wideFingering
    (PatternExtractor.mkPatterns None [] [] ∅ [] 0 0 0)
  = 50%R.
Proof.
  apply (proj2 (calculatePatternSimilarity_bounds ChordMatcher.row ChordMatcher.col
                  wideFingering
                  (PatternExtractor.mkPatterns None [] [] ∅ [] 0 0 0))).
  reflexivity.
Defined.

Section ExtractFacts.
Import PatternExtractor.

Lemma fold_Rplus_shift (l : list R) (a : R) :
  fold_left Rplus l a = (a + fold_left Rplus l 0)%R.
Proof.
  revert a. induction l as [|x l IH]; intros a; simpl; [lra|].
  rewrite (IH (a + x)%R), (IH (0 + x)%R). lra.
Qed.

Lemma sumR_nonneg (l : list R) :
  List.Forall (fun x => (0 <= x)%R) l -> (0 <= sumR l)%R.
Proof.
  unfold sumR. induction 1 as [|x l Hx _ IH]; simpl; [lra|].
  rewrite fold_Rplus_shift. lra.
Qed.

Lemma analyze_fold (l : list Handprint.t) (acc : Acc) :
  totalComfort (fold_left analyze l acc)
  = fold_left Rplus
      (map (fun hp => or_elseR (Handprint.comfortRating hp) 50) l)
      (totalComfort acc)
  /\ acc_spanDistances (fold_left analyze l acc)
     = acc_spanDistances acc
       ++ map (fun hp => calculateSpan Handprint.row Handprint.col
                           (Handprint.positions hp)) l
  /\ acc_chordShapes (fold_left analyze l acc)
     = acc_chordShapes acc ++ omap extractChordShape l
  /\ acc_fingerAssignments (fold_left analyze l acc)
     = fold_left recordFinger (flat_map Handprint.positions l)
                 (acc_fingerAssignments acc).
Proof.
  revert acc. induction l as [|hp l IH]; intros acc.
  - simpl. rewrite !app_nil_r. auto.
  - cbn [fold_left map flat_map].
    destruct (IH (analyze acc hp)) as (Hc & Hs & Hsh & Hf).
    rewrite Hc, Hs, Hsh, Hf. cbn [analyze totalComfort acc_spanDistances
      acc_chordShapes acc_fingerAssignments].
    rewrite <- app_assoc, fold_left_app. repeat split; try reflexivity.
    change (omap extractChordShape (hp :: l))
      with (match extractChordShape hp with
            | Some shape => shape :: omap extractChordShape l
            | None => omap extractChordShape l
            end).
    destruct (extractChordShape hp); [rewrite <- app_assoc|]; reflexivity.
Qed.

Lemma extractPatterns_eq (handprints : list Handprint.t) (hand : option Hand) :
  extractPatterns handprints hand
  = match filteredHandprints handprints hand with
    | [] => None
    | _ =>
        let acc := fold_left analyze (filteredHandprints handprints hand)
                             (mkAcc 0%R [] [] ∅ []) in
        Some {| hand := hand;
                fingerDistances :=
                  map (fun e =>
                         (fst e,
                          {| avg := mean (snd e);
                             stdDev := sqrt (variance (snd e) (mean (snd e)));
                             samples := length (snd e) |}))
                      (acc_fingerDistances acc);
                spanDistances := acc_spanDistances acc;
                fingerAssignments := acc_fingerAssignments acc;
                chordShapes := acc_chordShapes acc;
                avgComfort :=
                  (totalComfort acc
                   / INR (length (filteredHandprints handprints hand)))%R;
                avgSpan := mean (acc_spanDistances acc);
                spanStdDev :=
                  sqrt (variance (acc_spanDistances acc)
                                 (mean (acc_spanDistances acc))) |}
    end.
Proof. reflexivity. Qed.

End ExtractFacts.

(** X26.  [extractPatterns] returns nothing exactly when no handprint is
    left after the filter on the hand.  Otherwise the loop over the
    handprints leaves one span per handprint analysed, in their order, the
    chord shapes of those that have one, the mean of their comfort ratings
    (50 for a missing one) and the mean of the spans, which is not
    negative. *)
Theorem extractPatterns_summary (handprints : list Handprint.t)
    (hand : option Hand) :
  (PatternExtractor.extractPatterns handprints hand = None
   <-> filteredHandprints handprints hand = [])
  /\ forall patterns,
      PatternExtractor.extractPatterns handprints hand = Some patterns ->
      PatternExtractor.hand patterns = hand
      /\ PatternExtractor.spanDistances patterns
         = map (fun hp => PatternExtractor.calculateSpan Handprint.row Handprint.col
                            (Handprint.positions hp))
               (filteredHandprints handprints hand)
      /\ PatternExtractor.chordShapes patterns
         = omap PatternExtractor.extractChordShape
                (filteredHandprints handprints hand)
      /\ PatternExtractor.avgComfort patterns
         = PatternExtractor.mean
             (map (fun hp => or_elseR (Handprint.comfortRating hp) 50)
                  (filteredHandprints handprints hand))
      /\ PatternExtractor.avgSpan patterns
         = PatternExtractor.mean (PatternExtractor.spanDistances patterns)
      /\ (0 <= PatternExtractor.avgSpan patterns)%R.
Proof.
  rewrite extractPatterns_eq.
  destruct (filteredHandprints handprints hand) as [|hp l] eqn:Hf.
  - split; [split; auto|]. intros patterns H. discriminate H.
  - split; [split; intros H; discriminate H|].
    intros patterns H. cbv iota zeta in H.
    remember (hp :: l) as analysed eqn:Ha.
    assert (0 < length analysed)%nat as Hlen by (subst analysed; simpl; lia).
    clear Ha Hf.
    destruct (analyze_fold analysed (PatternExtractor.mkAcc 0%R [] [] ∅ []))
      as (Hc & Hs & Hsh & _).
    injection H as <-.
    cbn [PatternExtractor.hand PatternExtractor.spanDistances
         PatternExtractor.chordShapes PatternExtractor.avgComfort
         PatternExtractor.avgSpan].
    rewrite Hc, Hs, Hsh.
    cbn [PatternExtractor.totalComfort PatternExtractor.acc_spanDistances
         PatternExtractor.acc_chordShapes app].
    split; [reflexivity|]. split; [reflexivity|]. split; [reflexivity|].
    split; [unfold PatternExtractor.mean, PatternExtractor.sumR;
            rewrite length_map; reflexivity|].
    split; [reflexivity|].
    unfold PatternExtractor.mean.
    apply Rmult_le_pos.
    + apply sumR_nonneg. apply List.Forall_forall. intros x Hx.
      apply in_map_iff in Hx as (h & <- & _).
      apply spanLoop_ge.
    + left. apply Rinv_0_lt_compat. rewrite length_map.
      apply lt_0_INR. exact Hlen.
Qed.

Lemma extractPatterns_summary_witness :
  exists patterns,
    PatternExtractor.extractPatterns [triadHandprint] None = Some patterns
    /\ length (PatternExtractor.spanDistances patterns) = 1%nat
    /\ (0 <= PatternExtractor.avgSpan patterns)%R.
Proof.
  destruct (PatternExtractor.extractPatterns [triadHandprint] None)
    as [patterns|] eqn:H.
  - exists patterns. split; [reflexivity|].
    destruct (proj2 (extractPatterns_summary [triadHandprint] None) patterns H)
      as (_ & Hspans & _ & _ & _ & Havg).
    split; [rewrite Hspans; reflexivity|exact Havg].
  - exfalso.
    pose proof (proj1 (proj1 (extractPatterns_summary [triadHandprint] None)) H)
      as Hnil.
    discriminate Hnil.
Defined.

Section SuggestFacts.
Import PatternExtractor.

Lemma objSet_In {V : Type} (k : Z) (v : V) (o : list (Z * V)) (e : Z * V) :
  In e (objSet k v o) -> e = (k, v) \/ In e o.
Proof.
  induction o as [|[k' v'] rest IH]; simpl.
  - intros [<-|[]]. left. reflexivity.
  - destruct (k' =? k); [intros [<-|H]; auto|].
    destruct ((0 <=? k) && ((k' <? 0) || (k <? k'))
              && negb (existsb (fun e => fst e =? k) rest)).
    + intros [<-|[<-|H]]; auto.
    + intros [<-|H]; [auto|]. destruct (IH H); auto.
Qed.

Lemma objSet_nonempty {V : Type} (k : Z) (v : V) (o : list (Z * V)) :
  objSet k v o <> [].
Proof.
  destruct o as [|[k' v'] rest]; simpl; [discriminate|].
  destruct (k' =? k); [discriminate|].
  destruct ((0 <=? k) && ((k' <? 0) || (k <? k'))
            && negb (existsb (fun e => fst e =? k) rest)); discriminate.
Qed.

Lemma objGet_In {V : Type} (k : Z) (v : V) (o : list (Z * V)) :
  objGet k o = Some v -> In (k, v) o.
Proof.
  unfold objGet. destruct (find _ o) as [[k' v']|] eqn:Hfind; [|discriminate].
  intros [= <-]. apply find_some in Hfind as [Hin Hk].
  apply Z.eqb_eq in Hk. simpl in Hk. subst k'. exact Hin.
Qed.

Lemma recorded_empty : recorded [] ∅.
Proof. intros key. rewrite lookup_empty. intros pos []. Qed.

Lemma recordFinger_recorded (done : list Handprint.Position)
    (assignments : gmap (Z * Z) (list (Z * Z))) (pos : Handprint.Position) :
  recorded done assignments ->
  recorded (done ++ [pos]) (recordFinger assignments pos).
Proof.
  intros Hrec key. unfold recordFinger.
  destruct (decide ((Handprint.row pos, Handprint.col pos) = key)) as [Hkey|Hkey].
  - rewrite Hkey, lookup_insert_eq. split; [apply objSet_nonempty|].
    apply List.Forall_forall. intros e He.
    pose proof (Hrec key) as Hold.
    apply objSet_In in He as [->|He].
    + simpl. split.
      * destruct (assignments !! key) as [counts|]; simpl; [|lia].
        destruct (objGet (Handprint.finger pos) counts) as [c|] eqn:Hget;
          simpl; [|lia].
        apply objGet_In in Hget. destruct Hold as [_ Hall].
        rewrite List.Forall_forall in Hall.
        destruct (Hall _ Hget) as [Hc _]. simpl in Hc.
        destruct (c =? 0); lia.
      * exists pos. split; [apply in_or_app; right; left; reflexivity|auto].
    + destruct (assignments !! key) as [counts|]; simpl in He; [|destruct He].
      destruct Hold as [_ Hall]. rewrite List.Forall_forall in Hall.
      destruct (Hall e He) as (Hc & p & Hp & Hpk & Hpf).
      split; [exact Hc|]. exists p. split; [apply in_or_app; left; exact Hp|auto].
  - rewrite lookup_insert_ne by exact Hkey.
    pose proof (Hrec key) as Hold.
    destruct (assignments !! key) as [counts|].
    + destruct Hold as [Hne Hall]. split; [exact Hne|].
      apply List.Forall_forall. intros e He.
      rewrite List.Forall_forall in Hall.
      destruct (Hall e He) as (Hc & p & Hp & Hpk & Hpf).
      split; [exact Hc|]. exists p. split; [apply in_or_app; left; exact Hp|auto].
    + intros p Hp. apply in_app_or in Hp as [Hp|[<-|[]]];
        [apply Hold, Hp|exact Hkey].
Qed.

Lemma fold_recorded (positions done : list Handprint.Position)
    (assignments : gmap (Z * Z) (list (Z * Z))) :
  recorded done assignments ->
  recorded (done ++ positions) (fold_left recordFinger positions assignments).
Proof.
  revert done assignments.
  induction positions as [|pos rest IH]; intros done assignments Hrec; simpl.
  - rewrite app_nil_r. exact Hrec.
  - replace (done ++ pos :: rest) with ((done ++ [pos]) ++ rest)
      by (rewrite <- app_assoc; reflexivity).
    apply IH, recordFinger_recorded, Hrec.
Qed.

Lemma best_fold (counts : list (Z * Z)) (best : option Z) (maxCount : Z) :
  fst (fold_left
         (fun (best : option Z * Z) (e : Z * Z) =>
            if snd best <? snd e then (Some (fst e), snd e) else best)
         counts (best, maxCount)) = best
  \/ exists e,
      In e counts
      /\ fst (fold_left
                (fun (best : option Z * Z) (e : Z * Z) =>
                   if snd best <? snd e then (Some (fst e), snd e) else best)
                counts (best, maxCount)) = Some (fst e).
Proof.
  revert best maxCount.
  induction counts as [|e rest IH]; intros best maxCount; simpl; [auto|].
  destruct (maxCount <? snd e).
  - destruct (IH (Some (fst e)) (snd e)) as [H|(e' & He' & H)].
    + right. exists e. auto.
    + right. exists e'. auto.
  - destruct (IH best maxCount) as [H|(e' & He' & H)]; [auto|].
    right. exists e'. auto.
Qed.

Lemma best_positive (counts : list (Z * Z)) :
  counts <> [] ->
  List.Forall (fun e => 1 <= snd e) counts ->
  exists e,
    In e counts
    /\ fst (fold_left
              (fun (best : option Z * Z) (e : Z * Z) =>
                 if snd best <? snd e then (Some (fst e), snd e) else best)
              counts (None, 0)) = Some (fst e).
Proof.
  intros Hne Hall. destruct counts as [|e rest]; [contradiction|].
  inversion Hall as [|? ? He _]; subst. simpl.
  destruct (0 <? snd e) eqn:Hlt; [|apply Z.ltb_ge in Hlt; lia].
  destruct (best_fold rest (Some (fst e)) (snd e)) as [H|(e' & He' & H)].
  - exists e. auto.
  - exists e'. auto.
Qed.

End SuggestFacts.

(** X27.  On the patterns extracted from handprints,
    [suggestFingerForPosition] has no suggestion exactly for a pad that no
    analysed handprint touches, and a finger it suggests is one that some
    analysed handprint has put on this pad. *)
Theorem suggestFingerForPosition_recorded (handprints : list Handprint.t)
    (hand : option Hand) (patterns : PatternExtractor.Patterns) (row col : Z) :
  PatternExtractor.extractPatterns handprints hand = Some patterns ->
  (PatternExtractor.suggestFingerForPosition row col patterns = None
   <-> forall finger,
         ~ played (filteredHandprints handprints hand) row col finger)
  /\ forall finger,
      PatternExtractor.suggestFingerForPosition row col patterns = Some finger ->
      played (filteredHandprints handprints hand) row col finger.
Proof.
  rewrite extractPatterns_eq.
  destruct (filteredHandprints handprints hand) as [|hp l] eqn:Hf;
    [intros H; discriminate H|].
  intros H. cbv iota zeta in H.
  remember (hp :: l) as analysed eqn:Ha. clear Ha Hf.
  destruct (analyze_fold analysed (PatternExtractor.mkAcc 0%R [] [] ∅ []))
    as (_ & _ & _ & Hfa).
  injection H as <-.
  unfold PatternExtractor.suggestFingerForPosition.
  cbn [PatternExtractor.fingerAssignments]. rewrite Hfa.
  cbn [PatternExtractor.acc_fingerAssignments].
  pose proof (fold_recorded (flat_map Handprint.positions analysed) [] ∅
                recorded_empty (row, col)) as Hrec.
  rewrite app_nil_l in Hrec.
  destruct (fold_left PatternExtractor.recordFinger
              (flat_map Handprint.positions analysed) ∅ !! (row, col))
    as [counts|].
  - destruct Hrec as [Hne Hall].
    assert (List.Forall (fun e : Z * Z => 1 <= snd e) counts) as Hpos.
    { apply List.Forall_forall. intros e He.
      rewrite List.Forall_forall in Hall. apply (Hall e He). }
    destruct (best_positive counts Hne Hpos) as (e & He & Hbest).
    rewrite List.Forall_forall in Hall.
    assert (forall e', In e' counts ->
                       played analysed row col (fst e')) as Hplayed.
    { intros e' He'. destruct (Hall e' He') as (_ & pos & Hpos' & Hkey & Hfinger).
      apply in_flat_map in Hpos' as (h & Hh & Hpos').
      injection Hkey as Hr Hc. exists h, pos. auto. }
    split.
    + split; [rewrite Hbest; intros H; discriminate H|].
      intros H. destruct (H (fst e) (Hplayed e He)).
    + intros finger Hsome.
      destruct (best_fold counts None 0) as [H|(e' & He' & H)].
      * rewrite H in Hsome. discriminate Hsome.
      * rewrite H in Hsome. injection Hsome as <-. apply Hplayed, He'.
  - split; [|intros finger H; discriminate H].
    split; [|reflexivity]. intros _ finger (h & pos & Hh & Hpos & Hr & Hc & _).
    apply (Hrec pos); [apply in_flat_map; exists h; auto|].
    rewrite Hr, Hc. reflexivity.
Qed.

Lemma suggestFingerForPosition_recorded_witness :
  exists patterns,
    PatternExtractor.extractPatterns [triadHandprint] None = Some patterns
    /\ PatternExtractor.suggestFingerForPosition 0 4 patterns <> None
    /\ PatternExtractor.suggestFingerForPosition 1 0 patterns = None.
Proof.
  destruct (PatternExtractor.extractPatterns [triadHandprint] None)
    as [patterns|] eqn:H.
  - exists patterns. split; [reflexivity|]. split.
    + intros Hnone.
      apply (proj1 (proj1 (suggestFingerForPosition_recorded [triadHandprint]
                             None patterns 0 4 H)) Hnone 2).
      exists triadHandprint, (Handprint.mkPosition 0 4 4 (Some 52) 2).
      simpl. auto 10.
    + apply (proj1 (suggestFingerForPosition_recorded [triadHandprint] None
                      patterns 1 0 H)).
      intros finger (hp & pos & Hhp & Hpos & Hrow & _).
      destruct Hhp as [<-|[]].
      destruct Hpos as [<-|[<-|[<-|[]]]]; discriminate Hrow.
  - exfalso.
    pose proof (proj1 (proj1 (extractPatterns_summary [triadHandprint] None)) H)
      as Hnil.
    discriminate Hnil.
Defined.

(** * Further properties of the pitch-class helpers and of the renderer *)

Section ParseFacts.
Import Music.


End ParseFacts.



Section NoteNameFacts.
Import Music.

Lemma pitch_class_cases (midiNote : Z) :
  let pc := midiToPitchClass midiNote in
  pc = 0 \/ pc = 1 \/ pc = 2 \/ pc = 3 \/ pc = 4 \/ pc = 5 \/ pc = 6
  \/ pc = 7 \/ pc = 8 \/ pc = 9 \/ pc = 10 \/ pc = 11.
Proof. intros pc. pose proof (midiToPitchClass_range midiNote). lia. Qed.

End NoteNameFacts.

(** X29.  [midiToNoteName] prints a note name followed by the octave
    [floor(midiNote / 12) - 1] in decimal; the name is a key of [NOTE_TO_PC]
    whose pitch class is that of the note, with sharps as with flats, so
    that the octave and the pitch class of the name give the note back as
    [(octave + 1) * 12 + pc]. *)
Theorem midiToNoteName_spec (midiNote : Z) (useFlats : bool) :
  exists noteName,
    Music.midiToNoteName midiNote useFlats
    = String.append noteName (pretty (midiNote / 12 - 1))
    /\ Music.ownProperty Music.NOTE_TO_PC noteName
       = Some (Music.midiToPitchClass midiNote)
    /\ (midiNote / 12 - 1 + 1) * 12 + Music.midiToPitchClass midiNote = midiNote.
Proof.
  unfold Music.midiToNoteName.
  change (Z.rem (Z.rem midiNote 12 + 12) 12)
    with (Music.midiToPitchClass midiNote).
  assert ((midiNote / 12 - 1 + 1) * 12 + Music.midiToPitchClass midiNote
          = midiNote) as Hback.
  { rewrite midiToPitchClass_mod.
    pose proof (Z.div_mod midiNote 12 ltac:(lia)). lia. }
  destruct (pitch_class_cases midiNote)
    as [H|[H|[H|[H|[H|[H|[H|[H|[H|[H|[H|H]]]]]]]]]]];
    rewrite H in *; destruct useFlats;
    (eexists; split; [reflexivity|split; [reflexivity|exact Hback]]).
Qed.

Section IntervalFacts.

Lemma semitones_mod (pc rootPC : Z) :
  -12 <= pc - rootPC ->
  Z.rem (pc - rootPC + 12) 12 = (pc - rootPC) mod 12.
Proof.
  intros H. rewrite Z.rem_mod_nonneg by lia.
  replace (pc - rootPC + 12) with (pc - rootPC + 1 * 12) by lia.
  apply Z.mod_add. lia.
Qed.

End IntervalFacts.

(** X30.  The chord tone that the renderer names for a pitch class depends
    only on its interval above the root: for pitch classes from 0 to 11 it
    is the root tone exactly when the pitch class is the root, and it does
    not change when pitch class and root are transposed together (and
    reduced modulo 12 by [midiToPitchClass]). *)
Theorem calculateInterval_transposed (pc rootPC semitones : Z) :
  0 <= pc < 12 -> 0 <= rootPC < 12 ->
  (Grid._calculateInterval pc rootPC = Grid.ToneRoot <-> pc = rootPC)
  /\ Grid._calculateInterval (Music.midiToPitchClass (pc + semitones))
                             (Music.midiToPitchClass (rootPC + semitones))
     = Grid._calculateInterval pc rootPC.
Proof.
  intros Hpc Hroot.
  pose proof (midiToPitchClass_range (pc + semitones)) as Ha.
  pose proof (midiToPitchClass_range (rootPC + semitones)) as Hb.
  assert (Z.rem (Music.midiToPitchClass (pc + semitones)
                 - Music.midiToPitchClass (rootPC + semitones) + 12) 12
          = Z.rem (pc - rootPC + 12) 12) as Hsame.
  { rewrite !semitones_mod by lia. rewrite !midiToPitchClass_mod.
    rewrite <- Zminus_mod. f_equal. lia. }
  split.
  - unfold Grid._calculateInterval. rewrite semitones_mod by lia.
    pose proof (Z.mod_pos_bound (pc - rootPC) 12 ltac:(lia)) as Hm.
    split.
    + intros H.
      destruct ((pc - rootPC) mod 12 =? 0) eqn:H0.
      * apply Z.eqb_eq in H0.
        assert (pc - rootPC = 12 * ((pc - rootPC) / 12)) as Hdiv
          by (pose proof (Z.div_mod (pc - rootPC) 12 ltac:(lia)); lia).
        lia.
      * repeat (match type of H with
                | (if ?b then _ else _) = _ => destruct b; try discriminate H
                end).
    + intros ->. rewrite Z.sub_diag. reflexivity.
  - unfold Grid._calculateInterval. rewrite Hsame. reflexivity.
Qed.

Lemma calculateInterval_transposed_witness :
  Grid._calculateInterval (Music.midiToPitchClass (4 + 10))
                          (Music.midiToPitchClass (0 + 10))
  = Grid._calculateInterval 4 0.
Proof.
  apply (proj2 (calculateInterval_transposed 4 0 10 ltac:(lia) ltac:(lia))).
Defined.
